(** * Sudoku engine: generator, solver, counter and hint search

    A shallow embedding of [js/generator.js] (object [SudokuGenerator], its
    first version, and object [SudokuHistory]), of [js/hints.js] (object
    [SudokuHints]) and of the part of [js/game.js] (object [SudokuGame])
    that keeps the state of the game, with the properties of the engine
    proved over it.

    Conventions of the embedding.
    - A JS grid is an array of row arrays; it is a [list (list Z)].  Cell
      values are JS numbers that only ever hold integers here, so they are
      [Z]; [0] is the empty cell.  Row and column indices are [nat].
    - The code mutates grids in place.  A function that writes to its grid
      argument takes the grid and returns the grid as it is when the call
      returns (explicit state passing).  The rows of a grid are distinct
      arrays, as every grid the engine builds has them
      ([Array.from({length: 9}, () => Array(9).fill(0))] and
      [puzzle.map(row => [...row])]).
    - Every index the code uses comes from a loop over [0..8] (or over a
      3x3 box inside that range), so on a 9x9 grid every read and write is in
      range.  [get] reads [0] out of range and [set] writes nothing there;
      neither case arises on the grids the theorems speak about.
    - Recursion whose depth the code bounds only by the number of empty
      cells takes a [fuel] argument; [None] is "out of fuel".  The entry
      points pass [82] (81 cells and the final call); on a 9x9 grid this is
      always enough and any larger fuel gives the same result (section
      Fuel).  The calls of [generateSolution] and [generatePuzzle] to
      themselves after a failed validation take fuel as well.
    - [Math.random] is an oracle [rand : nat -> nat] together with a counter
      of the draws made so far; [Math.floor(Math.random() * n)] is
      [rand k mod n] at the current counter [k]. *)

From stdpp Require Import base tactics option list numbers strings.
From Stdlib Require Import ZArith Lia.

Local Open Scope Z_scope.

(** ** Grids *)

Abbreviation grid := (list (list Z)).

(** [grid[r][c]] *)
Definition get (g : grid) (r c : nat) : Z :=
  match g !! r with
  | Some row => default 0 (row !! c)
  | None => 0
  end.

(** [grid[r][c] = v] *)
Definition set (g : grid) (r c : nat) (v : Z) : grid :=
  alter (fun row => <[c := v]> row) r g.

(** [Array.from({ length: 9 }, () => Array(9).fill(0))] *)
Definition emptyGrid : grid := replicate 9 (replicate 9 0).

(** [puzzle.map(row => [...row])]: a fresh grid with the same cells. *)
Definition copyGrid (g : grid) : grid := map (fun row => row) g.

(** The index ranges of the loops [for (let i = 0; i < 9; i++)] and
    [for (let num = 1; num <= 9; num++)]. *)
Definition idx9 : list nat := seq 0 9.
Definition nums19 : list Z := [1; 2; 3; 4; 5; 6; 7; 8; 9].

(** The cells in the order of the nested loops over [row] then [col]. *)
Definition allCells : list (nat * nat) :=
  r ← idx9; c ← idx9; [(r, c)].

(** ** SudokuGenerator: placement and validation *)

(** [findEmptyCell(grid)]: the first cell holding [0] in row-major order,
    [None] for the JS [null]. *)
Definition findEmptyCell (g : grid) : option (nat * nat) :=
  find (fun rc => get g rc.1 rc.2 =? 0) allCells.

(** [Math.floor(i / 3) * 3] *)
Definition boxStart (i : nat) : nat := (i / 3 * 3)%nat.

(** [isValidPlacement(grid, row, col, num)] *)
Definition isValidPlacement (g : grid) (row col : nat) (num : Z) : bool :=
  if existsb (Z.eqb num) (default [] (g !! row)) then false
  else if existsb (fun r => get g r col =? num) idx9 then false
  else
    let boxRow := boxStart row in
    let boxCol := boxStart col in
    if existsb (fun r => existsb (fun c => get g r c =? num) (seq boxCol 3))
         (seq boxRow 3)
    then false
    else true.

(** The cells of the box that starts at [(startRow, startCol)], in the
    order of the loops over [r] then [c]. *)
Definition boxCells (startRow startCol : nat) : list (nat * nat) :=
  r ← seq startRow 3; c ← seq startCol 3; [(r, c)].

(** The body shared by the three region validators: walk the cells of a
    region with the set [seen]; skip zeros, fail on a value outside 1..9 or
    on one already seen. *)
Fixpoint validateCells (g : grid) (cells : list (nat * nat)) (seen : list Z)
  : bool :=
  match cells with
  | [] => true
  | (r, c) :: rest =>
      let num := get g r c in
      if num =? 0 then validateCells g rest seen
      else if (num <? 1) || (9 <? num) then false
      else if existsb (Z.eqb num) seen then false
      else validateCells g rest (num :: seen)
  end.

(** [validateRow(grid, rowIndex)] *)
Definition validateRow (g : grid) (rowIndex : nat) : bool :=
  validateCells g (map (fun col => (rowIndex, col)) idx9) [].

(** [validateColumn(grid, colIndex)] *)
Definition validateColumn (g : grid) (colIndex : nat) : bool :=
  validateCells g (map (fun row => (row, colIndex)) idx9) [].

(** [validateSubgrid(grid, boxStartRow, boxStartCol)] *)
Definition validateSubgrid (g : grid) (boxStartRow boxStartCol : nat) : bool :=
  validateCells g (boxCells boxStartRow boxStartCol) [].

(** [isValidGrid(grid, requireComplete)] *)
Definition isValidGrid (g : grid) (requireComplete : bool) : bool :=
  if negb (length g =? 9)%nat then false
  else if existsb (fun row => negb (length (default [] (g !! row)) =? 9)%nat)
            idx9 then false
  else if requireComplete &&
          existsb (fun row => existsb (fun col => get g row col =? 0) idx9)
            idx9 then false
  else if negb (forallb (validateRow g) idx9) then false
  else if negb (forallb (validateColumn g) idx9) then false
  else if negb (forallb (fun boxRow =>
                  forallb (fun boxCol => validateSubgrid g boxRow boxCol)
                    [0; 3; 6]%nat) [0; 3; 6]%nat) then false
  else true.

(** ** SudokuGenerator: the backtracking solver and counter *)

(** The loop [for (let num = 1; num <= 9; num++)] of [solveGrid] at the
    empty cell [(row, col)].  [rec] is the recursive call [this.solveGrid];
    it returns the success flag and the grid as the call leaves it. *)
Fixpoint solveLoop (rec : grid -> option (bool * grid)) (row col : nat)
    (nums : list Z) (g : grid) : option (bool * grid) :=
  match nums with
  | [] => Some (false, g)
  | num :: rest =>
      if isValidPlacement g row col num then
        match rec (set g row col num) with
        | None => None
        | Some (true, g') => Some (true, g')
        | Some (false, g') => solveLoop rec row col rest (set g' row col 0)
        end
      else solveLoop rec row col rest g
  end.

(** [solveGrid(grid)] *)
Fixpoint solveGrid (fuel : nat) (g : grid) : option (bool * grid) :=
  match fuel with
  | O => None
  | S fuel' =>
      match findEmptyCell g with
      | None => Some (true, g)
      | Some (row, col) => solveLoop (solveGrid fuel') row col nums19 g
      end
  end.

(** [solve(puzzle)]: the outer [option] is the fuel, the inner one the JS
    result, [None] for [null]. *)
Definition solve (puzzle : grid) : option (option grid) :=
  match solveGrid 82 (copyGrid puzzle) with
  | None => None
  | Some (true, g) => Some (Some g)
  | Some (false, _) => Some None
  end.

(** The loop of [countSolutions] at the empty cell [(row, col)]; [count] is
    [count.value], the field of the counter object shared by all calls. *)
Fixpoint countLoop (rec : grid -> nat -> option (grid * nat)) (row col : nat)
    (nums : list Z) (g : grid) (count : nat) : option (grid * nat) :=
  match nums with
  | [] => Some (g, count)
  | num :: rest =>
      if isValidPlacement g row col num then
        match rec (set g row col num) count with
        | None => None
        | Some (g', count') =>
            if (1 <? count')%nat then Some (set g' row col 0, count')
            else countLoop rec row col rest (set g' row col 0) count'
        end
      else countLoop rec row col rest g count
  end.

(** [countSolutions(grid, count)]: returns the grid as the call leaves it
    and [count.value], which is also the JS return value. *)
Fixpoint countSolutions (fuel : nat) (g : grid) (count : nat)
  : option (grid * nat) :=
  match fuel with
  | O => None
  | S fuel' =>
      if (1 <? count)%nat then Some (g, count)
      else
        match findEmptyCell g with
        | None => Some (g, S count)
        | Some (row, col) =>
            countLoop (countSolutions fuel') row col nums19 g count
        end
  end.

(** [hasUniqueSolution(puzzle)] *)
Definition hasUniqueSolution (puzzle : grid) : option bool :=
  match countSolutions 82 (copyGrid puzzle) 0 with
  | None => None
  | Some (_, n) => Some (n =? 1)%nat
  end.


(** ** The random source and the store of arrays *)

(** A computation that draws from [Math.random] and may run out of fuel:
    it takes the number of draws made so far and returns its result with
    the new number of draws. *)
Definition Rand (A : Type) : Type := nat -> option (A * nat).

Definition randRet {A} (a : A) : Rand A := fun k => Some (a, k).

Definition randBind {A B} (m : Rand A) (f : A -> Rand B) : Rand B :=
  fun k => match m k with
           | None => None
           | Some (a, k') => f a k'
           end.

Definition outOfFuel {A} : Rand A := fun _ => None.

Notation "'let*' x := m 'in' f" := (randBind m (fun x => f))
  (at level 10, x name, m at level 100, f at level 200).
Notation "'let*' ' p := m 'in' f" :=
  (randBind m (fun x => match x with p => f end))
  (at level 10, p pattern, m at level 100, f at level 200).

(** JS arrays that are shared between a caller and a callee live in a
    store; a reference to an array is its index in the store, and a new
    array is appended at the end. *)
Abbreviation store A := (list (list A)).

(** [[a[i], a[j]] = [a[j], a[i]]]: both elements are read first, then
    [a[i]] and [a[j]] are written in that order. *)
Definition swap {A} (a : list A) (i j : nat) : list A :=
  match a !! i, a !! j with
  | Some x, Some y => <[j := x]> (<[i := y]> a)
  | _, _ => a
  end.

Section Random.

Variable rand : nat -> nat.

(** [Math.floor(Math.random() * n)] *)
Definition randomBelow (n : nat) : Rand nat :=
  fun k => Some ((rand k mod n)%nat, S k).

(** The loop [for (let i = shuffled.length - 1; i > 0; i--)] of
    [shuffleArray], entered at index [i]; [shuffled] is the reference of
    the array it permutes in the store [h]. *)
Fixpoint shuffleLoop {A} (shuffled : nat) (i : nat) (h : store A) (k : nat)
  : store A * nat :=
  match i with
  | O => (h, k)
  | S i' =>
      let j := (rand k mod (i + 1))%nat in
      shuffleLoop shuffled i' (alter (fun a => swap a i j) shuffled h) (S k)
  end.

(** [shuffleArray(array)]: [const shuffled = [...array]] allocates a new
    array with the elements of the argument, the loop permutes the new
    array, and its reference is returned. *)
Definition shuffleArray {A} (array : nat) (h : store A) (k : nat)
  : nat * store A * nat :=
  let elements := default [] (h !! array) in
  let shuffled := length h in
  let '(h', k') :=
    shuffleLoop shuffled (length elements - 1) (h ++ [elements]) k in
  (shuffled, h', k').

(** [this.shuffleArray([x1, ..., xn])] on an array literal: the literal is
    the only array of a one-array store, and the caller reads the array
    that is returned. *)
Definition shuffleLiteral {A} (literal : list A) : Rand (list A) :=
  fun k =>
    let '(shuffled, h, k') := shuffleArray 0 [literal] k in
    Some (default [] (h !! shuffled), k').

(** ** SudokuGenerator: generation *)

(** The loop [for (const num of numbers)] of [fillGrid]. *)
Fixpoint fillLoop (rec : grid -> Rand (bool * grid)) (row col : nat)
    (numbers : list Z) (g : grid) : Rand (bool * grid) :=
  match numbers with
  | [] => randRet (false, g)
  | num :: rest =>
      if isValidPlacement g row col num then
        let* '(ok, g') := rec (set g row col num) in
        if ok : bool then randRet (true, g')
        else fillLoop rec row col rest (set g' row col 0)
      else fillLoop rec row col rest g
  end.

(** [fillGrid(grid)] *)
Fixpoint fillGrid (fuel : nat) (g : grid) : Rand (bool * grid) :=
  match fuel with
  | O => outOfFuel
  | S fuel' =>
      match findEmptyCell g with
      | None => randRet (true, g)
      | Some (row, col) =>
          let* numbers := shuffleLiteral nums19 in
          fillLoop (fillGrid fuel') row col numbers g
      end
  end.

(** One pass of [generateSolution]: a new empty grid is filled, the flag
    returned by [fillGrid] is dropped, and the grid is validated. *)
Definition fillAndValidate : Rand (grid * bool) :=
  let* '(_, g) := fillGrid 82 emptyGrid in
  randRet (g, isValidGrid g true).

(** The loop [for (let attempt = 0; attempt < maxAttempts; attempt++)] of
    [generateSolution]; [Some grid] when the loop returns a grid. *)
Fixpoint generateSolutionLoop (attempts : nat) : Rand (option grid) :=
  match attempts with
  | O => randRet None
  | S attempts' =>
      let* '(g, valid) := fillAndValidate in
      if valid : bool then randRet (Some g)
      else generateSolutionLoop attempts'
  end.

(** [generateSolution(maxAttempts)]; [fuel] bounds the calls of the function
    to itself after a failed final attempt. *)
Fixpoint generateSolution (fuel maxAttempts : nat) : Rand grid :=
  match fuel with
  | O => outOfFuel
  | S fuel' =>
      let* r := generateSolutionLoop maxAttempts in
      match r with
      | Some g => randRet g
      | None =>
          let* '(g, valid) := fillAndValidate in
          if negb valid then generateSolution fuel' maxAttempts
          else randRet g
      end
  end.

End Random.

(** The names every JS object inherits from [Object.prototype]: for these
    keys [clueRanges[difficulty]] is an inherited (truthy) value without
    [min] and [max]. *)
Definition objectPrototypeKeys : list string :=
  ["constructor"; "hasOwnProperty"; "isPrototypeOf"; "propertyIsEnumerable";
   "toLocaleString"; "toString"; "valueOf"; "__proto__";
   "__defineGetter__"; "__defineSetter__"; "__lookupGetter__";
   "__lookupSetter__"]%string.

(** [clueRanges[difficulty] || clueRanges.easy] as the pair [(min, max)];
    [None] when the fields are [undefined]. *)
Definition clueRange (difficulty : string) : option (nat * nat) :=
  if String.eqb difficulty "easy" then Some (45, 50)%nat
  else if String.eqb difficulty "medium" then Some (28, 32)%nat
  else if String.eqb difficulty "hard" then Some (22, 26)%nat
  else if String.eqb difficulty "superhard" then Some (17, 20)%nat
  else if existsb (String.eqb difficulty) objectPrototypeKeys then None
  else Some (45, 50)%nat.

(** [Math.floor(r / 3) * 3 + Math.floor(c / 3)] *)
Definition boxIndexOf (rc : nat * nat) : nat :=
  (rc.1 / 3 * 3 + rc.2 / 3)%nat.

(** The nine arrays [boxes[0..8]] after the grouping loops: the store holds
    [boxes[i]] at reference [i], and each position is pushed on the array
    of its box. *)
Definition groupedBoxes : store (nat * nat) :=
  foldl (fun boxes rc => alter (fun box => box ++ [rc]) (boxIndexOf rc) boxes)
    (replicate 9 []) allCells.

(** [removed >= cellsToRemove], where [None] is the number [NaN]. *)
Definition reached (removed : nat) (cellsToRemove : option nat) : bool :=
  match cellsToRemove with
  | Some n => (n <=? removed)%nat
  | None => false
  end.

(** The loop [for (const [row, col] of positions)] of [generatePuzzle]; it
    returns the puzzle grid as the loop leaves it. *)
Fixpoint removeCells (difficulty : string) (cellsToRemove : option nat)
    (positions : list (nat * nat)) (puzzle : grid) (removed : nat)
  : option grid :=
  match positions with
  | [] => Some puzzle
  | (row, col) :: rest =>
      if reached removed cellsToRemove then Some puzzle
      else
        let backup := get puzzle row col in
        let puzzle := set puzzle row col 0 in
        if String.eqb difficulty "hard" || String.eqb difficulty "superhard"
        then
          match hasUniqueSolution puzzle with
          | None => None
          | Some false =>
              removeCells difficulty cellsToRemove rest
                (set puzzle row col backup) removed
          | Some true =>
              removeCells difficulty cellsToRemove rest puzzle (S removed)
          end
        else removeCells difficulty cellsToRemove rest puzzle (S removed)
  end.

(** The object [{ puzzle, solution }]. *)
Record puzzleData : Type := PuzzleData { puzzle : grid; solution : grid }.

Section Generate.

Variable rand : nat -> nat.

(** [boxes.forEach(box => this.shuffleArray(box))]: [shuffleArray] is called
    on each of the references in turn and the reference it returns is
    dropped. *)
Fixpoint shuffleEach {A} (boxes : list nat) (h : store A) (k : nat)
  : store A * nat :=
  match boxes with
  | [] => (h, k)
  | box :: rest =>
      let '(_, h', k') := shuffleArray rand box h k in
      shuffleEach rest h' k'
  end.

(** The array [positions]: round [i] takes element [i] of each box in the
    order [boxOrder]. *)
Definition interleave {A} (h : store A) (boxOrder : list nat) : list A :=
  i ← idx9; boxIndex ← boxOrder;
  match default [] (h !! boxIndex) !! i with
  | Some p => [p]
  | None => []
  end.

(** The removal queue of one attempt of [generatePuzzle]. *)
Definition removalQueue : Rand (list (nat * nat)) :=
  fun k =>
    let '(h, k1) := shuffleEach idx9 groupedBoxes k in
    (let* boxOrder := shuffleLiteral rand idx9 in
     randRet (interleave h boxOrder)) k1.

(** The body of the loop over [attempt] in [generatePuzzle]; [Some] when it
    returns the object, [None] when validation of the puzzle fails.  When
    [range.min] and [range.max] are [undefined] the arithmetic on them gives
    [NaN] ([None] below); [Math.random] is called all the same. *)
Definition generatePuzzleAttempt (fuel : nat) (difficulty : string)
  : Rand (option puzzleData) :=
  let* solution := generateSolution rand fuel 10 in
  let puzzle := copyGrid solution in
  let range := clueRange difficulty in
  let* r := randomBelow rand
              (match range with Some (mn, mx) => mx - mn + 1 | None => 1 end)%nat in
  let targetClues :=
    match range with Some (mn, _) => Some (r + mn)%nat | None => None end in
  let cellsToRemove :=
    match targetClues with Some t => Some (81 - t)%nat | None => None end in
  let* positions := removalQueue in
  fun k =>
    match removeCells difficulty cellsToRemove positions puzzle 0 with
    | None => None
    | Some puzzle =>
        if isValidGrid puzzle false
        then Some (Some (PuzzleData puzzle solution), k)
        else Some (None, k)
    end.

(** The loop over [attempt] in [generatePuzzle]. *)
Fixpoint generatePuzzleLoop (fuel : nat) (difficulty : string)
    (attempts : nat) : Rand (option puzzleData) :=
  match attempts with
  | O => randRet None
  | S attempts' =>
      let* r := generatePuzzleAttempt fuel difficulty in
      match r with
      | Some data => randRet (Some data)
      | None => generatePuzzleLoop fuel difficulty attempts'
      end
  end.

(** [generatePuzzle(difficulty, maxAttempts)]; [fuel] bounds the calls of
    the function to itself after the loop. *)
Fixpoint generatePuzzle (fuel : nat) (difficulty : string)
    (maxAttempts : nat) : Rand puzzleData :=
  match fuel with
  | O => outOfFuel
  | S fuel' =>
      let* r := generatePuzzleLoop fuel' difficulty maxAttempts in
      match r with
      | Some data => randRet data
      | None => generatePuzzle fuel' difficulty maxAttempts
      end
  end.

End Generate.

(** ** SudokuGenerator, the first version

    The file holds a first version of the generator after the current
    one.  Its [generateSolution] and [generatePuzzle] have no validation
    and no retries; its other functions are the same, statement for
    statement, as the current ones. *)

Module FirstVersion.

(** [generateSolution()] *)
Definition generateSolution (rand : nat -> nat) : Rand grid :=
  let* '(_, g) := fillGrid rand 82 emptyGrid in
  randRet g.

(** [generatePuzzle(difficulty)] *)
Definition generatePuzzle (rand : nat -> nat) (difficulty : string)
  : Rand puzzleData :=
  let* solution := generateSolution rand in
  let puzzle := copyGrid solution in
  let range := clueRange difficulty in
  let* r := randomBelow rand
              (match range with Some (mn, mx) => mx - mn + 1 | None => 1 end)%nat in
  let targetClues :=
    match range with Some (mn, _) => Some (r + mn)%nat | None => None end in
  let cellsToRemove :=
    match targetClues with Some t => Some (81 - t)%nat | None => None end in
  let* positions := removalQueue rand in
  fun k =>
    match removeCells difficulty cellsToRemove positions puzzle 0 with
    | None => None
    | Some puzzle => Some (PuzzleData puzzle solution, k)
    end.

End FirstVersion.

(** ** SudokuHints *)

(** The game state read by the hint search.  [official[r][c]] is only used
    as a condition, so it is a [bool]. *)
Record gameState : Type := GameState {
  statePuzzle : grid;
  userEntries : grid;
  official : list (list bool);
  stateSolution : grid
}.

(** [state.official[r][c]] *)
Definition isOfficial (st : gameState) (r c : nat) : bool :=
  match official st !! r with
  | Some row => default false (row !! c)
  | None => false
  end.

(** The object [{ row, col, number, technique, explanation }].  The
    explanation is display text assembled from the other fields and the
    grid; it plays no part in which hint is returned and is left out. *)
Record hint : Type := Hint {
  hintRow : nat;
  hintCol : nat;
  hintNumber : Z;
  technique : string
}.

(** A loop whose body either returns a value ([Some]) or goes on to the
    next iteration ([None], also the [continue] statement). *)
Fixpoint firstSome {A B} (body : A -> option B) (l : list A) : option B :=
  match l with
  | [] => None
  | x :: rest =>
      match body x with
      | Some b => Some b
      | None => firstSome body rest
      end
  end.

(** [buildCurrentGrid(state)] *)
Definition buildCurrentGrid (st : gameState) : grid :=
  map (fun row =>
         map (fun col =>
                if isOfficial st row col then get (statePuzzle st) row col
                else if negb (get (userEntries st) row col =? 0)
                     then get (userEntries st) row col
                     else 0)
           idx9)
    idx9.

(** A JS [Set] of numbers in insertion order; [candidates.delete(v)]. *)
Definition setDelete (v : Z) (candidates : list Z) : list Z :=
  filter (fun x => x ≠ v) candidates.

(** [getCandidatesForCell(grid, row, col)] *)
Definition getCandidatesForCell (g : grid) (row col : nat) : list Z :=
  let candidates := nums19 in
  let candidates :=
    foldl (fun cs c => setDelete (get g row c) cs) candidates idx9 in
  let candidates :=
    foldl (fun cs r => setDelete (get g r col) cs) candidates idx9 in
  let boxRow := boxStart row in
  let boxCol := boxStart col in
  foldl (fun cs r =>
           foldl (fun cs c => setDelete (get g r c) cs) cs (seq boxCol 3))
    candidates (seq boxRow 3).

(** [calculateCandidates(grid)] *)
Definition calculateCandidates (g : grid) : list (list (list Z)) :=
  map (fun row =>
         map (fun col =>
                if negb (get g row col =? 0) then []
                else getCandidatesForCell g row col)
           idx9)
    idx9.

(** [candidates[r][c]] *)
Definition candidatesAt (candidates : list (list (list Z))) (r c : nat)
  : list Z :=
  match candidates !! r with
  | Some row => default [] (row !! c)
  | None => []
  end.

(** [candidates[r][c].has(num)] *)
Definition has (candidates : list (list (list Z))) (r c : nat) (num : Z)
  : bool :=
  existsb (Z.eqb num) (candidatesAt candidates r c).

(** [findNakedSingle(grid, candidates, state)] *)
Definition findNakedSingle (g : grid) (candidates : list (list (list Z)))
    (st : gameState) : option hint :=
  firstSome (fun rc : nat * nat =>
      let '(row, col) := rc in
      if (get g row col =? 0)
         && (length (candidatesAt candidates row col) =? 1)%nat
      then
        let number := default 0 (head (candidatesAt candidates row col)) in
        if negb (get (stateSolution st) row col =? number) then None
        else Some (Hint row col number "Naked Single")
      else None)
    allCells.

(** The tail of a hidden-single search once the one possible cell
    [(row, col)] for [num] is known: the two [continue] tests and the
    returned hint. *)
Definition hiddenSingleAt (candidates : list (list (list Z)))
    (st : gameState) (row col : nat) (num : Z) (name : string)
  : option hint :=
  if (length (candidatesAt candidates row col) =? 1)%nat then None
  else if negb (get (stateSolution st) row col =? num) then None
  else Some (Hint row col num name).

(** [findHiddenSingleInRow(grid, candidates, state)] *)
Definition findHiddenSingleInRow (g : grid)
    (candidates : list (list (list Z))) (st : gameState) : option hint :=
  firstSome (fun row =>
    firstSome (fun num =>
      let alreadyInRow := existsb (fun c => get g row c =? num) idx9 in
      if alreadyInRow then None
      else
        let possibleCols :=
          List.filter (fun col => has candidates row col num) idx9 in
        match possibleCols with
        | [col] => hiddenSingleAt candidates st row col num
                     "Hidden Single (Row)"
        | _ => None
        end)
      nums19)
    idx9.

(** [findHiddenSingleInColumn(grid, candidates, state)] *)
Definition findHiddenSingleInColumn (g : grid)
    (candidates : list (list (list Z))) (st : gameState) : option hint :=
  firstSome (fun col =>
    firstSome (fun num =>
      let alreadyInCol := existsb (fun r => get g r col =? num) idx9 in
      if alreadyInCol then None
      else
        let possibleRows :=
          List.filter (fun row => has candidates row col num) idx9 in
        match possibleRows with
        | [row] => hiddenSingleAt candidates st row col num
                     "Hidden Single (Column)"
        | _ => None
        end)
      nums19)
    idx9.

(** [findHiddenSingleInBox(grid, candidates, state)] *)
Definition findHiddenSingleInBox (g : grid)
    (candidates : list (list (list Z))) (st : gameState) : option hint :=
  firstSome (fun boxRow =>
    firstSome (fun boxCol =>
      let startRow := (boxRow * 3)%nat in
      let startCol := (boxCol * 3)%nat in
      firstSome (fun num =>
        let alreadyInBox :=
          existsb (fun rc : nat * nat => get g rc.1 rc.2 =? num)
            (boxCells startRow startCol) in
        if alreadyInBox then None
        else
          let possibleCells :=
            List.filter (fun rc : nat * nat => has candidates rc.1 rc.2 num)
              (boxCells startRow startCol) in
          match possibleCells with
          | [(row, col)] => hiddenSingleAt candidates st row col num
                              "Hidden Single (Box)"
          | _ => None
          end)
        nums19)
      (seq 0 3))
    (seq 0 3).

(** [findFallbackHint(state)] *)
Definition findFallbackHint (st : gameState) : option hint :=
  firstSome (fun rc : nat * nat =>
      let '(row, col) := rc in
      if negb (isOfficial st row col) && (get (userEntries st) row col =? 0)
      then
        let number := get (stateSolution st) row col in
        Some (Hint row col number "Process of Elimination")
      else None)
    allCells.

(** [findHint(state)] *)
Definition findHint (st : gameState) : option hint :=
  let g := buildCurrentGrid st in
  let candidates := calculateCandidates g in
  match findNakedSingle g candidates st with
  | Some h => Some h
  | None =>
      match findHiddenSingleInRow g candidates st with
      | Some h => Some h
      | None =>
          match findHiddenSingleInColumn g candidates st with
          | Some h => Some h
          | None =>
              match findHiddenSingleInBox g candidates st with
              | Some h => Some h
              | None => findFallbackHint st
              end
          end
      end
  end.

(** [set.add(v)] on a JS [Set] of numbers in insertion order. *)
Definition setAdd (v : Z) (s : list Z) : list Z :=
  if existsb (Z.eqb v) s then s else s ++ [v].

(** The object [{ byRow, byCol, byBox }]. *)
Record eliminationDetails : Type := EliminationDetails {
  byRow : list Z;
  byCol : list Z;
  byBox : list Z
}.

(** [getEliminationDetails(grid, row, col)] *)
Definition getEliminationDetails (g : grid) (row col : nat)
  : eliminationDetails :=
  let byRow :=
    foldl (fun s c =>
             if negb (get g row c =? 0) then setAdd (get g row c) s else s)
      [] idx9 in
  let byCol :=
    foldl (fun s r =>
             if negb (get g r col =? 0) then setAdd (get g r col) s else s)
      [] idx9 in
  let boxRow := boxStart row in
  let boxCol := boxStart col in
  let byBox :=
    foldl (fun s r =>
             foldl (fun s c =>
                      if negb (get g r c =? 0) then setAdd (get g r c) s
                      else s)
               s (seq boxCol 3))
      [] (seq boxRow 3) in
  EliminationDetails byRow byCol byBox.

(** ** SudokuHistory *)

(** [array.pop()]: the last element ([undefined] on an empty array) and
    the array that is left. *)
Definition pop {A} (a : list A) : option A * list A :=
  (last a, removelast a).

(** The object [{ userEntries, candidates }] that the game hands to the
    history.  A cell of [candidates] is a JS [Set], as the list of its
    elements in insertion order, or a falsy value ([None]). *)
Record savedState : Type := SavedState {
  savedEntries : grid;
  savedCandidates : list (list (option (list Z)))
}.

(** The fields of the object [SudokuHistory].  The callback is given the
    two stacks, which is what it can read of the history when it is
    called, and acts on the rest of the page, of type [W]. *)
Record history (W : Type) : Type := History {
  undoStack : list savedState;
  redoStack : list savedState;
  onStateChange : list savedState -> list savedState -> W -> W;
  maxHistory : nat
}.

Arguments History {W} _ _ _ _.
Arguments undoStack {W} _.
Arguments redoStack {W} _.
Arguments onStateChange {W} _ _ _ _.
Arguments maxHistory {W} _.

Module SudokuHistory.

(** [this.onStateChange()] *)
Definition changed {W} (h : history W) (w : W) : W :=
  onStateChange h (undoStack h) (redoStack h) w.

(** [init(onStateChange)] *)
Definition init {W}
    (onStateChange : list savedState -> list savedState -> W -> W)
  : history W :=
  History [] [] onStateChange 100.

(** [cloneState(state)] *)
Definition cloneState (state : savedState) : savedState :=
  SavedState
    (map (fun row => row) (savedEntries state))
    (map (fun row =>
            map (fun cell : option (list Z) =>
                   match cell with
                   | Some s => Some s
                   | None => Some []
                   end)
              row)
       (savedCandidates state)).

(** [saveState(state)] *)
Definition saveState {W} (state : savedState) (h : history W) (w : W)
  : history W * W :=
  let stateCopy := cloneState state in
  let undoStack' := undoStack h ++ [stateCopy] in
  let redoStack' := [] in
  let undoStack' :=
    if (maxHistory h <? length undoStack')%nat then tail undoStack'
    else undoStack' in
  let h' := History undoStack' redoStack' (onStateChange h) (maxHistory h) in
  (h', changed h' w).

(** [undo(currentState)] *)
Definition undo {W} (currentState : savedState) (h : history W) (w : W)
  : option savedState * history W * W :=
  if (length (undoStack h) =? 0)%nat then (None, h, w)
  else
    let currentCopy := cloneState currentState in
    let redoStack' := redoStack h ++ [currentCopy] in
    let '(previousState, undoStack') := pop (undoStack h) in
    let h' :=
      History undoStack' redoStack' (onStateChange h) (maxHistory h) in
    (previousState, h', changed h' w).

(** [redo(currentState)] *)
Definition redo {W} (currentState : savedState) (h : history W) (w : W)
  : option savedState * history W * W :=
  if (length (redoStack h) =? 0)%nat then (None, h, w)
  else
    let currentCopy := cloneState currentState in
    let undoStack' := undoStack h ++ [currentCopy] in
    let '(nextState, redoStack') := pop (redoStack h) in
    let h' :=
      History undoStack' redoStack' (onStateChange h) (maxHistory h) in
    (nextState, h', changed h' w).

(** [canUndo()] *)
Definition canUndo {W} (h : history W) : bool :=
  (0 <? length (undoStack h))%nat.

(** [canRedo()] *)
Definition canRedo {W} (h : history W) : bool :=
  (0 <? length (redoStack h))%nat.

(** [clear()] *)
Definition clear {W} (h : history W) (w : W) : history W * W :=
  let h' := History [] [] (onStateChange h) (maxHistory h) in
  (h', changed h' w).

(** [getUndoCount()] *)
Definition getUndoCount {W} (h : history W) : nat := length (undoStack h).

(** [getRedoCount()] *)
Definition getRedoCount {W} (h : history W) : nat := length (redoStack h).

End SudokuHistory.

(** ** SudokuGame: the state of the game, its checks and the input

    The definitions follow the current version of the object (the one
    with lives and settings).  What the functions do to the page (drawing,
    flashing a cell, the timer, the dialogs) is not part of the state and
    is left out. *)

(** The object [this.state] of the game: the four tables that the hint
    search reads, and the other fields. *)
Record game : Type := Game {
  core : gameState;
  candidates : list (list (list Z));
  conflicts : list (list bool);
  highlightedNumber : Z;
  difficulty : string;
  isComplete : bool;
  lives : Z;
  isGameOver : bool
}.

(** [this.settings] *)
Record settings : Type := Settings {
  timerEnabled : bool;
  livesEnabled : bool;
  instantCheckEnabled : bool;
  zenMode : bool
}.

Module SudokuGame.

Definition MAX_LIVES : Z := 3.

(** [this.state] as [init()] sets it. *)
Definition initialState : game :=
  Game (GameState [] [] [] []) [] [] 0 "easy" false MAX_LIVES false.

(** [conflicts[r][c]] *)
Definition conflictAt (conflicts : list (list bool)) (r c : nat) : bool :=
  match conflicts !! r with
  | Some row => default false (row !! c)
  | None => false
  end.

(** [conflicts[r][c] = true] *)
Definition setConflict (conflicts : list (list bool)) (r c : nat)
  : list (list bool) :=
  alter (fun row => <[c := true]> row) r conflicts.

(** [candidates[r][c].clear()] *)
Definition clearCandidates (candidates : list (list (list Z))) (r c : nat)
  : list (list (list Z)) :=
  alter (fun row => <[c := []]> row) r candidates.

(** The assignments to [this.state] in [startNewGame(difficulty)], for the
    [puzzleData] that it has obtained. *)
Definition startNewGame (difficulty : string) (puzzleData : puzzleData)
    (g : game) : game :=
  Game
    (GameState
       (copyGrid (puzzle puzzleData))
       (replicate 9 (replicate 9 0))
       (map (fun row => map (fun cell => negb (cell =? 0)) row)
          (puzzle puzzleData))
       (copyGrid (solution puzzleData)))
    (replicate 9 (replicate 9 []))
    (replicate 9 (replicate 9 false))
    (highlightedNumber g)
    difficulty
    false
    MAX_LIVES
    false.

(** [getValue(row, col)] *)
Definition getValue (g : game) (row col : nat) : Z :=
  if isOfficial (core g) row col then get (statePuzzle (core g)) row col
  else get (userEntries (core g)) row col.

(** The body of the loops of [updateConflicts] for the cell
    [(row, col)]. *)
Definition conflictsOfCell (g : game) (conflicts : list (list bool))
    (row col : nat) : list (list bool) :=
  let value := getValue g row col in
  if value =? 0 then conflicts
  else
    let conflicts :=
      foldl (fun conflicts c =>
               if negb (c =? col)%nat && (getValue g row c =? value)
               then setConflict (setConflict conflicts row col) row c
               else conflicts)
        conflicts idx9 in
    let conflicts :=
      foldl (fun conflicts r =>
               if negb (r =? row)%nat && (getValue g r col =? value)
               then setConflict (setConflict conflicts row col) r col
               else conflicts)
        conflicts idx9 in
    let boxRow := boxStart row in
    let boxCol := boxStart col in
    foldl (fun conflicts r =>
             foldl (fun conflicts c =>
                      if (negb (r =? row)%nat || negb (c =? col)%nat)
                         && (getValue g r c =? value)
                      then setConflict (setConflict conflicts row col) r c
                      else conflicts)
               conflicts (seq boxCol 3))
      conflicts (seq boxRow 3).

(** [updateConflicts()] *)
Definition updateConflicts (g : game) : game :=
  let conflicts := replicate 9 (replicate 9 false) in
  let conflicts :=
    foldl (fun conflicts rc => conflictsOfCell g conflicts rc.1 rc.2)
      conflicts allCells in
  Game (core g) (candidates g) conflicts (highlightedNumber g)
    (difficulty g) (isComplete g) (lives g) (isGameOver g).

(** [checkCompletion()]: the state after it; stopping the timer and
    showing the win dialog, which go with [isComplete = true], are not
    part of the state. *)
Definition checkCompletion (g : game) : game :=
  if existsb (fun rc : nat * nat => getValue g rc.1 rc.2 =? 0) allCells
  then g
  else if existsb (fun rc : nat * nat => conflictAt (conflicts g) rc.1 rc.2)
            allCells
  then g
  else
    Game (core g) (candidates g) (conflicts g) (highlightedNumber g)
      (difficulty g) true (lives g) (isGameOver g).

(** [solvePuzzle()]: the state after it. *)
Definition solvePuzzle (g : game) : game :=
  let '(entries, cands) :=
    foldl (fun (ec : grid * list (list (list Z))) (rc : nat * nat) =>
             let '(row, col) := rc in
             if negb (isOfficial (core g) row col)
             then (set ec.1 row col (get (stateSolution (core g)) row col),
                   clearCandidates ec.2 row col)
             else ec)
      (userEntries (core g), candidates g) allCells in
  updateConflicts
    (Game
       (GameState (statePuzzle (core g)) entries (official (core g))
          (stateSolution (core g)))
       cands (conflicts g) (highlightedNumber g) (difficulty g)
       (isComplete g) (lives g) (isGameOver g)).

(** The object [{ userEntries: this.state.userEntries, candidates:
    this.state.candidates }] that the game hands to the history: every
    cell of the candidates of the game is a [Set]. *)
Definition historyArgument (g : game) : savedState :=
  SavedState (userEntries (core g))
    (map (fun row => map Some row) (candidates g)).

(** [this.state.userEntries = saved.userEntries;
    this.state.candidates = saved.candidates], for a state that the
    history gives back. *)
Definition restore (g : game) (saved : savedState) : game :=
  Game
    (GameState (statePuzzle (core g)) (savedEntries saved)
       (official (core g)) (stateSolution (core g)))
    (map (fun row => map (fun cell => default [] cell) row)
       (savedCandidates saved))
    (conflicts g) (highlightedNumber g) (difficulty g) (isComplete g)
    (lives g) (isGameOver g).

(** [loseLife(row, col)]: the state after it. *)
Definition loseLife (g : game) : game :=
  let lives' := lives g - 1 in
  Game (core g) (candidates g) (conflicts g) (highlightedNumber g)
    (difficulty g) (isComplete g) lives'
    (if lives' <=? 0 then true else isGameOver g).

(** [toggleCandidate(row, col, number)] *)
Definition toggleCandidate (row col : nat) (number : Z) (g : game) : game :=
  let cell := candidatesAt (candidates g) row col in
  let cell' :=
    if existsb (Z.eqb number) cell then setDelete number cell
    else setAdd number cell in
  Game (core g)
    (alter (fun r => <[col := cell']> r) row (candidates g))
    (conflicts g) (highlightedNumber g) (difficulty g) (isComplete g)
    (lives g) (isGameOver g).

(** [this.state.userEntries[row][col] = number] *)
Definition enter (row col : nat) (number : Z) (g : game) : game :=
  Game
    (GameState (statePuzzle (core g))
       (set (userEntries (core g)) row col number)
       (official (core g)) (stateSolution (core g)))
    (candidates g) (conflicts g) (highlightedNumber g) (difficulty g)
    (isComplete g) (lives g) (isGameOver g).

(** [this.state.candidates[row][col].clear()] *)
Definition clearCell (row col : nat) (g : game) : game :=
  Game (core g) (clearCandidates (candidates g) row col) (conflicts g)
    (highlightedNumber g) (difficulty g) (isComplete g) (lives g)
    (isGameOver g).

(** [handleNumberInput(row, col, number)]: the state of the game, the
    history and the page after it.  [candidateMode] is what
    [SudokuInput.isCandidateMode()] returns. *)
Definition handleNumberInput {W} (s : settings) (candidateMode : bool)
    (row col : nat) (number : Z) (g : game) (h : history W) (w : W)
  : game * history W * W :=
  if isGameOver g then (g, h, w)
  else if isOfficial (core g) row col then (g, h, w)
  else
    let '(h, w) := SudokuHistory.saveState (historyArgument g) h w in
    let g :=
      if candidateMode && (0 <? number)
      then toggleCandidate row col number g
      else if number =? 0 then enter row col 0 g
      else
        let g :=
          if instantCheckEnabled s
             && negb (number =? get (stateSolution (core g)) row col)
          then if livesEnabled s then loseLife g else g
          else g in
        clearCell row col (enter row col number g) in
    let g := updateConflicts g in
    let g := checkCompletion g in
    (g, h, w).

(** [undo()] of the game. *)
Definition undo {W} (g : game) (h : history W) (w : W)
  : game * history W * W :=
  let '(previousState, h, w) :=
    SudokuHistory.undo (historyArgument g) h w in
  match previousState with
  | Some previousState => (updateConflicts (restore g previousState), h, w)
  | None => (g, h, w)
  end.

(** [redo()] of the game. *)
Definition redo {W} (g : game) (h : history W) (w : W)
  : game * history W * W :=
  let '(nextState, h, w) := SudokuHistory.redo (historyArgument g) h w in
  match nextState with
  | Some nextState => (updateConflicts (restore g nextState), h, w)
  | None => (g, h, w)
  end.

End SudokuGame.

Import SudokuGame.

(** ** The rules of the game, stated apart from the code *)

(** A 9x9 grid: nine rows of nine cells. *)
Definition wfGrid (g : grid) : Prop :=
  length g = 9%nat ∧ Forall (fun row => length row = 9%nat) g.

(** Two cells see each other when they share a row, a column or a box. *)
Definition peer (r c r' c' : nat) : Prop :=
  r = r' ∨ c = c' ∨ (r / 3 = r' / 3 ∧ c / 3 = c' / 3)%nat.

(** No filled cell has its value repeated in a cell that sees it. *)
Definition noClash (g : grid) : Prop :=
  ∀ r c r' c', (r < 9)%nat → (c < 9)%nat → (r' < 9)%nat → (c' < 9)%nat →
    (r, c) ≠ (r', c') → peer r c r' c' →
    get g r c ≠ 0 → get g r c ≠ get g r' c'.

(** A legal position: 9x9, every cell in 0..9, no clash. *)
Definition Consistent (g : grid) : Prop :=
  wfGrid g ∧
  (∀ r c, (r < 9)%nat → (c < 9)%nat → 0 ≤ get g r c ≤ 9) ∧
  noClash g.

(** No empty cell. *)
Definition Complete (g : grid) : Prop :=
  ∀ r c, (r < 9)%nat → (c < 9)%nat → get g r c ≠ 0.

(** A complete valid grid. *)
Definition ValidSolution (s : grid) : Prop := Consistent s ∧ Complete s.

(** [s] is a valid completion of [g]: a complete valid grid that agrees
    with every non-zero cell of [g]. *)
Definition Completion (g s : grid) : Prop :=
  ValidSolution s ∧
  ∀ r c, (r < 9)%nat → (c < 9)%nat → get g r c ≠ 0 → get s r c = get g r c.

(** The number of empty cells, the measure of the backtracking search. *)
Definition emptyCount (g : grid) : nat :=
  length (List.filter (fun rc : nat * nat => get g rc.1 rc.2 =? 0) allCells).

(** The exhaustive search that [solveGrid], [countSolutions] and [fillGrid]
    walk in part: all the full grids reached by filling the first empty
    cell with each placeable number in ascending order.  This is a
    specification device, it is not in the source. *)
Fixpoint completions (fuel : nat) (g : grid) : list grid :=
  match fuel with
  | O => []
  | S fuel' =>
      match findEmptyCell g with
      | None => [g]
      | Some (row, col) =>
          num ← nums19;
          if isValidPlacement g row col num
          then completions fuel' (set g row col num)
          else []
      end
  end.

(** A game state whose four tables are 9x9. *)
Definition wfState (st : gameState) : Prop :=
  wfGrid (statePuzzle st) ∧ wfGrid (userEntries st) ∧
  wfGrid (stateSolution st) ∧
  length (official st) = 9%nat ∧
  Forall (fun row => length row = 9%nat) (official st).

(** The cells the player still has to fill. *)
Definition openCell (st : gameState) (r c : nat) : Prop :=
  isOfficial st r c = false ∧ get (userEntries st) r c = 0.

(** ** Notions used in the statements and proofs *)

(** The result of [solveGrid] in terms of the list of full grids that the
    exhaustive search reaches from its argument. *)
Definition firstOf (sols : list grid) (g : grid) : bool * grid :=
  match sols with
  | [] => (false, g)
  | s :: _ => (true, s)
  end.

(** What the exhaustive search does in the loop over the numbers. *)
Definition branches (sub : grid → list grid) (g : grid) (row col : nat)
    (nums : list Z) : list grid :=
  num ← nums;
  if isValidPlacement g row col num then sub (set g row col num) else [].

(** What the validators establish for a region: every cell in 0..9 and no
    filled cell repeated. *)
Definition validRegion (g : grid) (cells : list (nat * nat)) : Prop :=
  (∀ p, p ∈ cells → 0 ≤ get g p.1 p.2 ≤ 9) ∧
  (∀ p q, p ∈ cells → q ∈ cells → p ≠ q →
          get g p.1 p.2 ≠ 0 → get g p.1 p.2 ≠ get g q.1 q.2).

(** Every non-zero cell of [p] is the cell of [s]. *)
Definition cluesOf (p s : grid) : Prop :=
  ∀ r c, get p r c ≠ 0 → get p r c = get s r c.

(** Element [i] of box [b], as the inner loop of the interleaving reads
    it. *)
Definition boxCell {A} (h : store A) (b i : nat) : list A :=
  match default [] (h !! b) !! i with
  | Some p => [p]
  | None => []
  end.

(** A hint that carries the solution's number for its cell. *)
Definition agreesWithSolution (st : gameState) (h : hint) : Prop :=
  hintNumber h = get (stateSolution st) (hintRow h) (hintCol h).

(** What a call of [fillGrid] (or of its recursive calls) on [g] does with
    respect to the list [sols] of full grids reachable from [g]: it succeeds
    with one of them, or it fails, restores [g], and there is none. *)
Definition fillOutcome (sols : list grid) (g : grid) (r : bool * grid)
  : Prop :=
  (r.1 = true → r.2 ∈ sols) ∧ (r.1 = false → r.2 = g ∧ sols = []).

(** The number of filled cells of a grid. *)
Definition clueCount (g : grid) : nat :=
  length (List.filter (fun rc : nat * nat => negb (get g rc.1 rc.2 =? 0))
            allCells).

(** The number of filled cells in box [b] (0..8, row-major). *)
Definition boxClues (g : grid) (b : nat) : nat :=
  length (List.filter (fun rc : nat * nat => negb (get g rc.1 rc.2 =? 0))
            (boxCells (b / 3 * 3) (b mod 3 * 3))).

(** The number of empty cells in box [b]. *)
Definition boxEmpties (g : grid) (b : nat) : nat :=
  length (List.filter (fun rc : nat * nat => get g rc.1 rc.2 =? 0)
            (boxCells (b / 3 * 3) (b mod 3 * 3))).

(** How many of the positions [l] lie in box [b]. *)
Definition inBoxCount (b : nat) (l : list (nat * nat)) : nat :=
  length (List.filter (fun rc => boxIndexOf rc =? b)%nat l).

(** A call of one of the methods of the history that change it. *)
Inductive historyCall : Type :=
  | CallSaveState (state : savedState)
  | CallUndo (currentState : savedState)
  | CallRedo (currentState : savedState)
  | CallClear.

(** The history and the page after a call. *)
Definition afterCall {W} (hw : history W * W) (call : historyCall)
  : history W * W :=
  match call with
  | CallSaveState state => SudokuHistory.saveState state hw.1 hw.2
  | CallUndo currentState =>
      let '(_, h, w) := SudokuHistory.undo currentState hw.1 hw.2 in (h, w)
  | CallRedo currentState =>
      let '(_, h, w) := SudokuHistory.redo currentState hw.1 hw.2 in (h, w)
  | CallClear => SudokuHistory.clear hw.1 hw.2
  end.

(** The history and the page after [init] and a sequence of calls. *)
Definition afterCalls {W}
    (onStateChange : list savedState → list savedState → W → W) (w : W)
    (calls : list historyCall) : history W * W :=
  foldl afterCall (SudokuHistory.init onStateChange, w) calls.

(** Every state on the two stacks is a copy made by [cloneState]. *)
Definition allCopies {W} (h : history W) : Prop :=
  Forall (fun s => SudokuHistory.cloneState s = s)
    (undoStack h ++ redoStack h).

(** A 9x9 table of flags. *)
Definition wfFlags (conflicts : list (list bool)) : Prop :=
  length conflicts = 9%nat ∧
  Forall (fun row => length row = 9%nat) conflicts.

(** The game [g] with the table [entries] for the numbers that the player
    has entered. *)
Definition withEntries (g : game) (entries : grid) : game :=
  Game
    (GameState (statePuzzle (core g)) entries (official (core g))
       (stateSolution (core g)))
    (candidates g) (conflicts g) (highlightedNumber g) (difficulty g)
    (isComplete g) (lives g) (isGameOver g).

(** Another cell that sees [(r, c)] and shows the same number. *)
Definition duplicateOf (g : game) (r c r' c' : nat) : Prop :=
  (r' < 9)%nat ∧ (c' < 9)%nat ∧ (r', c') ≠ (r, c) ∧ peer r c r' c' ∧
  getValue g r' c' = getValue g r c.

(** An action of the player that changes the state of the game. *)
Inductive gameCall : Type :=
  | CallInput (s : settings) (candidateMode : bool) (row col : nat)
      (number : Z)
  | CallGameUndo
  | CallGameRedo
  | CallSolve.

(** The game, the history and the page after an action. *)
Definition afterGameCall {W} (ghw : game * history W * W) (call : gameCall)
  : game * history W * W :=
  let '(g, h, w) := ghw in
  match call with
  | CallInput s candidateMode row col number =>
      handleNumberInput s candidateMode row col number g h w
  | CallGameUndo => undo g h w
  | CallGameRedo => redo g h w
  | CallSolve => (solvePuzzle g, h, w)
  end.

(** ** Sample inputs *)

(** The grid that solves the empty grid first, and a second one. *)
Definition firstSolution : grid :=
  [[1; 2; 3; 4; 5; 6; 7; 8; 9]; [4; 5; 6; 7; 8; 9; 1; 2; 3];
   [7; 8; 9; 1; 2; 3; 4; 5; 6]; [2; 1; 4; 3; 6; 5; 8; 9; 7];
   [3; 6; 5; 8; 9; 7; 2; 1; 4]; [8; 9; 7; 2; 1; 4; 3; 6; 5];
   [5; 3; 1; 6; 4; 2; 9; 7; 8]; [6; 4; 2; 9; 7; 8; 5; 3; 1];
   [9; 7; 8; 5; 3; 1; 6; 4; 2]].

(** A grid whose givens clash: the first solution with the last cell
    emptied and a second 2 written in the first row. *)
Definition clashGrid : grid := set (set firstSolution 8 8 0) 0 0 2.

(** The oracle that answers 0 to every draw. *)
Definition zeroRandom : nat → nat := fun _ => 0%nat.

(** A state of a game in progress: the first solution with its first cell
    removed as the puzzle, every given official, no entry made. *)
Definition oneCellLeft : gameState :=
  GameState (set firstSolution 0 0 0) emptyGrid
    (map (map (fun v => negb (v =? 0))) (set firstSolution 0 0 0))
    firstSolution.

(** A game in which no cell has a single candidate, while 6 has a single
    place in row 2. *)
Definition hiddenSingleGame : gameState :=
  let p : grid :=
    [[0; 0; 3; 4; 0; 6; 7; 8; 0]; [4; 5; 6; 0; 0; 9; 1; 2; 3];
     [7; 0; 0; 1; 0; 3; 4; 0; 0]; [2; 0; 4; 3; 6; 0; 0; 0; 7];
     [3; 6; 5; 0; 9; 0; 2; 1; 4]; [0; 9; 7; 2; 0; 4; 3; 6; 0];
     [5; 3; 1; 0; 4; 2; 9; 7; 0]; [6; 4; 2; 9; 0; 0; 0; 3; 1];
     [0; 7; 0; 5; 3; 1; 0; 4; 2]] in
  GameState p emptyGrid (map (map (fun v => negb (v =? 0))) p) firstSolution.

(** A state to save: the entries given, and no candidates in any cell. *)
Definition plainState (entries : grid) : savedState :=
  SavedState entries (replicate 9 (replicate 9 (Some []))).

(** A page on which the callback of the history has no effect. *)
Definition noPage : list savedState → list savedState → unit → unit :=
  fun _ _ w => w.

(** ** Tactics *)

(** Case analysis on an index known to be below 9: [tac] closes each of the
    nine cases, [lia] the tenth. *)
Ltac each_below_9 i tac :=
  do 9 (destruct i as [|i]; [tac|]); try lia.

(** The same for a cell [(r, c)] of the 9x9 grid. *)
Ltac each_cell r c tac :=
  each_below_9 r ltac:(each_below_9 c tac).

(** * Properties *)

(** ** Reading and writing cells *)

Lemma elem_of_idx9 (i : nat) : i ∈ idx9 ↔ (i < 9)%nat.
Proof. unfold idx9. rewrite elem_of_seq. lia. Qed.

Lemma elem_of_allCells (r c : nat) :
  (r, c) ∈ allCells ↔ (r < 9)%nat ∧ (c < 9)%nat.
Proof.
  unfold allCells. rewrite list_elem_of_bind. split.
  - intros (r' & Hc & Hr). apply list_elem_of_bind in Hc as (c' & Hc & Hc').
    apply list_elem_of_singleton in Hc. inversion Hc; subst.
    by rewrite <- !elem_of_idx9.
  - intros [Hr Hc]. exists r. rewrite elem_of_idx9. split; [|done].
    apply list_elem_of_bind. exists c. rewrite elem_of_idx9.
    split; [|done]. by apply list_elem_of_singleton.
Qed.

Lemma wfGrid_row (g : grid) (r : nat) :
  wfGrid g → (r < 9)%nat → ∃ row, g !! r = Some row ∧ length row = 9%nat.
Proof.
  intros [Hlen Hrows] Hr.
  destruct (lookup_lt_is_Some_2 g r) as [row Hrow]; [lia|].
  exists row. split; [done|].
  by apply (Forall_lookup_1 _ _ _ _ Hrows Hrow).
Qed.

Lemma wfGrid_set (g : grid) (r c : nat) (v : Z) :
  wfGrid g → wfGrid (set g r c v).
Proof.
  intros [Hlen Hrows]. split.
  - unfold set. by rewrite length_alter.
  - unfold set. apply Forall_alter; [done|].
    intros row _ Hrow. by rewrite length_insert.
Qed.

Lemma get_set_eq (g : grid) (r c : nat) (v : Z) :
  wfGrid g → (r < 9)%nat → (c < 9)%nat → get (set g r c v) r c = v.
Proof.
  intros Hwf Hr Hc. destruct (wfGrid_row g r Hwf Hr) as (row & Hrow & Hlen).
  unfold get, set. rewrite list_lookup_alter_eq, Hrow. simpl.
  rewrite list_lookup_insert_eq by lia. done.
Qed.

Lemma get_set_ne (g : grid) (r c r' c' : nat) (v : Z) :
  (r, c) ≠ (r', c') → get (set g r c v) r' c' = get g r' c'.
Proof.
  intros Hne. unfold get, set. destruct (decide (r = r')) as [->|Hr].
  - rewrite list_lookup_alter_eq. destruct (g !! r') as [row|]; simpl; [|done].
    rewrite list_lookup_insert_ne; [done|]. congruence.
  - by rewrite list_lookup_alter_ne.
Qed.

Lemma set_set (g : grid) (r c : nat) (v w : Z) :
  set (set g r c v) r c w = set g r c w.
Proof.
  unfold set. rewrite list_alter_alter_eq. apply list_alter_ext; [|done].
  intros row _. simpl. apply list_insert_insert_eq.
Qed.

Lemma set_get (g : grid) (r c : nat) : set g r c (get g r c) = g.
Proof.
  unfold set, get. apply list_eq. intros i.
  destruct (decide (r = i)) as [->|Hne].
  - rewrite list_lookup_alter_eq. destruct (g !! i) as [row|]; simpl; [|done].
    f_equal. destruct (row !! c) as [x|] eqn:Hx; simpl.
    + by apply list_insert_id.
    + apply list_insert_ge. by apply lookup_ge_None.
  - by rewrite list_lookup_alter_ne.
Qed.

(** Undoing a placement at a cell that was empty gives the grid back. *)
Lemma set_undo (g : grid) (r c : nat) (v : Z) :
  get g r c = 0 → set (set g r c v) r c 0 = g.
Proof. intros H0. rewrite set_set, <- H0. apply set_get. Qed.

Lemma copyGrid_id (g : grid) : copyGrid g = g.
Proof. unfold copyGrid. apply map_id. Qed.

(** Two 9x9 grids with the same cells are the same grid. *)
Lemma grid_ext (g g' : grid) :
  wfGrid g → wfGrid g' →
  (∀ r c, (r < 9)%nat → (c < 9)%nat → get g r c = get g' r c) → g = g'.
Proof.
  intros Hwf Hwf' Hcells. apply list_eq. intros r.
  destruct (decide (r < 9)%nat) as [Hr|Hr].
  - destruct (wfGrid_row g r Hwf Hr) as (row & Hrow & Hlen).
    destruct (wfGrid_row g' r Hwf' Hr) as (row' & Hrow' & Hlen').
    rewrite Hrow, Hrow'. f_equal. apply list_eq. intros c.
    destruct (decide (c < 9)%nat) as [Hc|Hc].
    + specialize (Hcells r c Hr Hc). unfold get in Hcells.
      rewrite Hrow, Hrow' in Hcells.
      destruct (lookup_lt_is_Some_2 row c) as [x Hx]; [lia|].
      destruct (lookup_lt_is_Some_2 row' c) as [x' Hx']; [lia|].
      rewrite Hx, Hx' in *. simpl in Hcells. by subst.
    + rewrite !lookup_ge_None_2 by lia. done.
  - destruct Hwf as [Hl _], Hwf' as [Hl' _].
    rewrite !lookup_ge_None_2 by lia. done.
Qed.

(** ** findEmptyCell *)

Lemma findEmptyCell_Some (g : grid) (row col : nat) :
  findEmptyCell g = Some (row, col) →
  (row < 9)%nat ∧ (col < 9)%nat ∧ get g row col = 0.
Proof.
  unfold findEmptyCell. intros Hfind. apply find_some in Hfind as [Hin H0].
  apply list_elem_of_In, elem_of_allCells in Hin as [Hr Hc].
  simpl in H0. apply Z.eqb_eq in H0. done.
Qed.

Lemma findEmptyCell_None (g : grid) :
  findEmptyCell g = None ↔ Complete g.
Proof.
  unfold findEmptyCell, Complete. split.
  - intros Hfind r c Hr Hc H0.
    pose proof (find_none _ _ Hfind (r, c)) as Hn. simpl in Hn.
    rewrite H0 in Hn. simpl in Hn.
    assert (In (r, c) allCells) as Hin
      by (apply list_elem_of_In, elem_of_allCells; done).
    specialize (Hn Hin). done.
  - intros Hfull. destruct (find _ _) as [[r c]|] eqn:Hfind; [|done].
    apply find_some in Hfind as [Hin H0].
    apply list_elem_of_In, elem_of_allCells in Hin as [Hr Hc].
    simpl in H0. apply Z.eqb_eq in H0. by destruct (Hfull r c Hr Hc).
Qed.

(** ** isValidPlacement *)

Lemma existsb_idx9 (f : nat → bool) :
  existsb f idx9 = true ↔ ∃ i, (i < 9)%nat ∧ f i = true.
Proof.
  rewrite existsb_exists. split; intros (i & Hi & Hf); exists i.
  - by apply list_elem_of_In, elem_of_idx9 in Hi.
  - split; [|done]. by apply list_elem_of_In, elem_of_idx9.
Qed.

Lemma in_box_iff (i j : nat) :
  (boxStart i ≤ j < boxStart i + 3)%nat ↔ (j / 3 = i / 3)%nat.
Proof.
  unfold boxStart.
  pose proof (Nat.div_mod_eq j 3). pose proof (Nat.mod_upper_bound j 3).
  split; intros; [nia|lia].
Qed.

Lemma existsb_box (f : nat → bool) (i : nat) :
  existsb f (seq (boxStart i) 3) = true ↔
  ∃ j, (j / 3 = i / 3)%nat ∧ f j = true.
Proof.
  rewrite existsb_exists. split; intros (j & Hj & Hf); exists j.
  - split; [|done]. apply in_box_iff. apply in_seq in Hj. lia.
  - split; [|done]. apply in_seq. apply in_box_iff in Hj. lia.
Qed.

Lemma box_lt_9 (i j : nat) : (i < 9)%nat → (j / 3 = i / 3)%nat → (j < 9)%nat.
Proof.
  intros Hi Hj.
  pose proof (Nat.div_mod_eq j 3). pose proof (Nat.mod_upper_bound j 3).
  pose proof (Nat.div_mod_eq i 3). pose proof (Nat.mod_upper_bound i 3).
  lia.
Qed.

Lemma row_includes (g : grid) (row : nat) (num : Z) :
  wfGrid g → (row < 9)%nat →
  existsb (Z.eqb num) (default [] (g !! row)) = true ↔
  ∃ c, (c < 9)%nat ∧ get g row c = num.
Proof.
  intros Hwf Hr. destruct (wfGrid_row g row Hwf Hr) as (cells & Hrow & Hlen).
  unfold get. rewrite Hrow. simpl. rewrite existsb_exists. split.
  - intros (x & Hin & Heq). apply Z.eqb_eq in Heq. subst x.
    apply list_elem_of_In, list_elem_of_lookup in Hin as [c Hc].
    exists c. split; [apply lookup_lt_Some in Hc; lia|].
    by rewrite Hc.
  - intros (c & Hc & Hget).
    destruct (lookup_lt_is_Some_2 cells c) as [x Hx]; [lia|].
    rewrite Hx in Hget. simpl in Hget. subst x. exists num. split.
    + apply list_elem_of_In, list_elem_of_lookup. by exists c.
    + apply Z.eqb_refl.
Qed.

(** A placement is accepted exactly when no cell seen from [(row, col)],
    the cell itself included, holds the number. *)
Lemma isValidPlacement_spec (g : grid) (row col : nat) (num : Z) :
  wfGrid g → (row < 9)%nat → (col < 9)%nat →
  isValidPlacement g row col num = true ↔
  ∀ r' c', (r' < 9)%nat → (c' < 9)%nat → peer row col r' c' →
           get g r' c' ≠ num.
Proof.
  intros Hwf Hr Hc. unfold isValidPlacement.
  destruct (existsb (Z.eqb num) _) eqn:Hrow.
  { apply row_includes in Hrow as (c & Hc' & Hget); [|done..].
    split; [done|]. intros Hall. destruct (Hall row c Hr Hc'); [|done].
    by left. }
  destruct (existsb _ idx9) eqn:Hcol.
  { apply existsb_idx9 in Hcol as (r & Hr' & Hget). apply Z.eqb_eq in Hget.
    split; [done|]. intros Hall. destruct (Hall r col Hr' Hc); [|done].
    right. by left. }
  cbv zeta. destruct (existsb _ (seq (boxStart row) 3)) eqn:Hbox.
  { apply existsb_box in Hbox as (r & Hrb & Hbox).
    apply existsb_box in Hbox as (c & Hcb & Hget). apply Z.eqb_eq in Hget.
    split; [done|]. intros Hall.
    destruct (Hall r c); [by apply (box_lt_9 row)|by apply (box_lt_9 col)| |done].
    right. right. done. }
  split; [|done]. intros _ r' c' Hr' Hc' [<-|[<-|[Hrb Hcb]]] Hget.
  - assert (existsb (Z.eqb num) (default [] (g !! row)) = true) as Hex
      by (apply row_includes; eauto).
    congruence.
  - assert (existsb (fun r => get g r col =? num) idx9 = true) as Hex.
    { apply existsb_idx9. exists r'. split; [done|]. by apply Z.eqb_eq. }
    congruence.
  - assert (existsb (fun r => existsb (fun c => get g r c =? num)
                                (seq (boxStart col) 3))
              (seq (boxStart row) 3) = true) as Hex.
    { apply existsb_box. exists r'. split; [done|].
      apply existsb_box. exists c'. split; [done|]. by apply Z.eqb_eq. }
    congruence.
Qed.

(** ** The measure of the search *)

Lemma filter_length_le {A} (f f' : A → bool) (l : list A) :
  (∀ y, f' y = true → f y = true) →
  (length (List.filter f' l) ≤ length (List.filter f l))%nat.
Proof.
  intros Himp. induction l as [|y l IH]; simpl; [lia|].
  destruct (f' y) eqn:Hf'.
  - rewrite (Himp y Hf'). simpl. lia.
  - destruct (f y); simpl; lia.
Qed.

Lemma filter_length_lt {A} (f f' : A → bool) (l : list A) (x : A) :
  (∀ y, f' y = true → f y = true) →
  In x l → f x = true → f' x = false →
  (length (List.filter f' l) < length (List.filter f l))%nat.
Proof.
  intros Himp Hin Hfx Hf'x. induction l as [|y l IH]; simpl; [done|].
  destruct Hin as [->|Hin].
  - rewrite Hfx, Hf'x. simpl.
    pose proof (filter_length_le f f' l Himp). lia.
  - specialize (IH Hin). destruct (f' y) eqn:Hf'.
    + rewrite (Himp y Hf'). simpl. lia.
    + destruct (f y); simpl; lia.
Qed.

(** Filling an empty cell leaves one empty cell less. *)
Lemma emptyCount_set (g : grid) (r c : nat) (v : Z) :
  wfGrid g → (r < 9)%nat → (c < 9)%nat → get g r c = 0 → v ≠ 0 →
  (emptyCount (set g r c v) < emptyCount g)%nat.
Proof.
  intros Hwf Hr Hc H0 Hv. unfold emptyCount.
  apply (filter_length_lt _ _ _ (r, c)).
  - intros [r' c']. simpl. destruct (decide ((r, c) = (r', c'))) as [Heq|Hne].
    + inversion Heq; subst. rewrite get_set_eq by done.
      intros Hv0. apply Z.eqb_eq in Hv0. done.
    + by rewrite get_set_ne.
  - by apply list_elem_of_In, elem_of_allCells.
  - simpl. by apply Z.eqb_eq.
  - simpl. rewrite get_set_eq by done. by apply Z.eqb_neq.
Qed.

Lemma emptyCount_le_81 (g : grid) : (emptyCount g ≤ 81)%nat.
Proof.
  unfold emptyCount.
  etrans; [apply (filter_length_le (fun _ => true)); done|].
  by vm_compute.
Qed.

Lemma nums19_range (num : Z) : num ∈ nums19 ↔ 1 ≤ num ≤ 9.
Proof.
  unfold nums19. rewrite !elem_of_cons, elem_of_nil. lia.
Qed.

(** ** The solver and the counter walk the exhaustive search *)

Lemma solveLoop_branches (rec : grid → option (bool * grid))
    (sub : grid → list grid) (row col : nat) (nums : list Z) (g : grid) :
  get g row col = 0 →
  (∀ num, num ∈ nums → isValidPlacement g row col num = true →
     rec (set g row col num) =
     Some (firstOf (sub (set g row col num)) (set g row col num))) →
  solveLoop rec row col nums g = Some (firstOf (branches sub g row col nums) g).
Proof.
  intros H0. unfold branches.
  induction nums as [|num rest IH]; intros Hrec; [done|].
  cbn [solveLoop]. rewrite bind_cons.
  destruct (isValidPlacement g row col num) eqn:Hvalid.
  - rewrite (Hrec num) by (done || by left).
    destruct (sub (set g row col num)) as [|s sols]; simpl.
    + rewrite set_undo by done. apply IH.
      intros n Hn. apply Hrec. by right.
    + done.
  - simpl. apply IH. intros n Hn. apply Hrec. by right.
Qed.

Lemma solveGrid_completions (fuel : nat) (g : grid) :
  wfGrid g → (emptyCount g < fuel)%nat →
  solveGrid fuel g = Some (firstOf (completions fuel g) g).
Proof.
  revert g. induction fuel as [|fuel IH]; intros g Hwf Hfuel; [lia|].
  cbn [solveGrid completions].
  destruct (findEmptyCell g) as [[row col]|] eqn:Hcell; [|done].
  apply findEmptyCell_Some in Hcell as (Hr & Hc & H0).
  apply (solveLoop_branches _ (completions fuel)); [done|].
  intros num Hnum Hvalid. apply IH; [by apply wfGrid_set|].
  apply nums19_range in Hnum.
  pose proof (emptyCount_set g row col num Hwf Hr Hc H0). lia.
Qed.

Lemma countLoop_branches (rec : grid → nat → option (grid * nat))
    (sub : grid → list grid) (row col : nat) (nums : list Z) (g : grid)
    (count : nat) :
  get g row col = 0 → (count ≤ 1)%nat →
  (∀ num c, num ∈ nums → isValidPlacement g row col num = true →
     (c ≤ 1)%nat →
     rec (set g row col num) c =
     Some (set g row col num,
           (c + length (sub (set g row col num))) `min` 2)%nat) →
  countLoop rec row col nums g count =
  Some (g, (count + length (branches sub g row col nums)) `min` 2)%nat.
Proof.
  intros H0. unfold branches. revert count.
  induction nums as [|num rest IH]; intros count Hcount Hrec.
  { simpl. do 2 f_equal. lia. }
  cbn [countLoop]. rewrite bind_cons, length_app.
  destruct (isValidPlacement g row col num) eqn:Hvalid.
  - rewrite (Hrec num count) by (done || by left).
    rewrite set_undo by done.
    destruct (1 <? _)%nat eqn:Hcap.
    + apply Nat.ltb_lt in Hcap. do 2 f_equal. lia.
    + apply Nat.ltb_ge in Hcap. rewrite IH.
      * do 2 f_equal. lia.
      * lia.
      * intros n c Hn. apply Hrec. by right.
  - simpl. apply IH; [done|]. intros n c Hn. apply Hrec. by right.
Qed.

Lemma countSolutions_completions (fuel : nat) (g : grid) (count : nat) :
  wfGrid g → (emptyCount g < fuel)%nat → (count ≤ 1)%nat →
  countSolutions fuel g count =
  Some (g, (count + length (completions fuel g)) `min` 2)%nat.
Proof.
  revert g count.
  induction fuel as [|fuel IH]; intros g count Hwf Hfuel Hcount; [lia|].
  cbn [countSolutions completions]. destruct (1 <? count)%nat eqn:Hcap.
  { apply Nat.ltb_lt in Hcap. lia. }
  destruct (findEmptyCell g) as [[row col]|] eqn:Hcell.
  - apply findEmptyCell_Some in Hcell as (Hr & Hc & H0).
    apply (countLoop_branches _ (completions fuel)); [done..|].
    intros num c Hnum Hvalid Hc1. apply IH; [by apply wfGrid_set| |done].
    apply nums19_range in Hnum.
    pose proof (emptyCount_set g row col num Hwf Hr Hc H0). lia.
  - simpl. do 2 f_equal. lia.
Qed.

(** The early return of [countSolutions] when the counter is above 1. *)
Lemma countSolutions_capped (fuel : nat) (g : grid) (count : nat) :
  (1 < count)%nat → countSolutions (S fuel) g count = Some (g, count).
Proof.
  intros Hcap. cbn [countSolutions]. apply Nat.ltb_lt in Hcap. by rewrite Hcap.
Qed.

(** ** Fuel

    Any fuel above the number of empty cells gives the same result, so the
    [82] passed by the entry points stands for the unbounded recursion of
    the source on every 9x9 grid. *)

Lemma completions_fuel (fuel1 fuel2 : nat) (g : grid) :
  wfGrid g → (emptyCount g < fuel1)%nat → (emptyCount g < fuel2)%nat →
  completions fuel1 g = completions fuel2 g.
Proof.
  revert fuel2 g.
  induction fuel1 as [|fuel1 IH]; intros fuel2 g Hwf H1 H2; [lia|].
  destruct fuel2 as [|fuel2]; [lia|]. cbn [completions].
  destruct (findEmptyCell g) as [[row col]|] eqn:Hcell; [|done].
  apply findEmptyCell_Some in Hcell as (Hr & Hc & H0).
  apply Forall_bind_ext, Forall_forall. intros num Hnum%nums19_range.
  destruct (isValidPlacement g row col num); [|done].
  pose proof (emptyCount_set g row col num Hwf Hr Hc H0).
  apply IH; [by apply wfGrid_set|lia..].
Qed.

Lemma solveGrid_fuel (fuel1 fuel2 : nat) (g : grid) :
  wfGrid g → (emptyCount g < fuel1)%nat → (emptyCount g < fuel2)%nat →
  solveGrid fuel1 g = solveGrid fuel2 g.
Proof.
  intros Hwf H1 H2. rewrite !solveGrid_completions by done.
  by rewrite (completions_fuel fuel1 fuel2).
Qed.

Lemma countSolutions_fuel (fuel1 fuel2 : nat) (g : grid) (count : nat) :
  wfGrid g → (emptyCount g < fuel1)%nat → (emptyCount g < fuel2)%nat →
  countSolutions fuel1 g count = countSolutions fuel2 g count.
Proof.
  intros Hwf H1 H2. destruct (decide (count ≤ 1)%nat) as [Hle|Hgt].
  - rewrite !countSolutions_completions by done.
    by rewrite (completions_fuel fuel1 fuel2).
  - destruct fuel1 as [|fuel1]; [lia|]. destruct fuel2 as [|fuel2]; [lia|].
    rewrite !countSolutions_capped by lia. done.
Qed.

(** ** The exhaustive search lists the valid completions *)

Lemma peer_sym (r c r' c' : nat) : peer r c r' c' → peer r' c' r c.
Proof. unfold peer. intuition. Qed.

Lemma Consistent_wf (g : grid) : Consistent g → wfGrid g.
Proof. by intros [? _]. Qed.

(** A placement that [isValidPlacement] accepts keeps the position legal. *)
Lemma Consistent_set (g : grid) (row col : nat) (num : Z) :
  Consistent g → (row < 9)%nat → (col < 9)%nat → 1 ≤ num ≤ 9 →
  isValidPlacement g row col num = true →
  Consistent (set g row col num).
Proof.
  intros (Hwf & Hrange & Hclash) Hr Hc Hnum Hvalid.
  rewrite isValidPlacement_spec in Hvalid by done.
  split; [by apply wfGrid_set|]. split.
  - intros r c Hr' Hc'. destruct (decide ((row, col) = (r, c))) as [Heq|Hne].
    + inversion Heq; subst. rewrite get_set_eq by done. lia.
    + rewrite get_set_ne by done. by apply Hrange.
  - intros r c r' c' Hr1 Hc1 Hr2 Hc2 Hne Hpeer.
    destruct (decide ((row, col) = (r, c))) as [Heq|Hne1].
    + inversion Heq; subst. rewrite get_set_eq by done.
      rewrite get_set_ne by done. intros _ Heq'.
      by apply (Hvalid r' c').
    + rewrite (get_set_ne _ _ _ r c) by done.
      destruct (decide ((row, col) = (r', c'))) as [Heq|Hne2].
      * inversion Heq; subst. rewrite get_set_eq by done. intros _.
        apply (Hvalid r c); [done..|]. by apply peer_sym.
      * rewrite get_set_ne by done. by apply Hclash.
Qed.

(** A full legal grid has exactly one completion, itself. *)
Lemma Completion_full (g s : grid) :
  Consistent g → Complete g → Completion g s ↔ s = g.
Proof.
  intros Hcons Hfull. split.
  - intros [[Hs _] Hagree]. apply grid_ext.
    + by apply Consistent_wf.
    + by apply Consistent_wf.
    + intros r c Hr Hc. apply Hagree; [done..|]. by apply Hfull.
  - intros ->. by split.
Qed.

(** The completions of a grid with the empty cell [(row, col)] are split
    by the number they hold in that cell. *)
Lemma Completion_step (g s : grid) (row col : nat) :
  Consistent g → (row < 9)%nat → (col < 9)%nat → get g row col = 0 →
  Completion g s ↔
  ∃ num, num ∈ nums19 ∧ isValidPlacement g row col num = true ∧
         Completion (set g row col num) s.
Proof.
  intros Hcons Hr Hc H0. pose proof (Consistent_wf g Hcons) as Hwf. split.
  - intros [[Hs Hfull] Hagree]. exists (get s row col).
    destruct Hs as (Hwfs & Hrange & Hclash).
    pose proof (Hrange row col Hr Hc) as Hrg.
    pose proof (Hfull row col Hr Hc) as Hnz.
    split; [apply nums19_range; lia|]. split.
    + apply isValidPlacement_spec; [done..|].
      intros r' c' Hr' Hc' Hpeer Hget.
      assert ((row, col) ≠ (r', c')) as Hne by (intros [= <- <-]; congruence).
      apply (Hclash row col r' c'); [done..|].
      rewrite (Hagree r' c') by (done || congruence). done.
    + split; [done|]. intros r c Hr' Hc'.
      destruct (decide ((row, col) = (r, c))) as [Heq|Hne].
      * inversion Heq; subst. by rewrite get_set_eq.
      * rewrite get_set_ne by done. by apply Hagree.
  - intros (num & Hnum & Hvalid & [Hs Hagree]). split; [done|].
    intros r c Hr' Hc' Hnz.
    assert ((row, col) ≠ (r, c)) as Hne by (intros [= <- <-]; congruence).
    rewrite <- (get_set_ne g row col r c num) by done.
    apply Hagree; [done..|]. by rewrite get_set_ne.
Qed.

Lemma NoDup_nums19 : NoDup nums19.
Proof. apply (bool_decide_unpack _). by vm_compute. Qed.

Lemma completions_spec (fuel : nat) (g : grid) :
  Consistent g → (emptyCount g < fuel)%nat →
  NoDup (completions fuel g) ∧
  ∀ s, s ∈ completions fuel g ↔ Completion g s.
Proof.
  revert g. induction fuel as [|fuel IH]; intros g Hcons Hfuel; [lia|].
  pose proof (Consistent_wf g Hcons) as Hwf.
  cbn [completions].
  destruct (findEmptyCell g) as [[row col]|] eqn:Hcell.
  - apply findEmptyCell_Some in Hcell as (Hr & Hc & H0).
    assert (∀ num, num ∈ nums19 → isValidPlacement g row col num = true →
              NoDup (completions fuel (set g row col num)) ∧
              ∀ s, s ∈ completions fuel (set g row col num) ↔
                   Completion (set g row col num) s) as Hsub.
    { intros num Hnum Hvalid. apply nums19_range in Hnum. apply IH.
      - by apply Consistent_set.
      - pose proof (emptyCount_set g row col num Hwf Hr Hc H0). lia. }
    assert (∀ s, s ∈ (num ← nums19;
                       if isValidPlacement g row col num
                       then completions fuel (set g row col num) else []) ↔
                 Completion g s) as Hmem.
    { intros s. rewrite (Completion_step g s row col) by done.
      rewrite list_elem_of_bind. split.
      - intros (num & Hs & Hnum).
        destruct (isValidPlacement g row col num) eqn:Hvalid;
          [|by apply elem_of_nil in Hs].
        exists num. split_and!; [done..|]. by apply Hsub.
      - intros (num & Hnum & Hvalid & Hs). exists num. rewrite Hvalid.
        split; [|done]. by apply Hsub. }
    split; [|done]. apply NoDup_bind; [| |apply NoDup_nums19].
    + intros n1 n2 s Hn1 Hn2 Hs1 Hs2.
      destruct (isValidPlacement g row col n1) eqn:Hv1;
        [|by apply elem_of_nil in Hs1].
      destruct (isValidPlacement g row col n2) eqn:Hv2;
        [|by apply elem_of_nil in Hs2].
      apply Hsub in Hs1 as [_ Ha1]; [|done..].
      apply Hsub in Hs2 as [_ Ha2]; [|done..].
      apply nums19_range in Hn1, Hn2.
      specialize (Ha1 row col Hr Hc). specialize (Ha2 row col Hr Hc).
      rewrite get_set_eq in Ha1, Ha2 by done.
      rewrite <- Ha1, <- Ha2 by lia. done.
    + intros num Hnum. destruct (isValidPlacement g row col num) eqn:Hvalid.
      * by apply Hsub.
      * constructor.
  - apply findEmptyCell_None in Hcell. split.
    + apply NoDup_singleton.
    + intros s. rewrite list_elem_of_singleton. symmetry.
      by apply Completion_full.
Qed.

(** ** The validator checks the rules *)

Lemma existsb_eqb_elem_of (x : Z) (l : list Z) :
  existsb (Z.eqb x) l = true ↔ x ∈ l.
Proof.
  rewrite existsb_exists. split.
  - intros (y & Hin & Heq). apply Z.eqb_eq in Heq. subst.
    by apply list_elem_of_In.
  - intros Hin. exists x. split; [by apply list_elem_of_In|apply Z.eqb_refl].
Qed.

Lemma validateCells_spec (g : grid) (cells : list (nat * nat))
    (seen : list Z) :
  NoDup cells →
  validateCells g cells seen = true ↔
  validRegion g cells ∧
  (∀ p, p ∈ cells → get g p.1 p.2 ≠ 0 → get g p.1 p.2 ∉ seen).
Proof.
  intros Hnd. revert seen.
  induction Hnd as [|[r c] cells Hnotin Hnd IH]; intros seen.
  { simpl. split; [|done]. intros _.
    split; [split|]; [intros p Hp|intros p q Hp|intros p Hp];
      by apply elem_of_nil in Hp. }
  cbn [validateCells]. destruct (get g r c =? 0) eqn:Hzero.
  { apply Z.eqb_eq in Hzero. rewrite IH. unfold validRegion. split.
    - intros [[Hrange Hdist] Hseen]. split; [split|].
      + intros p [->|Hp]%elem_of_cons; [simpl; lia|by apply Hrange].
      + intros p q [->|Hp]%elem_of_cons [->|Hq]%elem_of_cons Hne Hnz;
          simpl in *; [done|done|congruence|by apply Hdist].
      + intros p [->|Hp]%elem_of_cons Hnz; [done|by apply Hseen].
    - intros [[Hrange Hdist] Hseen]. split; [split|].
      + intros p Hp. apply Hrange. by right.
      + intros p q Hp Hq. apply Hdist; by right.
      + intros p Hp. apply Hseen. by right. }
  apply Z.eqb_neq in Hzero.
  destruct ((get g r c <? 1) || (9 <? get g r c)) eqn:Hout.
  { split; [done|]. intros [[Hrange _] _].
    assert (0 ≤ get g r c ≤ 9) as Hrg by (apply (Hrange (r, c)); by left).
    apply orb_true_iff in Hout as [Hlo%Z.ltb_lt|Hhi%Z.ltb_lt]; lia. }
  apply orb_false_iff in Hout as [Hlo%Z.ltb_ge Hhi%Z.ltb_ge].
  destruct (existsb (Z.eqb (get g r c)) seen) eqn:Hseen0.
  { apply existsb_eqb_elem_of in Hseen0. split; [done|].
    intros [_ Hseen]. destruct (Hseen (r, c)); [by left|done..]. }
  assert (get g r c ∉ seen) as Hfresh.
  { intros Hin%existsb_eqb_elem_of. congruence. }
  rewrite IH. unfold validRegion. split.
  - intros [[Hrange Hdist] Hseen]. split; [split|].
    + intros p [->|Hp]%elem_of_cons; [simpl; lia|by apply Hrange].
    + intros p q [->|Hp]%elem_of_cons [->|Hq]%elem_of_cons Hne Hnz;
        simpl in *; [done| | |by apply Hdist].
      * destruct (decide (get g q.1 q.2 = 0)) as [Hq0|Hq0]; [congruence|].
        intros Heq. apply (Hseen q Hq Hq0). rewrite <- Heq. by left.
      * intros Heq. apply (Hseen p Hp Hnz). rewrite Heq. by left.
    + intros p [->|Hp]%elem_of_cons Hnz; [done|].
      intros Hin. apply (Hseen p Hp Hnz). by right.
  - intros [[Hrange Hdist] Hseen]. split; [split|].
    + intros p Hp. apply Hrange. by right.
    + intros p q Hp Hq. apply Hdist; by right.
    + intros p Hp Hnz [Heq|Hin]%elem_of_cons.
      * apply (Hdist p (r, c)); [by right|by left| |done..].
        intros ->. done.
      * apply (Hseen p); [by right|done..].
Qed.

Lemma validateCells_region (g : grid) (cells : list (nat * nat)) :
  NoDup cells → validateCells g cells [] = true ↔ validRegion g cells.
Proof.
  intros Hnd. rewrite validateCells_spec by done. split; [by intros [? _]|].
  intros Hreg. split; [done|]. intros p _ _ Hin. by apply elem_of_nil in Hin.
Qed.

Lemma isValidGrid_unfold (g : grid) (b : bool) :
  isValidGrid g b =
  (length g =? 9)%nat
  && negb (existsb (fun row => negb (length (default [] (g !! row)) =? 9)%nat)
             idx9)
  && negb (b && existsb (fun row => existsb (fun col => get g row col =? 0)
                                      idx9) idx9)
  && forallb (validateRow g) idx9
  && forallb (validateColumn g) idx9
  && forallb (fun boxRow =>
                forallb (fun boxCol => validateSubgrid g boxRow boxCol)
                  [0; 3; 6]%nat) [0; 3; 6]%nat.
Proof.
  unfold isValidGrid.
  destruct (length g =? 9)%nat; [|done]. cbn [negb andb].
  destruct (existsb _ idx9); [done|]. cbn [negb andb].
  destruct (b && _); [done|]. cbn [negb andb].
  destruct (forallb (validateRow g) idx9); [|done]. cbn [negb andb].
  destruct (forallb (validateColumn g) idx9); [|done]. cbn [negb andb].
  by destruct (forallb _ _).
Qed.

Lemma shape_check (g : grid) :
  (length g =? 9)%nat
  && negb (existsb (fun row => negb (length (default [] (g !! row)) =? 9)%nat)
             idx9) = true ↔ wfGrid g.
Proof.
  rewrite andb_true_iff, negb_true_iff, Nat.eqb_eq. unfold wfGrid.
  split; intros [Hlen Hrows]; (split; [done|]).
  - apply Forall_lookup. intros r row Hrow.
    assert (r < 9)%nat as Hr by (apply lookup_lt_Some in Hrow; lia).
    destruct (decide (length row = 9%nat)) as [|Hne]; [done|].
    assert (existsb (fun row => negb (length (default [] (g !! row)) =? 9)%nat)
              idx9 = true) as Hex; [|congruence].
    apply existsb_idx9. exists r. split; [done|]. rewrite Hrow. simpl.
    apply negb_true_iff. by apply Nat.eqb_neq.
  - apply not_true_iff_false. intros (r & Hr & Hbad)%existsb_idx9.
    destruct (wfGrid_row g r (conj Hlen Hrows) Hr) as (row & Hrow & Hl).
    rewrite Hrow in Hbad. simpl in Hbad. rewrite Hl in Hbad. done.
Qed.

Lemma complete_check (g : grid) :
  existsb (fun row => existsb (fun col => get g row col =? 0) idx9) idx9
  = false ↔ Complete g.
Proof.
  rewrite <- not_true_iff_false. unfold Complete. split.
  - intros Hno r c Hr Hc H0. apply Hno. apply existsb_idx9. exists r.
    split; [done|]. apply existsb_idx9. exists c. split; [done|].
    by apply Z.eqb_eq.
  - intros Hfull (r & Hr & (c & Hc & H0%Z.eqb_eq)%existsb_idx9)%existsb_idx9.
    by apply (Hfull r c).
Qed.

Lemma forallb_idx9 (f : nat → bool) :
  forallb f idx9 = true ↔ ∀ i, (i < 9)%nat → f i = true.
Proof.
  rewrite forallb_forall. split; intros Hall i Hi; apply Hall.
  - by apply list_elem_of_In, elem_of_idx9.
  - by apply list_elem_of_In, elem_of_idx9 in Hi.
Qed.

Lemma forallb_036 (f : nat → bool) :
  forallb f [0; 3; 6]%nat = true ↔ ∀ i, (i < 9)%nat → f (boxStart i) = true.
Proof.
  simpl. rewrite !andb_true_iff. split.
  - intros (H0 & H3 & H6 & _) i Hi.
    each_below_9 i done.
  - intros Hall. split_and!; [apply (Hall 0%nat)|apply (Hall 3%nat)
                              |apply (Hall 6%nat)|done]; lia.
Qed.

Lemma elem_of_rowCells (r : nat) (p : nat * nat) :
  p ∈ map (fun col => (r, col)) idx9 ↔ p.1 = r ∧ (p.2 < 9)%nat.
Proof.
  rewrite list_elem_of_In, in_map_iff. split.
  - intros (c & <- & Hc%list_elem_of_In%elem_of_idx9). done.
  - intros [<- Hc]. exists p.2. split; [by destruct p|].
    by apply list_elem_of_In, elem_of_idx9.
Qed.

Lemma elem_of_colCells (c : nat) (p : nat * nat) :
  p ∈ map (fun row => (row, c)) idx9 ↔ (p.1 < 9)%nat ∧ p.2 = c.
Proof.
  rewrite list_elem_of_In, in_map_iff. split.
  - intros (r & <- & Hr%list_elem_of_In%elem_of_idx9). done.
  - intros [Hr <-]. exists p.1. split; [by destruct p|].
    by apply list_elem_of_In, elem_of_idx9.
Qed.

Lemma elem_of_boxCells (br bc : nat) (p : nat * nat) :
  p ∈ boxCells br bc ↔
  (br ≤ p.1 < br + 3)%nat ∧ (bc ≤ p.2 < bc + 3)%nat.
Proof.
  unfold boxCells. rewrite list_elem_of_bind. split.
  - intros (r & (c & ->%list_elem_of_singleton & Hc%elem_of_seq)
              %list_elem_of_bind & Hr%elem_of_seq).
    simpl. lia.
  - intros [Hr Hc]. exists p.1. rewrite elem_of_seq. split; [|lia].
    apply list_elem_of_bind. exists p.2. rewrite elem_of_seq. split; [|lia].
    apply list_elem_of_singleton. by destruct p.
Qed.

Lemma NoDup_rowCells (r : nat) : NoDup (map (fun col => (r, col)) idx9).
Proof.
  apply NoDup_ListNoDup, Finite.Injective_map_NoDup;
    [|apply NoDup_ListNoDup, NoDup_seq].
  intros c c' [= ->]. done.
Qed.

Lemma NoDup_colCells (c : nat) : NoDup (map (fun row => (row, c)) idx9).
Proof.
  apply NoDup_ListNoDup, Finite.Injective_map_NoDup;
    [|apply NoDup_ListNoDup, NoDup_seq].
  intros r r' [= ->]. done.
Qed.

Lemma NoDup_boxCells (br bc : nat) : NoDup (boxCells br bc).
Proof.
  unfold boxCells. apply NoDup_bind; [| |apply NoDup_seq].
  - intros r r' p _ _ (c & ->%list_elem_of_singleton & _)%list_elem_of_bind
      (c' & [= -> _]%list_elem_of_singleton & _)%list_elem_of_bind. done.
  - intros r _. apply NoDup_bind; [| |apply NoDup_seq].
    + intros c c' p _ _ ->%list_elem_of_singleton [= ->]%list_elem_of_singleton.
      done.
    + intros c _. apply NoDup_singleton.
Qed.

(** The three families of region checks together are the rules. *)
Lemma regions_rules (g : grid) :
  ((∀ r, (r < 9)%nat → validRegion g (map (fun col => (r, col)) idx9)) ∧
   (∀ c, (c < 9)%nat → validRegion g (map (fun row => (row, c)) idx9)) ∧
   (∀ i j, (i < 9)%nat → (j < 9)%nat →
           validRegion g (boxCells (boxStart i) (boxStart j)))) ↔
  (∀ r c, (r < 9)%nat → (c < 9)%nat → 0 ≤ get g r c ≤ 9) ∧ noClash g.
Proof.
  split.
  - intros (Hrows & Hcols & Hboxes). split.
    + intros r c Hr Hc. destruct (Hrows r Hr) as [Hrange _].
      apply (Hrange (r, c)). by apply elem_of_rowCells.
    + intros r c r' c' Hr Hc Hr' Hc' Hne [<-|[<-|[Hrb Hcb]]].
      * destruct (Hrows r Hr) as [_ Hdist].
        apply (Hdist (r, c) (r, c')); [by apply elem_of_rowCells..|done].
      * destruct (Hcols c Hc) as [_ Hdist].
        apply (Hdist (r, c) (r', c)); [by apply elem_of_colCells..|done].
      * destruct (Hboxes r c Hr Hc) as [_ Hdist].
        apply (Hdist (r, c) (r', c')); [| |done].
        -- apply elem_of_boxCells. simpl. by rewrite !in_box_iff.
        -- apply elem_of_boxCells. simpl. by rewrite !in_box_iff.
  - intros [Hrange Hclash]. split_and!.
    + intros r Hr. split.
      * intros p [<- Hc]%elem_of_rowCells. by apply Hrange.
      * intros [r1 c1] [r2 c2] [Hr1 Hc1]%elem_of_rowCells
          [Hr2 Hc2]%elem_of_rowCells Hne. simpl in *. subst.
        apply Hclash; [done..|]. by left.
    + intros c Hc. split.
      * intros p [Hr <-]%elem_of_colCells. by apply Hrange.
      * intros [r1 c1] [r2 c2] [Hr1 Hc1]%elem_of_colCells
          [Hr2 Hc2]%elem_of_colCells Hne. simpl in *. subst.
        apply Hclash; [done..|]. right. by left.
    + intros i j Hi Hj. split.
      * intros p [Hr%in_box_iff Hc%in_box_iff]%elem_of_boxCells.
        apply Hrange; [by apply (box_lt_9 i)|by apply (box_lt_9 j)].
      * intros [r1 c1] [r2 c2] [Hr1%in_box_iff Hc1%in_box_iff]%elem_of_boxCells
          [Hr2%in_box_iff Hc2%in_box_iff]%elem_of_boxCells Hne.
        cbn [fst snd] in *.
        apply Hclash; [by apply (box_lt_9 i)|by apply (box_lt_9 j)
                      |by apply (box_lt_9 i)|by apply (box_lt_9 j)|done|].
        right. right. split; congruence.
Qed.

(** [isValidGrid] accepts exactly the legal positions, and with
    [requireComplete] exactly the complete valid grids. *)
Lemma isValidGrid_spec (g : grid) (requireComplete : bool) :
  isValidGrid g requireComplete = true ↔
  Consistent g ∧ (requireComplete = true → Complete g).
Proof.
  rewrite isValidGrid_unfold. do 4 rewrite andb_true_iff. rewrite shape_check.
  rewrite !forallb_idx9, forallb_036. unfold Consistent.
  rewrite <- regions_rules.
  assert (negb (requireComplete &&
            existsb (fun row => existsb (fun col => get g row col =? 0) idx9)
              idx9) = true ↔ (requireComplete = true → Complete g)) as ->.
  { rewrite negb_true_iff, andb_false_iff, complete_check.
    destruct requireComplete; intuition congruence. }
  assert ((∀ i, (i < 9)%nat →
             forallb (fun boxCol => validateSubgrid g (boxStart i) boxCol)
               [0; 3; 6]%nat = true) ↔
          (∀ i j, (i < 9)%nat → (j < 9)%nat →
             validRegion g (boxCells (boxStart i) (boxStart j)))) as ->.
  { split.
    - intros Hall i j Hi Hj. apply validateCells_region; [apply NoDup_boxCells|].
      specialize (Hall i Hi). rewrite forallb_036 in Hall. by apply Hall.
    - intros Hall i Hi. apply forallb_036. intros j Hj.
      apply validateCells_region; [apply NoDup_boxCells|]. by apply Hall. }
  assert ((∀ r, (r < 9)%nat → validateRow g r = true) ↔
          (∀ r, (r < 9)%nat → validRegion g (map (fun col => (r, col)) idx9)))
    as ->.
  { split; intros Hall r Hr; apply validateCells_region;
      try apply NoDup_rowCells; by apply Hall. }
  assert ((∀ c, (c < 9)%nat → validateColumn g c = true) ↔
          (∀ c, (c < 9)%nat → validRegion g (map (fun row => (row, c)) idx9)))
    as ->.
  { split; intros Hall c Hc; apply validateCells_region;
      try apply NoDup_colCells; by apply Hall. }
  tauto.
Qed.

(** [isValidGrid(grid, requireComplete)] returns true exactly for the 9x9
    grids with every cell in 0..9 and no filled cell repeated in its row,
    column or box, that have no empty cell when [requireComplete] is set. *)
Theorem isValidGrid_checks_rules (g : grid) (requireComplete : bool) :
  isValidGrid g requireComplete = true ↔
  wfGrid g ∧
  (∀ r c, (r < 9)%nat → (c < 9)%nat → 0 ≤ get g r c ≤ 9) ∧
  noClash g ∧
  (requireComplete = true → Complete g).
Proof. rewrite isValidGrid_spec. unfold Consistent. tauto. Qed.

(** ** solve, countSolutions: termination, result and frame *)

Lemma fuel_82 (g : grid) : (emptyCount g < 82)%nat.
Proof. pose proof (emptyCount_le_81 g). lia. Qed.

(** The three cases of a capped count over a duplicate-free listing. *)
Lemma capped_length_cases {A} (P : A → Prop) (l : list A) :
  NoDup l → (∀ s, s ∈ l ↔ P s) →
  ((length l `min` 2)%nat = 0%nat ↔ ¬ ∃ s, P s) ∧
  ((length l `min` 2)%nat = 1%nat ↔ ∃ s, P s ∧ ∀ s', P s' → s' = s) ∧
  ((length l `min` 2)%nat = 2%nat ↔ ∃ s1 s2, s1 ≠ s2 ∧ P s1 ∧ P s2).
Proof.
  intros Hnd Hmem. destruct l as [|a [|b l]]; simpl.
  - split_and!.
    + split; [|done]. intros _ [s Hs]. apply Hmem in Hs.
      by apply elem_of_nil in Hs.
    + split; [done|]. intros (s & Hs & _). apply Hmem in Hs.
      by apply elem_of_nil in Hs.
    + split; [done|]. intros (s & _ & _ & Hs & _). apply Hmem in Hs.
      by apply elem_of_nil in Hs.
  - assert (P a) as Ha by (apply Hmem; by left).
    assert (∀ s, P s → s = a) as Honly.
    { intros s Hs%Hmem. by apply list_elem_of_singleton in Hs. }
    split_and!.
    + split; [done|]. intros Hno. destruct Hno. by exists a.
    + split; [|done]. intros _. by exists a.
    + split; [done|]. intros (s1 & s2 & Hne & H1%Honly & H2%Honly).
      congruence.
  - assert (P a) as Ha by (apply Hmem; by left).
    assert (P b) as Hb by (apply Hmem; right; by left).
    assert (a ≠ b) as Hab.
    { apply NoDup_cons in Hnd as [Hnotin _]. intros ->. apply Hnotin.
      by left. }
    split_and!.
    + split; [done|]. intros Hno. destruct Hno. by exists a.
    + split; [done|]. intros (s & _ & Honly).
      rewrite (Honly a Ha), (Honly b Hb) in Hab. done.
    + split; [intros _; by exists a, b|intros _; lia].
Qed.

(** The result of [countSolutions] started with the counter at 0 on a
    legal position. *)
Lemma countSolutions_legal (g : grid) :
  Consistent g →
  ∃ n, countSolutions 82 g 0 = Some (g, n) ∧
       (n = 0%nat ↔ ¬ ∃ s, Completion g s) ∧
       (n = 1%nat ↔ ∃ s, Completion g s ∧ ∀ s', Completion g s' → s' = s) ∧
       (n = 2%nat ↔ ∃ s1 s2, s1 ≠ s2 ∧ Completion g s1 ∧ Completion g s2).
Proof.
  intros Hcons. pose proof (Consistent_wf g Hcons) as Hwf.
  destruct (completions_spec 82 g Hcons (fuel_82 g)) as [Hnd Hmem].
  exists (length (completions 82 g) `min` 2)%nat. split.
  - by rewrite countSolutions_completions by (done || apply fuel_82 || lia).
  - by apply capped_length_cases.
Qed.


(** The search writes to empty cells only: every grid that it reaches
    keeps the non-zero cells of the grid it started from. *)
Lemma completions_keep_givens (fuel : nat) (g s : grid) (r c : nat) :
  s ∈ completions fuel g → get g r c ≠ 0 → get s r c = get g r c.
Proof.
  revert g. induction fuel as [|fuel IH]; intros g Hs Hnz.
  { by apply elem_of_nil in Hs. }
  cbn [completions] in Hs.
  destruct (findEmptyCell g) as [[row col]|] eqn:Hcell.
  - apply findEmptyCell_Some in Hcell as (_ & _ & Hzero).
    apply list_elem_of_bind in Hs as (num & Hs & _).
    destruct (isValidPlacement g row col num);
      [|by apply elem_of_nil in Hs].
    assert ((row, col) ≠ (r, c)) as Hne by (intros [= -> ->]; done).
    rewrite (IH _ Hs); rewrite get_set_ne by done; done.
  - by apply list_elem_of_singleton in Hs as ->.
Qed.

(** A grid with a clash among its givens has no valid completion. *)
Lemma clash_no_completion (g : grid) (r c r' c' : nat) :
  (r < 9)%nat → (c < 9)%nat → (r' < 9)%nat → (c' < 9)%nat →
  (r, c) ≠ (r', c') → peer r c r' c' →
  get g r c ≠ 0 → get g r c = get g r' c' →
  ¬ ∃ s, Completion g s.
Proof.
  intros Hr Hc Hr' Hc' Hne Hpeer Hnz Heq
    (s & [(_ & _ & Hclash) _] & Hagree).
  apply (Hclash r c r' c'); [done..| |].
  - by rewrite Hagree.
  - rewrite !Hagree by (done || congruence). done.
Qed.

(** C3 fails on the code: [solve] never looks at the givens of its
    argument.  For every 9x9 grid in which two cells that see each other
    hold the same number, the grid has no valid completion, and yet every
    grid that [solve] returns for it (instead of null) keeps the two cells
    and fails [isValidGrid]. *)
Theorem solve_clash_returns_invalid (g s : grid) (r c r' c' : nat) :
  wfGrid g →
  (r < 9)%nat → (c < 9)%nat → (r' < 9)%nat → (c' < 9)%nat →
  (r, c) ≠ (r', c') → peer r c r' c' →
  get g r c ≠ 0 → get g r c = get g r' c' →
  solve g = Some (Some s) →
  (¬ ∃ s', Completion g s') ∧
  (∀ r c, get g r c ≠ 0 → get s r c = get g r c) ∧
  isValidGrid s true = false.
Proof.
  intros Hwf Hr Hc Hr' Hc' Hne Hpeer Hnz Heq Hsolve.
  split; [by apply (clash_no_completion g r c r' c')|].
  assert (s ∈ completions 82 g) as Hs.
  { unfold solve in Hsolve. rewrite copyGrid_id in Hsolve.
    rewrite (solveGrid_completions 82 g Hwf (fuel_82 g)) in Hsolve.
    destruct (completions 82 g) as [|s0 sols]; [discriminate Hsolve|].
    cbn [firstOf] in Hsolve. injection Hsolve as ->. by left. }
  assert (∀ r c, get g r c ≠ 0 → get s r c = get g r c) as Hkeeps
    by (intros r0 c0; by apply (completions_keep_givens 82)).
  split; [exact Hkeeps|]. clear Hsolve Hs.
  apply not_true_iff_false. intros [(_ & _ & Hclash) _]%isValidGrid_spec.
  apply (Hclash r c r' c'); [done..| |].
  - by rewrite Hkeeps.
  - rewrite !Hkeeps by (done || congruence). done.
Qed.

Lemma solve_clash_returns_invalid_witness :
  solve clashGrid = Some (Some (set clashGrid 8 8 2)) ∧
  (¬ ∃ s', Completion clashGrid s') ∧
  (∀ r c, get clashGrid r c ≠ 0 →
          get (set clashGrid 8 8 2) r c = get clashGrid r c) ∧
  isValidGrid (set clashGrid 8 8 2) true = false.
Proof.
  assert (solve clashGrid = Some (Some (set clashGrid 8 8 2))) as Hrun
    by (vm_compute; reflexivity).
  split; [exact Hrun|].
  apply (solve_clash_returns_invalid clashGrid _ 0 0 0 1);
    [|lia|lia|lia|lia|discriminate|by left| | |exact Hrun];
    clear Hrun.
  - split; [done|]. by repeat constructor.
  - by vm_compute.
  - by vm_compute.
Defined.

(** On the grids that pass [isValidGrid(puzzle, false)] (non-zero cells in
    1..9 that do not repeat in a row, column or box), [solve] returns; it
    returns null exactly when the input has no valid completion, and
    otherwise it returns a complete valid grid that agrees with every
    non-zero cell of the input. *)
Theorem solve_legal (puzzle : grid) :
  isValidGrid puzzle false = true →
  ∃ r, solve puzzle = Some r ∧
       (r = None ↔ ¬ ∃ s, Completion puzzle s) ∧
       (∀ s, r = Some s → Completion puzzle s).
Proof.
  intros [Hcons _]%isValidGrid_spec.
  pose proof (Consistent_wf puzzle Hcons) as Hwf.
  destruct (completions_spec 82 puzzle Hcons (fuel_82 puzzle)) as [_ Hmem].
  unfold solve. rewrite copyGrid_id.
  rewrite solveGrid_completions by (done || apply fuel_82).
  destruct (completions 82 puzzle) as [|s sols]; simpl.
  - exists None. split_and!; [done| |done].
    split; [|done]. intros _ [s Hs%Hmem]. by apply elem_of_nil in Hs.
  - assert (Completion puzzle s) as Hs by (apply Hmem; by left).
    exists (Some s). split_and!; [done| |by intros ? [= <-]].
    split; [done|]. intros Hno. destruct Hno. by exists s.
Qed.

Lemma solve_legal_witness :
  ∃ r, solve emptyGrid = Some r ∧
       (r = None ↔ ¬ ∃ s, Completion emptyGrid s) ∧
       (∀ s, r = Some s → Completion emptyGrid s).
Proof. apply (solve_legal emptyGrid). reflexivity. Defined.

(** C4: for every complete valid 9x9 grid, [solve] returns a grid equal to
    it cell for cell. *)
Theorem solve_solved_grid (g : grid) :
  isValidGrid g true = true → solve g = Some (Some g).
Proof.
  intros [Hcons Hfull]%isValidGrid_spec.
  specialize (Hfull eq_refl). apply findEmptyCell_None in Hfull.
  unfold solve. rewrite copyGrid_id. cbn [solveGrid]. by rewrite Hfull.
Qed.

Lemma solve_solved_grid_witness :
  solve firstSolution = Some (Some firstSolution).
Proof. apply (solve_solved_grid firstSolution). reflexivity. Defined.




(** C7: for every 9x9 grid and every value of the counter, when
    [countSolutions] returns the grid is cell for cell as it was at the
    call, also on the early exits taken when the counter exceeds 1; and
    the call does return. *)
Theorem countSolutions_restores_grid (fuel : nat) (g : grid) (count : nat) :
  wfGrid g → (emptyCount g < fuel)%nat →
  ∃ n, countSolutions fuel g count = Some (g, n).
Proof.
  intros Hwf Hfuel. destruct (decide (count ≤ 1)%nat) as [Hle|Hgt].
  - exists ((count + length (completions fuel g)) `min` 2)%nat.
    by apply countSolutions_completions.
  - exists count. destruct fuel as [|fuel]; [lia|].
    apply countSolutions_capped. lia.
Qed.

Lemma countSolutions_restores_grid_witness :
  ∃ n, countSolutions 82 (set firstSolution 8 8 0) 1 =
       Some (set firstSolution 8 8 0, n).
Proof.
  apply (countSolutions_restores_grid 82 (set firstSolution 8 8 0) 1).
  - split; [reflexivity|]. repeat constructor.
  - vm_compute. lia.
Defined.

(** ** shuffleArray *)

Lemma swap_Permutation {A} (a : list A) (i j : nat) : swap a i j ≡ₚ a.
Proof.
  unfold swap. destruct (a !! i) as [x|] eqn:Hi; [|done].
  destruct (a !! j) as [y|] eqn:Hj; [|done].
  by apply Permutation_insert_swap.
Qed.

Section ShuffleProperties.

Context {A : Type} (rand : nat → nat).

Lemma shuffleLoop_spec (shuffled i : nat) (h : store A) (k : nat) :
  ∃ h', shuffleLoop rand shuffled i h k = (h', (k + i)%nat) ∧
        length h' = length h ∧
        (∀ a, a ≠ shuffled → h' !! a = h !! a) ∧
        default [] (h' !! shuffled) ≡ₚ default [] (h !! shuffled).
Proof.
  revert h k. induction i as [|i IH]; intros h k.
  { exists h. cbn [shuffleLoop]. by rewrite Nat.add_0_r. }
  cbn [shuffleLoop].
  destruct (IH (alter (fun a => swap a (S i) (rand k mod (S i + 1))%nat)
                  shuffled h) (S k)) as (h' & Hrun & Hlen & Hframe & Hperm).
  exists h'. split_and!.
  - rewrite Hrun. f_equal. lia.
  - by rewrite Hlen, length_alter.
  - intros a Ha. rewrite Hframe by done. by apply list_lookup_alter_ne.
  - rewrite Hperm, list_lookup_alter_eq.
    destruct (h !! shuffled) as [l|]; simpl; [|done].
    apply swap_Permutation.
Qed.

(** [shuffleArray] allocates: the reference it returns is new, the arrays
    already in the store keep their elements, and the new array is a
    permutation of the argument. *)
Lemma shuffleArray_spec (array : nat) (h : store A) (k : nat) :
  ∃ h', shuffleArray rand array h k =
        (length h, h', (k + (length (default [] (h !! array)) - 1))%nat) ∧
        length h' = S (length h) ∧
        (∀ a, (a < length h)%nat → h' !! a = h !! a) ∧
        default [] (h' !! length h) ≡ₚ default [] (h !! array).
Proof.
  unfold shuffleArray.
  destruct (shuffleLoop_spec (length h)
              (length (default [] (h !! array)) - 1)
              (h ++ [default [] (h !! array)]) k)
    as (h' & Hrun & Hlen & Hframe & Hperm).
  exists h'. rewrite Hrun. split_and!.
  - done.
  - rewrite Hlen, length_app. simpl. lia.
  - intros a Ha. rewrite Hframe by lia. by apply lookup_app_l.
  - rewrite Hperm. by rewrite list_lookup_middle.
Qed.

(** Calling [shuffleArray] on each array of a list and dropping what it
    returns leaves every array that was in the store as it was. *)
Lemma shuffleEach_frame (boxes : list nat) (h : store A) (k : nat) :
  ∃ h' k', shuffleEach rand boxes h k = (h', k') ∧
           (length h ≤ length h')%nat ∧
           ∀ a, (a < length h)%nat → h' !! a = h !! a.
Proof.
  revert h k. induction boxes as [|box rest IH]; intros h k.
  { exists h, k. done. }
  cbn [shuffleEach].
  destruct (shuffleArray_spec box h k) as (h1 & Hrun & Hlen & Hframe & _).
  rewrite Hrun.
  destruct (IH h1 (k + (length (default [] (h !! box)) - 1))%nat)
    as (h' & k' & Hrest & Hlen' & Hframe').
  exists h', k'. split_and!; [done|lia|].
  intros a Ha. rewrite Hframe' by lia. by apply Hframe.
Qed.

Lemma shuffleLiteral_spec (literal : list A) (k : nat) :
  ∃ shuffled, shuffleLiteral rand literal k =
              Some (shuffled, (k + (length literal - 1))%nat) ∧
              shuffled ≡ₚ literal.
Proof.
  unfold shuffleLiteral.
  destruct (shuffleArray_spec 0 [literal] k) as (h & Hrun & _ & _ & Hperm).
  rewrite Hrun. simpl in *. by eexists.
Qed.

End ShuffleProperties.

(** C10: for every array in the store, [shuffleArray] returns a reference
    to a new array that is a permutation of the argument, and every array
    that was in the store, the argument included, keeps its elements; so a
    caller that drops the returned reference, as the [forEach] over the
    boxes does, leaves its arrays as they were. *)
Theorem shuffleArray_new_array {A} (rand : nat → nat) (array : nat)
    (h : store A) (k : nat) (elements : list A) :
  h !! array = Some elements →
  (∃ shuffled h' k' result,
     shuffleArray rand array h k = (shuffled, h', k') ∧
     h !! shuffled = None ∧
     h' !! shuffled = Some result ∧ result ≡ₚ elements ∧
     h' !! array = Some elements ∧
     ∀ a, (a < length h)%nat → h' !! a = h !! a) ∧
  (∀ boxes, ∃ h' k', shuffleEach rand boxes h k = (h', k') ∧
                     ∀ a, (a < length h)%nat → h' !! a = h !! a).
Proof.
  intros Harr. split.
  - destruct (shuffleArray_spec rand array h k)
      as (h' & Hrun & Hlen & Hframe & Hperm).
    destruct (lookup_lt_is_Some_2 h' (length h)) as [result Hres]; [lia|].
    exists (length h), h', (k + (length (default [] (h !! array)) - 1))%nat,
      result.
    split_and!; [done|by apply lookup_ge_None_2|done| | |done].
    + rewrite Hres, Harr in Hperm. done.
    + rewrite Hframe; [done|]. by apply lookup_lt_Some in Harr.
  - intros boxes.
    destruct (shuffleEach_frame rand boxes h k) as (h' & k' & Hrun & _ & Hf).
    by exists h', k'.
Qed.

Lemma shuffleArray_new_array_witness :
  (∃ shuffled h' k' result,
     shuffleArray (fun n => (n * 7 + 3)%nat) 0 [nums19] 0 = (shuffled, h', k') ∧
     [nums19] !! shuffled = None ∧
     h' !! shuffled = Some result ∧ result ≡ₚ nums19 ∧
     h' !! 0%nat = Some nums19 ∧
     ∀ a, (a < length [nums19])%nat → h' !! a = [nums19] !! a) ∧
  (∀ boxes, ∃ h' k',
     shuffleEach (fun n => (n * 7 + 3)%nat) boxes [nums19] 0 = (h', k') ∧
     ∀ a, (a < length [nums19])%nat → h' !! a = [nums19] !! a).
Proof.
  apply (shuffleArray_new_array (fun n => (n * 7 + 3)%nat) 0 [nums19] 0 nums19).
  reflexivity.
Defined.

(** ** The removal queue of generatePuzzle *)

Lemma filter_bind {A B} (P : B → bool) (f : A → list B) (l : list A) :
  List.filter P (l ≫= f) = l ≫= (fun x => List.filter P (f x)).
Proof.
  induction l as [|x l IH]; [done|].
  rewrite !bind_cons, List.filter_app. by rewrite IH.
Qed.

Lemma bind_select {A B} `{EqDecision A} (f : A → list B) (b : A)
    (l : list A) :
  NoDup l → b ∈ l →
  (l ≫= fun x => if decide (x = b) then f x else []) = f b.
Proof.
  induction 1 as [|x l Hnotin Hnd IH]; [by intros ?%elem_of_nil|].
  rewrite bind_cons. intros [->|Hin]%elem_of_cons.
  - rewrite decide_True by done.
    assert ((l ≫= fun y => if decide (y = x) then f y else []) = []) as ->;
      [|by rewrite app_nil_r].
    clear IH Hnd. induction l as [|y l IH]; [done|].
    rewrite bind_cons, decide_False.
    + apply IH. intros Hin. apply Hnotin. by right.
    + intros ->. apply Hnotin. by left.
  - rewrite decide_False; [by apply IH|]. intros ->. done.
Qed.

Lemma interleave_frame {A} (h h0 : store A) (boxOrder : list nat) :
  (∀ b, b ∈ boxOrder → h !! b = h0 !! b) →
  interleave h boxOrder = interleave h0 boxOrder.
Proof.
  intros Hsame. unfold interleave. apply list_bind_ext; [|done]. intros i.
  apply Forall_bind_ext, Forall_forall. intros b Hb. by rewrite Hsame.
Qed.

(** The grouping loops leave each box in the row-major order of its
    cells. *)
Lemma groupedBoxes_row_major (b : nat) :
  (b < 9)%nat →
  groupedBoxes !! b = Some (boxCells (b / 3 * 3) (b mod 3 * 3)).
Proof.
  intros Hb. each_below_9 b ltac:(by vm_compute).
Qed.

Lemma groupedBoxes_boxIndex (b i : nat) (p : nat * nat) :
  default [] (groupedBoxes !! b) !! i = Some p → boxIndexOf p = b.
Proof.
  do 9 (destruct b as [|b];
        [do 9 (destruct i as [|i]; [by intros [= <-]|]); done|]).
  done.
Qed.

(** The queue is the interleaving of the boxes as the grouping loops left
    them, in a shuffled order of the boxes. *)
Lemma removalQueue_run (rand : nat → nat) (k : nat) :
  ∃ boxOrder k',
    removalQueue rand k = Some (interleave groupedBoxes boxOrder, k') ∧
    boxOrder ≡ₚ idx9.
Proof.
  unfold removalQueue.
  destruct (shuffleEach_frame rand idx9 groupedBoxes k)
    as (h & k1 & Hrun & _ & Hframe).
  rewrite Hrun. unfold randBind.
  destruct (shuffleLiteral_spec rand idx9 k1) as (boxOrder & Hsh & Hperm).
  rewrite Hsh. exists boxOrder. eexists. split; [|done].
  unfold randRet. do 2 f_equal. apply interleave_frame.
  intros b Hb. apply Hframe. rewrite Hperm in Hb.
  by apply elem_of_idx9 in Hb.
Qed.

(** Whatever the order of the boxes, the positions of one box come out of
    the interleaving in the order they have in the box. *)
Lemma interleave_box (boxOrder : list nat) (b : nat) :
  boxOrder ≡ₚ idx9 → (b < 9)%nat →
  List.filter (fun p => boxIndexOf p =? b)%nat
    (interleave groupedBoxes boxOrder)
  = boxCells (b / 3 * 3) (b mod 3 * 3).
Proof.
  intros Hperm Hb. unfold interleave. rewrite filter_bind.
  assert (∀ i, List.filter (fun p => boxIndexOf p =? b)%nat
                 (boxOrder ≫= fun b' => boxCell groupedBoxes b' i)
               = boxCell groupedBoxes b i) as Hround.
  { intros i. rewrite filter_bind.
    rewrite <- (bind_select (fun b' => boxCell groupedBoxes b' i) b boxOrder).
    - apply list_bind_ext; [|done]. intros b'. unfold boxCell.
      destruct (default [] (groupedBoxes !! b') !! i) as [p|] eqn:Hp.
      + apply groupedBoxes_boxIndex in Hp. simpl. rewrite Hp.
        destruct (decide (b' = b)) as [->|Hne].
        * by rewrite Nat.eqb_refl.
        * apply Nat.eqb_neq in Hne. by rewrite Hne.
      + by destruct (decide (b' = b)).
    - rewrite Hperm. apply NoDup_seq.
    - rewrite Hperm. by apply elem_of_idx9. }
  transitivity (idx9 ≫= boxCell groupedBoxes b).
  { apply list_bind_ext; [|done]. intros i. apply Hround. }
  each_below_9 b ltac:(by vm_compute).
Qed.

(** C5 fails on the code: whatever [Math.random] returns, the removal queue
    visits the positions of each 3x3 box in the fixed row-major order in
    which they were collected.  The arrays returned by [shuffleArray] in the
    [forEach] over the boxes are dropped and the boxes are read unshuffled;
    only the order of the boxes within a round is shuffled. *)
Theorem removalQueue_boxes_unshuffled (rand : nat → nat) (k : nat) :
  ∃ boxOrder k',
    removalQueue rand k = Some (interleave groupedBoxes boxOrder, k') ∧
    boxOrder ≡ₚ idx9 ∧
    ∀ b, (b < 9)%nat →
      List.filter (fun p => boxIndexOf p =? b)%nat
        (interleave groupedBoxes boxOrder)
      = boxCells (b / 3 * 3) (b mod 3 * 3).
Proof.
  destruct (removalQueue_run rand k) as (boxOrder & k' & Hrun & Hperm).
  exists boxOrder, k'. split_and!; [done..|].
  intros b Hb. by apply interleave_box.
Qed.

(** ** generatePuzzle *)

Lemma randBind_Some {A B} (m : Rand A) (f : A → Rand B) (k k' : nat) (b : B) :
  randBind m f k = Some (b, k') →
  ∃ a k1, m k = Some (a, k1) ∧ f a k1 = Some (b, k').
Proof.
  unfold randBind. destruct (m k) as [[a k1]|]; [|done]. intros Hf.
  by exists a, k1.
Qed.

Lemma randRet_Some {A} (a b : A) (k k' : nat) :
  randRet a k = Some (b, k') → b = a ∧ k' = k.
Proof. by intros [= -> ->]. Qed.

Lemma get_set_same (g : grid) (r c : nat) (v : Z) :
  get (set g r c v) r c = v ∨ get (set g r c v) r c = get g r c.
Proof.
  unfold get, set. rewrite list_lookup_alter_eq.
  destruct (g !! r) as [row|]; simpl; [|by right].
  destruct (decide (c < length row)%nat).
  - left. by rewrite list_lookup_insert_eq.
  - right. by rewrite list_insert_ge by lia.
Qed.

Lemma cluesOf_clear (p s : grid) (row col : nat) :
  cluesOf p s → cluesOf (set p row col 0) s.
Proof.
  intros Hsub r c. destruct (decide ((row, col) = (r, c))) as [[= <- <-]|Hne].
  - destruct (get_set_same p row col 0) as [->| ->]; [done|apply Hsub].
  - rewrite get_set_ne by done. apply Hsub.
Qed.

Lemma set_restore (p : grid) (row col : nat) (v : Z) :
  set (set p row col v) row col (get p row col) = p.
Proof. by rewrite set_set, set_get. Qed.

Lemma removeCells_cluesOf (difficulty : string) (cellsToRemove : option nat)
    (positions : list (nat * nat)) (s p p' : grid) (removed : nat) :
  cluesOf p s →
  removeCells difficulty cellsToRemove positions p removed = Some p' →
  cluesOf p' s.
Proof.
  revert p removed.
  induction positions as [|[row col] rest IH]; intros p removed Hsub.
  { by intros [= <-]. }
  cbn [removeCells]. destruct (reached removed cellsToRemove).
  { by intros [= <-]. }
  destruct (_ || _).
  - destruct (hasUniqueSolution (set p row col 0)) as [[|]|]; [| |done].
    + apply IH. by apply cluesOf_clear.
    + rewrite set_restore. by apply IH.
  - apply IH. by apply cluesOf_clear.
Qed.

Lemma generatePuzzleAttempt_cluesOf (rand : nat → nat) (fuel : nat)
    (difficulty : string) (k k' : nat) (data : puzzleData) :
  generatePuzzleAttempt rand fuel difficulty k = Some (Some data, k') →
  cluesOf (puzzle data) (solution data).
Proof.
  unfold generatePuzzleAttempt.
  intros (s & k1 & _ & (r & k2 & _ & (positions & k3 & _ & Hrun)
            %randBind_Some)%randBind_Some)%randBind_Some.
  destruct (removeCells _ _ _ _ _) as [p|] eqn:Hrem; [|done].
  destruct (isValidGrid p false); [|done].
  injection Hrun as <- _. cbn [puzzle solution].
  apply (removeCells_cluesOf _ _ _ s _ _ _) in Hrem; [done|].
  rewrite copyGrid_id. by intros r' c' _.
Qed.

Lemma generatePuzzleLoop_attempt (rand : nat → nat) (fuel : nat)
    (difficulty : string) (attempts k k' : nat) (data : puzzleData) :
  generatePuzzleLoop rand fuel difficulty attempts k = Some (Some data, k') →
  ∃ k1 k2, generatePuzzleAttempt rand fuel difficulty k1 = Some (Some data, k2).
Proof.
  revert k. induction attempts as [|attempts IH]; intros k; [done|].
  cbn [generatePuzzleLoop].
  intros ([data'|] & k1 & Hattempt & Hrest)%randBind_Some.
  - apply randRet_Some in Hrest as [[= ->] ->]. eauto.
  - by apply (IH k1).
Qed.

(** Whatever [generatePuzzle] returns was returned by one pass of its
    loop. *)
Lemma generatePuzzle_attempt (rand : nat → nat) (fuel : nat)
    (difficulty : string) (maxAttempts k k' : nat) (data : puzzleData) :
  generatePuzzle rand fuel difficulty maxAttempts k = Some (data, k') →
  ∃ fuel' k1 k2,
    generatePuzzleAttempt rand fuel' difficulty k1 = Some (Some data, k2).
Proof.
  revert k. induction fuel as [|fuel IH]; intros k; [done|].
  cbn [generatePuzzle].
  intros ([data'|] & k1 & Hloop & Hrest)%randBind_Some.
  - apply randRet_Some in Hrest as [-> ->].
    apply generatePuzzleLoop_attempt in Hloop as (k2 & k3 & Hattempt).
    eauto.
  - by apply (IH k1).
Qed.

(** C2: for every difficulty and every object that [generatePuzzle]
    returns, every non-zero cell of [puzzle] equals the cell of [solution]
    at the same place. *)
Theorem generatePuzzle_clues_from_solution (rand : nat → nat) (fuel : nat)
    (difficulty : string) (maxAttempts k k' : nat) (data : puzzleData) :
  generatePuzzle rand fuel difficulty maxAttempts k = Some (data, k') →
  ∀ r c, get (puzzle data) r c ≠ 0 →
         get (puzzle data) r c = get (solution data) r c.
Proof.
  intros (fuel' & k1 & k2 & Hattempt)%generatePuzzle_attempt.
  by apply generatePuzzleAttempt_cluesOf in Hattempt.
Qed.

Lemma generatePuzzle_clues_from_solution_witness :
  ∃ data k',
    generatePuzzle zeroRandom 2 "easy" 10 0%nat = Some (data, k') ∧
    ∀ r c, get (puzzle data) r c ≠ 0 →
           get (puzzle data) r c = get (solution data) r c.
Proof.
  eexists _, _.
  assert (generatePuzzle zeroRandom 2 "easy" 10 0%nat = Some (_, _)) as Hrun
    by (vm_compute; reflexivity).
  split; [exact Hrun|].
  exact (generatePuzzle_clues_from_solution zeroRandom 2 "easy" 10 0 _ _ Hrun).
Defined.

Lemma fillAndValidate_flag (rand : nat → nat) (k k' : nat) (g : grid)
    (valid : bool) :
  fillAndValidate rand k = Some ((g, valid), k') →
  valid = isValidGrid g true.
Proof.
  unfold fillAndValidate.
  intros ([b g'] & k1 & _ & [[= -> ->] _]%randRet_Some)%randBind_Some. done.
Qed.

Lemma generateSolutionLoop_valid (rand : nat → nat) (attempts k k' : nat)
    (g : grid) :
  generateSolutionLoop rand attempts k = Some (Some g, k') →
  isValidGrid g true = true.
Proof.
  revert k. induction attempts as [|attempts IH]; intros k; [done|].
  cbn [generateSolutionLoop].
  intros ([g' valid] & k1 & Hfill & Hrest)%randBind_Some.
  apply fillAndValidate_flag in Hfill. destruct valid.
  - by apply randRet_Some in Hrest as [[= ->] _].
  - by apply (IH k1).
Qed.

(** [generateSolution] only returns grids that pass [isValidGrid]. *)
Lemma generateSolution_valid (rand : nat → nat) (fuel maxAttempts k k' : nat)
    (g : grid) :
  generateSolution rand fuel maxAttempts k = Some (g, k') →
  isValidGrid g true = true.
Proof.
  revert k. induction fuel as [|fuel IH]; intros k; [done|].
  cbn [generateSolution].
  intros ([g'|] & k1 & Hloop & Hrest)%randBind_Some.
  - apply randRet_Some in Hrest as [-> _].
    by apply generateSolutionLoop_valid in Hloop.
  - apply randBind_Some in Hrest as ([g' valid] & k2 & Hfill & Hrest).
    apply fillAndValidate_flag in Hfill. destruct valid; cbn [negb] in Hrest.
    + by apply randRet_Some in Hrest as [-> _].
    + by apply (IH k2).
Qed.

(** A full grid counts as one solution, whatever it holds. *)
Lemma hasUniqueSolution_complete (g : grid) :
  Complete g → hasUniqueSolution g = Some true.
Proof.
  intros Hfull%findEmptyCell_None. unfold hasUniqueSolution.
  rewrite copyGrid_id. cbn [countSolutions].
  change (1 <? 0)%nat with false. cbv iota. by rewrite Hfull.
Qed.

(** On the two hard levels the removal loop keeps the puzzle uniquely
    solvable in the sense of [hasUniqueSolution]. *)
Lemma removeCells_unique (difficulty : string) (cellsToRemove : option nat)
    (positions : list (nat * nat)) (p p' : grid) (removed : nat) :
  difficulty = "hard"%string ∨ difficulty = "superhard"%string →
  hasUniqueSolution p = Some true →
  removeCells difficulty cellsToRemove positions p removed = Some p' →
  hasUniqueSolution p' = Some true.
Proof.
  intros Hhard. revert p removed.
  induction positions as [|[row col] rest IH]; intros p removed Huniq.
  { by intros [= <-]. }
  cbn [removeCells]. destruct (reached removed cellsToRemove).
  { by intros [= <-]. }
  assert (String.eqb difficulty "hard" || String.eqb difficulty "superhard"
          = true) as ->.
  { by destruct Hhard as [-> | ->]. }
  destruct (hasUniqueSolution (set p row col 0)) as [[|]|] eqn:Hcheck;
    [| |done].
  - by apply IH.
  - rewrite set_restore. by apply IH.
Qed.

(** C1: for every object that [generatePuzzle] returns at difficulty
    ['hard'] or ['superhard'], [countSolutions] applied to the [puzzle]
    field returns 1 and the puzzle has exactly one valid completion. *)
Theorem generatePuzzle_hard_unique (rand : nat → nat) (fuel : nat)
    (difficulty : string) (maxAttempts k k' : nat) (data : puzzleData) :
  difficulty = "hard"%string ∨ difficulty = "superhard"%string →
  generatePuzzle rand fuel difficulty maxAttempts k = Some (data, k') →
  countSolutions 82 (puzzle data) 0 = Some (puzzle data, 1%nat) ∧
  ∃ s, Completion (puzzle data) s ∧
       ∀ s', Completion (puzzle data) s' → s' = s.
Proof.
  intros Hhard (fuel' & k1 & k2 & Hattempt)%generatePuzzle_attempt.
  unfold generatePuzzleAttempt in Hattempt.
  apply randBind_Some in Hattempt as (s & k3 & Hsol & Hattempt).
  apply randBind_Some in Hattempt as (r & k4 & _ & Hattempt).
  apply randBind_Some in Hattempt as (positions & k5 & _ & Hattempt).
  destruct (removeCells _ _ _ _ _) as [p|] eqn:Hrem; [|done].
  destruct (isValidGrid p false) eqn:Hvalid; [|done].
  injection Hattempt as <- _. cbn [puzzle solution].
  apply generateSolution_valid, isValidGrid_spec in Hsol as [_ Hfull].
  apply removeCells_unique in Hrem; [|done|].
  2: { rewrite copyGrid_id. apply hasUniqueSolution_complete. by apply Hfull. }
  apply isValidGrid_spec in Hvalid as [Hcons _].
  destruct (countSolutions_legal p Hcons) as (n & Hrun & _ & Hone & _).
  unfold hasUniqueSolution in Hrem. rewrite copyGrid_id, Hrun in Hrem.
  injection Hrem as Hn%Nat.eqb_eq. subst n. split; [done|]. by apply Hone.
Qed.

Lemma generatePuzzle_hard_unique_witness :
  ∃ data k',
    generatePuzzle zeroRandom 2 "hard" 10 0%nat = Some (data, k') ∧
    countSolutions 82 (puzzle data) 0 = Some (puzzle data, 1%nat) ∧
    ∃ s, Completion (puzzle data) s ∧
         ∀ s', Completion (puzzle data) s' → s' = s.
Proof.
  eexists _, _.
  assert (generatePuzzle zeroRandom 2 "hard" 10 0%nat = Some (_, _)) as Hrun
    by (vm_compute; reflexivity).
  split; [exact Hrun|].
  exact (generatePuzzle_hard_unique zeroRandom 2 "hard" 10 0 _ _
           (or_introl eq_refl) Hrun).
Defined.

(** ** findHint *)

Lemma firstSome_Some {A B} (body : A → option B) (l : list A) (b : B) :
  firstSome body l = Some b → ∃ x, x ∈ l ∧ body x = Some b.
Proof.
  induction l as [|x l IH]; [done|]. cbn [firstSome].
  destruct (body x) as [b'|] eqn:Hx.
  - intros [= ->]. exists x. split; [by left|done].
  - intros (y & Hy & Hb)%IH. exists y. split; [by right|done].
Qed.

Lemma firstSome_None {A B} (body : A → option B) (l : list A) :
  firstSome body l = None ↔ ∀ x, x ∈ l → body x = None.
Proof.
  induction l as [|x l IH]; cbn [firstSome].
  { split; [by intros _ ? ?%elem_of_nil|done]. }
  destruct (body x) as [b|] eqn:Hx.
  - split; [done|]. intros Hall. rewrite Hall in Hx; [done|by left].
  - rewrite IH. split.
    + intros Hall y [->|Hy]%elem_of_cons; [done|by apply Hall].
    + intros Hall y Hy. apply Hall. by right.
Qed.

Lemma findNakedSingle_solution (g : grid) (cands : list (list (list Z)))
    (st : gameState) (h : hint) :
  findNakedSingle g cands st = Some h → agreesWithSolution st h.
Proof.
  unfold findNakedSingle. intros ([row col] & _ & Hbody)%firstSome_Some.
  destruct (_ && _); [|done].
  destruct (get (stateSolution st) row col =? _) eqn:Heq; [|done].
  apply Z.eqb_eq in Heq. injection Hbody as <-. done.
Qed.

Lemma hiddenSingleAt_solution (cands : list (list (list Z)))
    (st : gameState) (row col : nat) (num : Z) (name : string) (h : hint) :
  hiddenSingleAt cands st row col num name = Some h →
  agreesWithSolution st h.
Proof.
  unfold hiddenSingleAt. destruct (_ =? 1)%nat; [done|].
  destruct (get (stateSolution st) row col =? num) eqn:Heq; [|done].
  apply Z.eqb_eq in Heq. intros [= <-]. done.
Qed.

Lemma findHiddenSingleInRow_solution (g : grid)
    (cands : list (list (list Z))) (st : gameState) (h : hint) :
  findHiddenSingleInRow g cands st = Some h → agreesWithSolution st h.
Proof.
  unfold findHiddenSingleInRow.
  intros (row & _ & (num & _ & Hbody)%firstSome_Some)%firstSome_Some.
  destruct (existsb _ _); [done|].
  destruct (List.filter _ _) as [|col [|]]; [done| |done].
  by apply hiddenSingleAt_solution in Hbody.
Qed.

Lemma findHiddenSingleInColumn_solution (g : grid)
    (cands : list (list (list Z))) (st : gameState) (h : hint) :
  findHiddenSingleInColumn g cands st = Some h → agreesWithSolution st h.
Proof.
  unfold findHiddenSingleInColumn.
  intros (col & _ & (num & _ & Hbody)%firstSome_Some)%firstSome_Some.
  destruct (existsb _ _); [done|].
  destruct (List.filter _ _) as [|row [|]]; [done| |done].
  by apply hiddenSingleAt_solution in Hbody.
Qed.

Lemma findHiddenSingleInBox_solution (g : grid)
    (cands : list (list (list Z))) (st : gameState) (h : hint) :
  findHiddenSingleInBox g cands st = Some h → agreesWithSolution st h.
Proof.
  unfold findHiddenSingleInBox.
  intros (boxRow & _ & (boxCol & _ & (num & _ & Hbody)%firstSome_Some)
            %firstSome_Some)%firstSome_Some.
  cbv zeta in Hbody. destruct (existsb _ _); [done|].
  destruct (List.filter _ _) as [|[row col] [|]]; [done| |done].
  by apply hiddenSingleAt_solution in Hbody.
Qed.

Lemma findFallbackHint_solution (st : gameState) (h : hint) :
  findFallbackHint st = Some h → agreesWithSolution st h.
Proof.
  unfold findFallbackHint. intros ([row col] & _ & Hbody)%firstSome_Some.
  destruct (_ && _); [|done]. injection Hbody as <-. done.
Qed.

(** C9: every hint that [findHint] returns, by any of the four techniques
    or by the fallback, has its [number] equal to [state.solution] at the
    cell it reports. *)
Theorem findHint_number_is_solution (st : gameState) (h : hint) :
  findHint st = Some h →
  hintNumber h = get (stateSolution st) (hintRow h) (hintCol h).
Proof.
  unfold findHint.
  destruct (findNakedSingle _ _ st) as [h1|] eqn:H1.
  { intros [= <-]. by apply findNakedSingle_solution in H1. }
  destruct (findHiddenSingleInRow _ _ st) as [h2|] eqn:H2.
  { intros [= <-]. by apply findHiddenSingleInRow_solution in H2. }
  destruct (findHiddenSingleInColumn _ _ st) as [h3|] eqn:H3.
  { intros [= <-]. by apply findHiddenSingleInColumn_solution in H3. }
  destruct (findHiddenSingleInBox _ _ st) as [h4|] eqn:H4.
  { intros [= <-]. by apply findHiddenSingleInBox_solution in H4. }
  apply findFallbackHint_solution.
Qed.

Lemma findHint_number_is_solution_witness :
  findHint oneCellLeft = Some (Hint 0 0 1 "Naked Single") ∧
  hintNumber (Hint 0 0 1 "Naked Single") =
  get (stateSolution oneCellLeft) (hintRow (Hint 0 0 1 "Naked Single"))
    (hintCol (Hint 0 0 1 "Naked Single")).
Proof.
  split; [by vm_compute|].
  apply (findHint_number_is_solution oneCellLeft). by vm_compute.
Defined.

Lemma lookup_map_idx9 {A} (f : nat → A) (i : nat) :
  (i < 9)%nat → map f idx9 !! i = Some (f i).
Proof.
  intros Hi. change (map f idx9) with (f <$> idx9).
  rewrite list_lookup_fmap. unfold idx9. by rewrite lookup_seq_lt.
Qed.

Lemma get_buildCurrentGrid (st : gameState) (r c : nat) :
  (r < 9)%nat → (c < 9)%nat →
  get (buildCurrentGrid st) r c =
  if isOfficial st r c then get (statePuzzle st) r c
  else if negb (get (userEntries st) r c =? 0) then get (userEntries st) r c
       else 0.
Proof.
  intros Hr Hc. unfold get at 1, buildCurrentGrid.
  rewrite lookup_map_idx9 by done. by rewrite lookup_map_idx9.
Qed.

Lemma candidatesAt_filled (g : grid) (r c : nat) :
  (r < 9)%nat → (c < 9)%nat → get g r c ≠ 0 →
  candidatesAt (calculateCandidates g) r c = [].
Proof.
  intros Hr Hc Hnz. unfold candidatesAt, calculateCandidates.
  rewrite lookup_map_idx9 by done. rewrite lookup_map_idx9 by done.
  simpl. apply Z.eqb_neq in Hnz. by rewrite Hnz.
Qed.

Section FullBoard.

Variable st : gameState.
Hypothesis Hfull : Complete (buildCurrentGrid st).

Abbreviation g := (buildCurrentGrid st).
Abbreviation cands := (calculateCandidates (buildCurrentGrid st)).

Lemma has_full (r c : nat) (num : Z) :
  (r < 9)%nat → (c < 9)%nat → has cands r c num = false.
Proof.
  intros Hr Hc. unfold has.
  rewrite candidatesAt_filled; [done..|]. by apply Hfull.
Qed.

Lemma findNakedSingle_full : findNakedSingle g cands st = None.
Proof.
  apply firstSome_None. intros [row col] [Hr Hc]%elem_of_allCells.
  pose proof (Hfull row col Hr Hc) as Hnz. apply Z.eqb_neq in Hnz.
  by rewrite Hnz.
Qed.

Lemma filter_has_nil {A} (f : A → bool) (l : list A) :
  (∀ x, x ∈ l → f x = false) → List.filter f l = [].
Proof.
  induction l as [|x l IH]; intros Hall; [done|]. simpl.
  rewrite Hall by (by left). apply IH. intros y Hy. apply Hall. by right.
Qed.

Lemma findHiddenSingleInRow_full : findHiddenSingleInRow g cands st = None.
Proof.
  apply firstSome_None. intros row Hr%elem_of_idx9.
  apply firstSome_None. intros num _. destruct (existsb _ _); [done|].
  rewrite filter_has_nil; [done|]. intros col Hc%elem_of_idx9.
  by apply has_full.
Qed.

Lemma findHiddenSingleInColumn_full :
  findHiddenSingleInColumn g cands st = None.
Proof.
  apply firstSome_None. intros col Hc%elem_of_idx9.
  apply firstSome_None. intros num _. destruct (existsb _ _); [done|].
  rewrite filter_has_nil; [done|]. intros row Hr%elem_of_idx9.
  by apply has_full.
Qed.

Lemma findHiddenSingleInBox_full : findHiddenSingleInBox g cands st = None.
Proof.
  apply firstSome_None. intros boxRow HbR%elem_of_seq.
  apply firstSome_None. intros boxCol HbC%elem_of_seq.
  apply firstSome_None. intros num _. cbv zeta.
  destruct (existsb _ _); [done|].
  rewrite filter_has_nil; [done|].
  intros [r c] [Hr Hc]%elem_of_boxCells. cbn [fst snd] in *.
  apply has_full; lia.
Qed.

End FullBoard.

Lemma findFallbackHint_None (st : gameState) :
  findFallbackHint st = None ↔
  ¬ ∃ r c, (r < 9)%nat ∧ (c < 9)%nat ∧ openCell st r c.
Proof.
  unfold findFallbackHint. rewrite firstSome_None. unfold openCell. split.
  - intros Hall (r & c & Hr & Hc & Hoff & Huser).
    specialize (Hall (r, c)). cbv beta iota in Hall.
    rewrite Hoff, Huser in Hall. simpl in Hall.
    by discriminate Hall; apply elem_of_allCells.
  - intros Hno [r c] [Hr Hc]%elem_of_allCells.
    destruct (isOfficial st r c) eqn:Hoff; [done|].
    destruct (get (userEntries st) r c =? 0) eqn:Huser; [|done].
    apply Z.eqb_eq in Huser. destruct Hno. by exists r, c.
Qed.

(** Without an open cell, and with a value in every official cell, the
    current grid is full. *)
Lemma buildCurrentGrid_full (st : gameState) :
  (∀ r c, (r < 9)%nat → (c < 9)%nat → isOfficial st r c = true →
          get (statePuzzle st) r c ≠ 0) →
  (¬ ∃ r c, (r < 9)%nat ∧ (c < 9)%nat ∧ openCell st r c) →
  Complete (buildCurrentGrid st).
Proof.
  intros Hoff Hno r c Hr Hc. rewrite get_buildCurrentGrid by done.
  destruct (isOfficial st r c) eqn:Hofficial; [by apply Hoff|].
  destruct (get (userEntries st) r c =? 0) eqn:Huser; simpl.
  - apply Z.eqb_eq in Huser. destruct Hno. by exists r, c.
  - by apply Z.eqb_neq in Huser.
Qed.

(** [findHint] returns null exactly when no cell is open, as soon as no
    official cell is blank. *)
Lemma findHint_None_iff (st : gameState) :
  (∀ r c, (r < 9)%nat → (c < 9)%nat → isOfficial st r c = true →
          get (statePuzzle st) r c ≠ 0) →
  (findHint st = None ↔
   ¬ ∃ r c, (r < 9)%nat ∧ (c < 9)%nat ∧ openCell st r c) ∧
  ((∃ r c, (r < 9)%nat ∧ (c < 9)%nat ∧ openCell st r c) →
   ∃ h, findHint st = Some h).
Proof.
  intros Hoff.
  assert (findHint st = None →
          ¬ ∃ r c, (r < 9)%nat ∧ (c < 9)%nat ∧ openCell st r c) as Hnull.
  { unfold findHint.
    destruct (findNakedSingle _ _ st); [done|].
    destruct (findHiddenSingleInRow _ _ st); [done|].
    destruct (findHiddenSingleInColumn _ _ st); [done|].
    destruct (findHiddenSingleInBox _ _ st); [done|].
    by intros ?%findFallbackHint_None. }
  split; [split; [done|]|].
  - intros Hno. pose proof (buildCurrentGrid_full st Hoff Hno) as Hfull.
    unfold findHint.
    rewrite findNakedSingle_full, findHiddenSingleInRow_full,
      findHiddenSingleInColumn_full, findHiddenSingleInBox_full by done.
    by apply findFallbackHint_None.
  - intros Hopen. destruct (findHint st) as [h|] eqn:Hhint; [by exists h|].
    by destruct (Hnull eq_refl).
Qed.

(** C8: for every game state with four 9x9 tables that keeps the
    invariant of the controller, that a cell is official only where the
    puzzle has a number ([startNewGame], the only writer of [official],
    sets it to [puzzle !== 0]), [findHint] returns null exactly when no
    cell is both non-official and without a user entry; whenever there is
    such a cell it returns a hint. *)
Theorem findHint_null_iff_complete (st : gameState) :
  wfState st →
  (∀ r c, (r < 9)%nat → (c < 9)%nat → isOfficial st r c = true →
          get (statePuzzle st) r c ≠ 0) →
  (findHint st = None ↔
   ¬ ∃ r c, (r < 9)%nat ∧ (c < 9)%nat ∧ openCell st r c) ∧
  ((∃ r c, (r < 9)%nat ∧ (c < 9)%nat ∧ openCell st r c) →
   ∃ h, findHint st = Some h).
Proof. intros _ Hoff. by apply findHint_None_iff. Qed.

Lemma findHint_null_iff_complete_witness :
  (findHint oneCellLeft = None ↔
   ¬ ∃ r c, (r < 9)%nat ∧ (c < 9)%nat ∧ openCell oneCellLeft r c) ∧
  ((∃ r c, (r < 9)%nat ∧ (c < 9)%nat ∧ openCell oneCellLeft r c) →
   ∃ h, findHint oneCellLeft = Some h).
Proof.
  apply (findHint_null_iff_complete oneCellLeft).
  - unfold wfState, wfGrid. split_and!; try reflexivity; by repeat constructor.
  - intros r c Hr Hc.
    each_cell r c ltac:(by vm_compute).
Defined.

(** ** Generation always returns *)

Lemma bind_nil_all {A B} (f : A → list B) (l : list A) :
  (∀ x, x ∈ l → f x = []) → l ≫= f = [].
Proof.
  induction l as [|x l IH]; intros Hall; [done|].
  rewrite bind_cons, Hall by (by left). apply IH.
  intros y Hy. apply Hall. by right.
Qed.

Section FillProperties.

Variable rand : nat → nat.

Lemma fillLoop_branches (rec : grid → Rand (bool * grid))
    (sub : grid → list grid) (row col : nat) (numbers : list Z) (g : grid)
    (k : nat) :
  get g row col = 0 →
  (∀ num k1, num ∈ numbers → isValidPlacement g row col num = true →
     ∃ r k2, rec (set g row col num) k1 = Some (r, k2) ∧
             fillOutcome (sub (set g row col num)) (set g row col num) r) →
  ∃ r k', fillLoop rec row col numbers g k = Some (r, k') ∧
          fillOutcome (branches sub g row col numbers) g r.
Proof.
  intros H0. revert k. unfold branches.
  induction numbers as [|num rest IH]; intros k Hrec.
  { exists (false, g), k. split; [done|]. split; [done|]. by intros _. }
  cbn [fillLoop]. rewrite bind_cons.
  destruct (isValidPlacement g row col num) eqn:Hvalid.
  - destruct (Hrec num k) as ([b g'] & k1 & Hrun & Htrue & Hfalse);
      [by left|done|].
    unfold randBind at 1. rewrite Hrun. destruct b.
    + exists (true, g'), k1. split; [done|]. split; [|done]. intros _.
      apply elem_of_app. left. by apply Htrue.
    + destruct (Hfalse eq_refl) as [Hg' Hnil]. cbn [snd] in Hg'. subst g'.
      rewrite set_undo, Hnil by done.
      apply IH. intros n k2 Hn. apply Hrec. by right.
  - apply IH. intros n k2 Hn. apply Hrec. by right.
Qed.

Lemma fillGrid_completions (fuel : nat) (g : grid) (k : nat) :
  wfGrid g → (emptyCount g < fuel)%nat →
  ∃ r k', fillGrid rand fuel g k = Some (r, k') ∧
          fillOutcome (completions fuel g) g r.
Proof.
  revert g k. induction fuel as [|fuel IH]; intros g k Hwf Hfuel; [lia|].
  cbn [fillGrid completions].
  destruct (findEmptyCell g) as [[row col]|] eqn:Hcell.
  - apply findEmptyCell_Some in Hcell as (Hr & Hc & H0).
    destruct (shuffleLiteral_spec rand nums19 k) as (numbers & Hsh & Hperm).
    unfold randBind at 1. rewrite Hsh.
    destruct (fillLoop_branches (fillGrid rand fuel) (completions fuel)
                row col numbers g (k + (length nums19 - 1))%nat H0)
      as (r & k' & Hrun & Htrue & Hfalse).
    { intros num k1 Hnum Hvalid. apply IH; [by apply wfGrid_set|].
      rewrite Hperm in Hnum. apply nums19_range in Hnum.
      pose proof (emptyCount_set g row col num Hwf Hr Hc H0). lia. }
    exists r, k'. split; [done|]. split.
    + intros Hb. specialize (Htrue Hb). unfold branches in *.
      apply list_elem_of_bind in Htrue as (num & Hin & Hnum).
      apply list_elem_of_bind. exists num. split; [done|]. by rewrite <- Hperm.
    + intros Hb. destruct (Hfalse Hb) as [-> Hnil]. split; [done|].
      unfold branches in Hnil. apply bind_nil_all. intros num Hnum.
      rewrite <- Hperm in Hnum.
      destruct (isValidPlacement g row col num) eqn:Hvalid; [|done].
      destruct (completions fuel (set g row col num)) as [|s sols] eqn:Hs;
        [done|].
      assert (s ∈ numbers ≫= fun n =>
                if isValidPlacement g row col n
                then completions fuel (set g row col n) else []) as Hin.
      { apply list_elem_of_bind. exists num. rewrite Hvalid, Hs.
        split; [by left|done]. }
      rewrite Hnil in Hin. by apply elem_of_nil in Hin.
  - exists (true, g), k. split; [done|]. split; [|done]. intros _. by left.
Qed.

Lemma emptyGrid_completion : Completion emptyGrid firstSolution.
Proof.
  split.
  - assert (isValidGrid firstSolution true = true) as Hvalid by by vm_compute.
    apply isValidGrid_spec in Hvalid as [Hcons Hfull]. split; [done|].
    by apply Hfull.
  - intros r c Hr Hc Hnz. exfalso. apply Hnz.
    each_cell r c done.
Qed.

(** Filling the empty grid always gives a grid that passes validation. *)
Lemma fillAndValidate_valid (k : nat) :
  ∃ g k', fillAndValidate rand k = Some ((g, true), k') ∧
          isValidGrid g true = true.
Proof.
  assert (isValidGrid emptyGrid false = true) as Hempty by by vm_compute.
  apply isValidGrid_spec in Hempty as [Hcons _].
  pose proof (Consistent_wf _ Hcons) as Hwf.
  destruct (completions_spec 82 emptyGrid Hcons (fuel_82 _)) as [_ Hmem].
  destruct (fillGrid_completions 82 emptyGrid k Hwf (fuel_82 _))
    as ([b g] & k' & Hrun & Htrue & Hfalse).
  assert (firstSolution ∈ completions 82 emptyGrid) as Hfirst
    by apply Hmem, emptyGrid_completion.
  destruct b.
  - specialize (Htrue eq_refl). cbn [snd] in Htrue.
    apply Hmem in Htrue as [[Hg Hfull] _].
    assert (isValidGrid g true = true) as Hvalid by by apply isValidGrid_spec.
    exists g, k'. split; [|done].
    unfold fillAndValidate, randBind. rewrite Hrun. unfold randRet.
    by rewrite Hvalid.
  - destruct (Hfalse eq_refl) as [_ Hnil]. rewrite Hnil in Hfirst.
    clear Hnil. apply elem_of_nil in Hfirst. destruct Hfirst.
Qed.

Lemma generateSolution_returns (fuel maxAttempts k : nat) :
  (1 ≤ fuel)%nat →
  ∃ g k', generateSolution rand fuel maxAttempts k = Some (g, k') ∧
          isValidGrid g true = true.
Proof.
  intros Hfuel. destruct fuel as [|fuel]; [lia|]. cbn [generateSolution].
  destruct maxAttempts as [|attempts]; cbn [generateSolutionLoop].
  - unfold randBind at 1. unfold randRet at 1.
    destruct (fillAndValidate_valid k) as (g & k' & Hrun & Hvalid).
    unfold randBind. rewrite Hrun. by exists g, k'.
  - destruct (fillAndValidate_valid k) as (g & k' & Hrun & Hvalid).
    unfold randBind. rewrite Hrun. by exists g, k'.
Qed.

End FillProperties.

Lemma hasUniqueSolution_returns (p : grid) :
  wfGrid p → ∃ b, hasUniqueSolution p = Some b.
Proof.
  intros Hwf. unfold hasUniqueSolution. rewrite copyGrid_id.
  rewrite countSolutions_completions by (done || apply fuel_82 || lia).
  by eexists.
Qed.

Lemma removeCells_returns (difficulty : string) (cellsToRemove : option nat)
    (positions : list (nat * nat)) (p : grid) (removed : nat) :
  wfGrid p →
  ∃ p', removeCells difficulty cellsToRemove positions p removed = Some p' ∧
        wfGrid p'.
Proof.
  revert p removed.
  induction positions as [|[row col] rest IH]; intros p removed Hwf.
  { by exists p. }
  cbn [removeCells]. destruct (reached removed cellsToRemove).
  { by exists p. }
  destruct (_ || _).
  - destruct (hasUniqueSolution_returns (set p row col 0)) as [b Hb];
      [by apply wfGrid_set|].
    rewrite Hb. destruct b; apply IH; by repeat apply wfGrid_set.
  - apply IH. by apply wfGrid_set.
Qed.

(** Clearing cells of a legal grid leaves a legal position. *)
Lemma Consistent_cluesOf (p s : grid) :
  wfGrid p → Consistent s → cluesOf p s → Consistent p.
Proof.
  intros Hwf (_ & Hrange & Hclash) Hsub. split; [done|]. split.
  - intros r c Hr Hc. destruct (decide (get p r c = 0)) as [->|Hnz]; [lia|].
    rewrite Hsub by done. by apply Hrange.
  - intros r c r' c' Hr Hc Hr' Hc' Hne Hpeer Hnz.
    destruct (decide (get p r' c' = 0)) as [->|Hnz']; [done|].
    rewrite (Hsub r c), (Hsub r' c') by done.
    apply Hclash; try done. by rewrite <- Hsub.
Qed.

Section GenerateReturns.

Variable rand : nat → nat.

Lemma removalQueue_returns (k : nat) :
  ∃ positions k', removalQueue rand k = Some (positions, k').
Proof.
  destruct (removalQueue_run rand k) as (order & k' & Hrun & _). eauto.
Qed.

Lemma generatePuzzleAttempt_returns (fuel : nat) (difficulty : string)
    (k : nat) :
  (1 ≤ fuel)%nat →
  ∃ data k', generatePuzzleAttempt rand fuel difficulty k
             = Some (Some data, k').
Proof.
  intros Hfuel. unfold generatePuzzleAttempt.
  destruct (generateSolution_returns rand fuel 10 k Hfuel)
    as (s & k1 & Hsol & Hvalid).
  unfold randBind at 1. rewrite Hsol.
  unfold randBind at 1. unfold randomBelow at 1.
  destruct (removalQueue_returns (S k1)) as (positions & k2 & Hqueue).
  unfold randBind at 1. rewrite Hqueue.
  apply isValidGrid_spec in Hvalid as [Hcons _].
  pose proof (Consistent_wf s Hcons) as Hwf.
  match goal with
  | |- context [removeCells ?d ?n ?ps ?p ?r] =>
      destruct (removeCells_returns d n ps p r) as (p' & Hrem & Hwf');
      [by rewrite copyGrid_id|];
      pose proof (removeCells_cluesOf d n ps s p p' r) as Hsub
  end.
  rewrite Hrem.
  assert (isValidGrid p' false = true) as ->.
  { apply isValidGrid_spec. split; [|done].
    apply (Consistent_cluesOf p' s); [done..|]. apply Hsub; [|done].
    rewrite copyGrid_id. by intros r c _. }
  eauto.
Qed.

End GenerateReturns.

(** [generateSolution] returns, whatever [Math.random] draws and whatever
    [maxAttempts] is, and the grid it returns passes [isValidGrid]: it is
    9x9 with every row, column and box holding each of 1..9 once. *)
Theorem generateSolution_valid_grid (rand : nat → nat)
    (fuel maxAttempts k : nat) :
  (1 ≤ fuel)%nat →
  ∃ g k', generateSolution rand fuel maxAttempts k = Some (g, k') ∧
          isValidGrid g true = true ∧ ValidSolution g.
Proof.
  intros Hfuel.
  destruct (generateSolution_returns rand fuel maxAttempts k Hfuel)
    as (g & k' & Hrun & Hvalid).
  exists g, k'. split_and!; [done..|].
  apply isValidGrid_spec in Hvalid as [Hcons Hfull]. split; [done|].
  by apply Hfull.
Qed.

Lemma generateSolution_valid_grid_witness :
  ∃ g k', generateSolution zeroRandom 1 10 0%nat = Some (g, k') ∧
          isValidGrid g true = true ∧ ValidSolution g.
Proof. apply (generateSolution_valid_grid zeroRandom 1 10 0). lia. Defined.

(** With one pass of the loop allowed and fuel for the calls below it,
    [generatePuzzle] returns an object whatever [Math.random] draws: the
    retries after a failed validation are never taken. *)
Theorem generatePuzzle_returns (rand : nat → nat) (fuel : nat)
    (difficulty : string) (maxAttempts k : nat) :
  (2 ≤ fuel)%nat → (1 ≤ maxAttempts)%nat →
  ∃ data k', generatePuzzle rand fuel difficulty maxAttempts k
             = Some (data, k').
Proof.
  intros Hfuel Hattempts.
  destruct fuel as [|fuel]; [lia|]. destruct maxAttempts as [|attempts]; [lia|].
  cbn [generatePuzzle generatePuzzleLoop].
  destruct (generatePuzzleAttempt_returns rand fuel difficulty k)
    as (data & k' & Hrun); [lia|].
  unfold randBind. rewrite Hrun. unfold randRet. eauto.
Qed.

Lemma generatePuzzle_returns_witness :
  ∃ data k', generatePuzzle zeroRandom 2 "medium" 10 0%nat = Some (data, k').
Proof. apply (generatePuzzle_returns zeroRandom 2 "medium" 10 0); lia. Defined.

(** ** The number of clues on the levels without the uniqueness check *)

Lemma filter_length_split {A} (f : A → bool) (l : list A) :
  (length (List.filter f l) + length (List.filter (fun x => negb (f x)) l)
   = length l)%nat.
Proof.
  induction l as [|x l IH]; [done|]. simpl. destruct (f x); simpl; lia.
Qed.

Lemma clueCount_emptyCount (g : grid) :
  (clueCount g + emptyCount g = 81)%nat.
Proof.
  unfold clueCount, emptyCount.
  pose proof (filter_length_split
                (fun rc : nat * nat => get g rc.1 rc.2 =? 0) allCells) as Hsplit.
  change (length allCells) with 81%nat in Hsplit. lia.
Qed.

Lemma filter_length_S {A} (f f' : A → bool) (l : list A) (x : A) :
  NoDup l → x ∈ l → f x = false → f' x = true →
  (∀ y, y ≠ x → f' y = f y) →
  length (List.filter f' l) = S (length (List.filter f l)).
Proof.
  intros Hnd Hin Hfx Hf'x Hsame.
  induction Hnd as [|y l Hnotin Hnd IH]; [by apply elem_of_nil in Hin|].
  simpl. apply elem_of_cons in Hin as [<-|Hin].
  - rewrite Hfx, Hf'x. simpl. f_equal.
    assert (List.filter f' l = List.filter f l) as ->; [|done].
    clear IH Hnd. induction l as [|z l IH]; [done|]. simpl.
    rewrite Hsame.
    + rewrite IH; [done|]. intros Hin. apply Hnotin. by right.
    + intros ->. apply Hnotin. by left.
  - rewrite Hsame by (intros ->; done).
    destruct (f y); simpl; rewrite IH; done.
Qed.

Lemma NoDup_allCells : NoDup allCells.
Proof. apply (bool_decide_unpack _). by vm_compute. Qed.

(** Clearing a filled cell leaves one empty cell more. *)
Lemma emptyCount_clear (g : grid) (r c : nat) :
  wfGrid g → (r < 9)%nat → (c < 9)%nat → get g r c ≠ 0 →
  emptyCount (set g r c 0) = S (emptyCount g).
Proof.
  intros Hwf Hr Hc Hnz. unfold emptyCount.
  apply (filter_length_S _ _ _ (r, c)).
  - apply NoDup_allCells.
  - by apply elem_of_allCells.
  - simpl. by apply Z.eqb_neq.
  - simpl. by rewrite get_set_eq.
  - intros [r' c'] Hne. simpl. by rewrite get_set_ne.
Qed.

(** Without the uniqueness check the loop clears one cell per position
    until the target is reached. *)
Lemma removeCells_count (difficulty : string) (n : nat)
    (positions : list (nat * nat)) (p p' : grid) (removed : nat) :
  String.eqb difficulty "hard" || String.eqb difficulty "superhard" = false →
  wfGrid p → NoDup positions →
  (∀ rc, rc ∈ positions → rc ∈ allCells ∧ get p rc.1 rc.2 ≠ 0) →
  removeCells difficulty (Some n) positions p removed = Some p' →
  emptyCount p' =
  (emptyCount p + (n - removed) `min` length positions)%nat.
Proof.
  intros Heasy. revert p removed.
  induction positions as [|[row col] rest IH];
    intros p removed Hwf Hnd Hcells.
  { intros [= <-]. simpl. lia. }
  cbn [removeCells reached]. destruct (n <=? removed)%nat eqn:Hreached.
  { intros [= <-]. apply Nat.leb_le in Hreached.
    replace (n - removed)%nat with 0%nat by lia. simpl. lia. }
  apply Nat.leb_gt in Hreached. rewrite Heasy. intros Hrun.
  apply NoDup_cons in Hnd as [Hnotin Hnd].
  destruct (Hcells (row, col)) as [[Hr Hc]%elem_of_allCells Hnz]; [by left|].
  apply IH in Hrun; [| by apply wfGrid_set | done |].
  - rewrite Hrun, emptyCount_clear by done. simpl. lia.
  - intros [r c] Hin. destruct (Hcells (r, c)) as [Hall Hnz']; [by right|].
    split; [done|]. simpl. rewrite get_set_ne; [done|].
    intros [= -> ->]. done.
Qed.

Lemma bind_Permutation_pointwise {A B} (f f' : A → list B) (l : list A) :
  (∀ x, f x ≡ₚ f' x) → l ≫= f ≡ₚ l ≫= f'.
Proof.
  intros Hsame. induction l as [|x l IH]; [done|].
  rewrite !bind_cons. by rewrite Hsame, IH.
Qed.

(** The queue holds each of the 81 cells once. *)
Lemma removalQueue_all_cells (rand : nat → nat) (k k' : nat)
    (positions : list (nat * nat)) :
  removalQueue rand k = Some (positions, k') → positions ≡ₚ allCells.
Proof.
  intros Hrun.
  destruct (removalQueue_run rand k) as (boxOrder & k1 & Hrun' & Hperm).
  rewrite Hrun' in Hrun. injection Hrun as <- _.
  transitivity (interleave groupedBoxes idx9).
  - unfold interleave. apply bind_Permutation_pointwise. intros i.
    by rewrite Hperm.
  - apply NoDup_Permutation.
    + apply (bool_decide_unpack _). by vm_compute.
    + apply NoDup_allCells.
    + intros rc. split; intros Hin.
      * revert rc Hin. apply Forall_forall.
        apply (bool_decide_unpack _). by vm_compute.
      * revert rc Hin. apply Forall_forall.
        apply (bool_decide_unpack _). by vm_compute.
Qed.

(** On every level other than ['hard'] and ['superhard'] whose range is in
    the table (['easy'], ['medium'], and every unknown level, which gets the
    range of ['easy']), the puzzle that [generatePuzzle] returns has a number
    of clues within the range of the level. *)
Theorem generatePuzzle_clue_count (rand : nat → nat) (fuel : nat)
    (difficulty : string) (maxAttempts k k' : nat) (data : puzzleData)
    (mn mx : nat) :
  String.eqb difficulty "hard" || String.eqb difficulty "superhard" = false →
  clueRange difficulty = Some (mn, mx) →
  generatePuzzle rand fuel difficulty maxAttempts k = Some (data, k') →
  (mn ≤ clueCount (puzzle data) ≤ mx)%nat.
Proof.
  intros Heasy Hrange (fuel' & k1 & k2 & Hattempt)%generatePuzzle_attempt.
  assert ((mn ≤ mx)%nat ∧ (mx ≤ 81)%nat) as [Hmn Hmx].
  { unfold clueRange in Hrange.
    destruct (String.eqb difficulty "easy");
      [injection Hrange as <- <-; lia|].
    destruct (String.eqb difficulty "medium");
      [injection Hrange as <- <-; lia|].
    destruct (String.eqb difficulty "hard"); [done|].
    destruct (String.eqb difficulty "superhard"); [done|].
    destruct (existsb _ _); [done|]. injection Hrange as <- <-. lia. }
  unfold generatePuzzleAttempt in Hattempt. rewrite Hrange in Hattempt.
  apply randBind_Some in Hattempt as (s & k3 & Hsol & Hattempt).
  apply randBind_Some in Hattempt as (r & k4 & Hdraw & Hattempt).
  apply randBind_Some in Hattempt as (positions & k5 & Hqueue & Hattempt).
  destruct (removeCells _ _ _ _ _) as [p|] eqn:Hrem; [|done].
  destruct (isValidGrid p false); [|done].
  injection Hattempt as <- _. cbn [puzzle].
  injection Hdraw as <- _.
  apply generateSolution_valid, isValidGrid_spec in Hsol as [Hcons Hfull].
  specialize (Hfull eq_refl).
  apply removalQueue_all_cells in Hqueue.
  rewrite copyGrid_id in Hrem.
  apply removeCells_count in Hrem; [|done|by apply Consistent_wf| |].
  - assert (emptyCount s = 0%nat) as Hzero.
    { unfold emptyCount. apply length_zero_iff_nil.
      apply filter_has_nil. intros [r c] [Hr Hc]%elem_of_allCells. simpl.
      apply Z.eqb_neq. by apply Hfull. }
    rewrite Hzero, Hqueue in Hrem. change (length allCells) with 81%nat in Hrem.
    pose proof (clueCount_emptyCount p).
    pose proof (Nat.mod_upper_bound (rand k3) (mx - mn + 1)). lia.
  - rewrite Hqueue. apply NoDup_allCells.
  - intros [r c] Hin. rewrite Hqueue in Hin. split; [done|].
    apply elem_of_allCells in Hin as [Hr Hc]. by apply Hfull.
Qed.

Lemma generatePuzzle_clue_count_witness :
  ∃ data k',
    generatePuzzle zeroRandom 2 "easy" 10 0%nat = Some (data, k') ∧
    (45 ≤ clueCount (puzzle data) ≤ 50)%nat.
Proof.
  eexists _, _.
  assert (generatePuzzle zeroRandom 2 "easy" 10 0%nat = Some (_, _)) as Hrun
    by (vm_compute; reflexivity).
  split; [exact Hrun|].
  exact (generatePuzzle_clue_count zeroRandom 2 "easy" 10 0 _ _ 45 50
           eq_refl eq_refl Hrun).
Defined.

(** ** How the operations of the generator compose *)

(** On a legal grid, [isValidPlacement] accepts a number for an empty cell
    exactly when the grid with the number placed still passes
    [isValidGrid(grid, false)]. *)
Theorem isValidPlacement_keeps_valid (g : grid) (row col : nat) (num : Z) :
  isValidGrid g false = true →
  (row < 9)%nat → (col < 9)%nat → get g row col = 0 → 1 ≤ num ≤ 9 →
  isValidPlacement g row col num = isValidGrid (set g row col num) false.
Proof.
  intros [Hcons _]%isValidGrid_spec Hr Hc H0 Hnum.
  pose proof (Consistent_wf g Hcons) as Hwf.
  destruct (isValidPlacement g row col num) eqn:Hplace.
  - symmetry. apply isValidGrid_spec. split; [|done].
    by apply Consistent_set.
  - symmetry. apply not_true_iff_false.
    intros [(_ & _ & Hclash) _]%isValidGrid_spec.
    apply not_true_iff_false in Hplace. apply Hplace.
    apply isValidPlacement_spec; [done..|].
    intros r' c' Hr' Hc' Hpeer Hget.
    destruct (decide ((row, col) = (r', c'))) as [[= <- <-]|Hne]; [lia|].
    apply (Hclash row col r' c'); [done..| |].
    + rewrite get_set_eq by done. lia.
    + rewrite get_set_eq by done. by rewrite get_set_ne.
Qed.

Lemma isValidPlacement_keeps_valid_witness :
  isValidPlacement (set firstSolution 8 8 0) 8 8 2
  = isValidGrid (set (set firstSolution 8 8 0) 8 8 2) false.
Proof.
  apply (isValidPlacement_keeps_valid (set firstSolution 8 8 0) 8 8 2);
    (reflexivity || lia).
Defined.

(** For every 9x9 grid, legal or not, [solve] and [countSolutions] agree:
    [solve] returns null exactly when [countSolutions] returns 0, and when
    [countSolutions] returns 1 or 2 the grid that [solve] returns is full. *)
Theorem solve_null_iff_no_solution_counted (g : grid) :
  wfGrid g →
  ∃ r n, solve g = Some r ∧ countSolutions 82 g 0 = Some (g, n) ∧
         (r = None ↔ n = 0%nat) ∧
         (∀ s, r = Some s → findEmptyCell s = None).
Proof.
  intros Hwf. unfold solve. rewrite copyGrid_id.
  rewrite solveGrid_completions by (done || apply fuel_82).
  rewrite countSolutions_completions by (done || apply fuel_82 || lia).
  assert (∀ fuel g' s, wfGrid g' → s ∈ completions fuel g' →
                       findEmptyCell s = None) as Hfull.
  { clear. induction fuel as [|fuel IH]; intros g s Hwf Hs.
    { by apply elem_of_nil in Hs. }
    cbn [completions] in Hs.
    destruct (findEmptyCell g) as [[row col]|] eqn:Hcell.
    - apply list_elem_of_bind in Hs as (num & Hs & _).
      destruct (isValidPlacement g row col num);
        [|by apply elem_of_nil in Hs].
      apply (IH (set g row col num)); [by apply wfGrid_set|done].
    - apply list_elem_of_singleton in Hs. by subst. }
  destruct (completions 82 g) as [|s sols] eqn:Hsols; simpl.
  - exists None, 0%nat. split_and!; done.
  - exists (Some s), (S (length sols) `min` 2)%nat. split_and!; [done..| |].
    + split; [done|lia].
    + intros s' [= <-]. apply (Hfull 82%nat g); [done|].
      rewrite Hsols. by left.
Qed.

Lemma solve_null_iff_no_solution_counted_witness :
  ∃ r n, solve clashGrid = Some r ∧
         countSolutions 82 clashGrid 0 = Some (clashGrid, n) ∧
         (r = None ↔ n = 0%nat) ∧
         (∀ s, r = Some s → findEmptyCell s = None).
Proof.
  apply (solve_null_iff_no_solution_counted clashGrid).
  split; [reflexivity|]. repeat constructor.
Defined.

(** ** What generatePuzzle hands to the game *)

(** The object returned by one pass of [generatePuzzle]: the solution
    passed [isValidGrid(solution)], the puzzle passed
    [isValidGrid(puzzle, false)], and the clues are cells of the solution. *)
Lemma generatePuzzleAttempt_checked (rand : nat → nat) (fuel : nat)
    (difficulty : string) (k k' : nat) (data : puzzleData) :
  generatePuzzleAttempt rand fuel difficulty k = Some (Some data, k') →
  isValidGrid (solution data) true = true ∧
  isValidGrid (puzzle data) false = true ∧
  cluesOf (puzzle data) (solution data).
Proof.
  intros Hattempt.
  pose proof (generatePuzzleAttempt_cluesOf _ _ _ _ _ _ Hattempt) as Hclues.
  unfold generatePuzzleAttempt in Hattempt.
  apply randBind_Some in Hattempt as (s & k3 & Hsol & Hattempt).
  apply randBind_Some in Hattempt as (r & k4 & _ & Hattempt).
  apply randBind_Some in Hattempt as (positions & k5 & _ & Hattempt).
  destruct (removeCells _ _ _ _ _) as [p|] eqn:Hrem; [|done].
  destruct (isValidGrid p false) eqn:Hvalid; [|done].
  injection Hattempt as <- _. cbn [puzzle solution] in *.
  by apply generateSolution_valid in Hsol.
Qed.

(** The stored solution completes the puzzle. *)
Lemma checked_Completion (p s : grid) :
  isValidGrid s true = true → cluesOf p s → Completion p s.
Proof.
  intros [Hcons Hfull]%isValidGrid_spec Hclues. split.
  - split; [done|]. by apply Hfull.
  - intros r c _ _ Hnz. symmetry. by apply Hclues.
Qed.

(** For every difficulty, the object that [generatePuzzle] returns holds a
    complete valid [solution] and a [puzzle] that passes
    [isValidGrid(puzzle, false)], the solution is a valid completion of the
    puzzle, and [solve(puzzle)] returns a valid completion of the puzzle,
    never null. *)
Theorem generatePuzzle_solvable (rand : nat → nat) (fuel : nat)
    (difficulty : string) (maxAttempts k k' : nat) (data : puzzleData) :
  generatePuzzle rand fuel difficulty maxAttempts k = Some (data, k') →
  isValidGrid (solution data) true = true ∧
  isValidGrid (puzzle data) false = true ∧
  Completion (puzzle data) (solution data) ∧
  ∃ s, solve (puzzle data) = Some (Some s) ∧ Completion (puzzle data) s.
Proof.
  intros (fuel' & k1 & k2 & Hattempt)%generatePuzzle_attempt.
  apply generatePuzzleAttempt_checked in Hattempt as (Hsol & Hpuz & Hclues).
  pose proof (checked_Completion _ _ Hsol Hclues) as Hcompl.
  do 3 (split; [assumption|]).
  apply isValidGrid_spec in Hpuz as [Hcons _].
  pose proof (Consistent_wf _ Hcons) as Hwf.
  destruct (completions_spec 82 (puzzle data) Hcons (fuel_82 _)) as [_ Hmem].
  unfold solve. rewrite copyGrid_id.
  rewrite (solveGrid_completions 82 (puzzle data) Hwf (fuel_82 _)).
  destruct (completions 82 (puzzle data)) as [|s sols] eqn:Hsols.
  - apply Hmem in Hcompl. by apply elem_of_nil in Hcompl.
  - exists s. split; [done|]. apply Hmem. by left.
Qed.

Lemma generatePuzzle_solvable_witness :
  ∃ data k',
    generatePuzzle zeroRandom 2 "medium" 10 0%nat = Some (data, k') ∧
    isValidGrid (solution data) true = true ∧
    isValidGrid (puzzle data) false = true ∧
    Completion (puzzle data) (solution data) ∧
    ∃ s, solve (puzzle data) = Some (Some s) ∧ Completion (puzzle data) s.
Proof.
  eexists _, _.
  assert (generatePuzzle zeroRandom 2 "medium" 10 0%nat = Some (_, _)) as Hrun
    by (vm_compute; reflexivity).
  split; [exact Hrun|].
  exact (generatePuzzle_solvable zeroRandom 2 "medium" 10 0 _ _ Hrun).
Defined.

(** On the two hard levels a pass of [generatePuzzle] ends with a puzzle
    for which [hasUniqueSolution] holds. *)
Lemma generatePuzzleAttempt_unique (rand : nat → nat) (fuel : nat)
    (difficulty : string) (k k' : nat) (data : puzzleData) :
  difficulty = "hard"%string ∨ difficulty = "superhard"%string →
  generatePuzzleAttempt rand fuel difficulty k = Some (Some data, k') →
  hasUniqueSolution (puzzle data) = Some true.
Proof.
  intros Hhard Hattempt. unfold generatePuzzleAttempt in Hattempt.
  apply randBind_Some in Hattempt as (s & k3 & Hsol & Hattempt).
  apply randBind_Some in Hattempt as (r & k4 & _ & Hattempt).
  apply randBind_Some in Hattempt as (positions & k5 & _ & Hattempt).
  destruct (removeCells _ _ _ _ _) as [p|] eqn:Hrem; [|done].
  destruct (isValidGrid p false) eqn:Hvalid; [|done].
  injection Hattempt as <- _. cbn [puzzle solution].
  apply generateSolution_valid, isValidGrid_spec in Hsol as [_ Hfull].
  apply removeCells_unique in Hrem; [done..|].
  rewrite copyGrid_id. apply hasUniqueSolution_complete. by apply Hfull.
Qed.

(** Round trip on the two hard levels: [solve] applied to the puzzle that
    [generatePuzzle] returns gives back the solution it returns with it. *)
Theorem generatePuzzle_hard_solve_is_solution (rand : nat → nat) (fuel : nat)
    (difficulty : string) (maxAttempts k k' : nat) (data : puzzleData) :
  difficulty = "hard"%string ∨ difficulty = "superhard"%string →
  generatePuzzle rand fuel difficulty maxAttempts k = Some (data, k') →
  solve (puzzle data) = Some (Some (solution data)).
Proof.
  intros Hhard (fuel' & k1 & k2 & Hattempt)%generatePuzzle_attempt.
  pose proof (generatePuzzleAttempt_unique _ _ _ _ _ _ Hhard Hattempt)
    as Huniq.
  apply generatePuzzleAttempt_checked in Hattempt as (Hsol & Hpuz & Hclues).
  pose proof (checked_Completion _ _ Hsol Hclues) as Hcompl.
  apply isValidGrid_spec in Hpuz as [Hcons _].
  pose proof (Consistent_wf _ Hcons) as Hwf.
  destruct (completions_spec 82 (puzzle data) Hcons (fuel_82 _)) as [_ Hmem].
  pose proof (countSolutions_completions 82 (puzzle data) 0 Hwf (fuel_82 _)
                ltac:(lia)) as Hcount.
  unfold hasUniqueSolution in Huniq. rewrite copyGrid_id in Huniq.
  unfold solve. rewrite copyGrid_id.
  rewrite (solveGrid_completions 82 (puzzle data) Hwf (fuel_82 _)).
  apply Hmem in Hcompl.
  destruct (completions 82 (puzzle data)) as [|s [|s' sols]];
    rewrite Hcount in Huniq; cbn [length] in Huniq.
  - by apply elem_of_nil in Hcompl.
  - apply list_elem_of_singleton in Hcompl. by subst.
  - exfalso. clear -Huniq. simpl in Huniq. discriminate.
Qed.

Lemma generatePuzzle_hard_solve_is_solution_witness :
  ∃ data k',
    generatePuzzle zeroRandom 2 "hard" 10 0%nat = Some (data, k') ∧
    solve (puzzle data) = Some (Some (solution data)).
Proof.
  eexists _, _.
  assert (generatePuzzle zeroRandom 2 "hard" 10 0%nat = Some (_, _)) as Hrun
    by (vm_compute; reflexivity).
  split; [exact Hrun|].
  exact (generatePuzzle_hard_solve_is_solution zeroRandom 2 "hard" 10 0 _ _
           (or_introl eq_refl) Hrun).
Defined.

(** ** Never fewer clues than the level's minimum *)

Lemma filter_length_le_S {A} `{EqDecision A} (f f' : A → bool) (l : list A)
    (x : A) :
  NoDup l → (∀ y, y ≠ x → f' y = f y) →
  (length (List.filter f' l) ≤ S (length (List.filter f l)))%nat.
Proof.
  intros Hnd Hsame. induction Hnd as [|y l Hnotin Hnd IH]; simpl; [lia|].
  destruct (decide (y = x)) as [->|Hne].
  - assert (List.filter f' l = List.filter f l) as ->.
    { clear IH Hnd. induction l as [|z l IH]; [done|]. simpl.
      rewrite Hsame.
      - rewrite IH; [done|]. intros Hin. apply Hnotin. by right.
      - intros ->. apply Hnotin. by left. }
    destruct (f' x), (f x); simpl; lia.
  - rewrite Hsame by done. destruct (f y); simpl; lia.
Qed.

(** Writing one cell changes the number of empty cells by at most one. *)
Lemma emptyCount_set_le (g : grid) (r c : nat) (v : Z) :
  (emptyCount (set g r c v) ≤ S (emptyCount g))%nat.
Proof.
  unfold emptyCount. apply (filter_length_le_S _ _ _ (r, c)).
  - apply NoDup_allCells.
  - intros [r' c'] Hne. simpl. by rewrite get_set_ne.
Qed.

(** The loop never empties more cells than the target, on any level. *)
Lemma removeCells_at_most (difficulty : string) (n : nat)
    (positions : list (nat * nat)) (p p' : grid) (removed : nat) :
  removeCells difficulty (Some n) positions p removed = Some p' →
  (emptyCount p' ≤ emptyCount p + (n - removed))%nat.
Proof.
  revert p removed.
  induction positions as [|[row col] rest IH]; intros p removed.
  { intros [= <-]. lia. }
  cbn [removeCells reached]. destruct (n <=? removed)%nat eqn:Hreached.
  { intros [= <-]. lia. }
  apply Nat.leb_gt in Hreached.
  pose proof (emptyCount_set_le p row col 0) as Hle.
  destruct (_ || _).
  - destruct (hasUniqueSolution (set p row col 0)) as [[|]|]; [| |done].
    + intros Hrun%IH. lia.
    + rewrite set_restore. intros Hrun%IH. lia.
  - intros Hrun%IH. lia.
Qed.

(** On every level whose range [min..max] is in the table (the four levels
    and every unknown one), the puzzle that [generatePuzzle] returns has at
    least [min] clues; on ['hard'] and ['superhard'] it may have more than
    [max], when removals are refused. *)
Theorem generatePuzzle_min_clues (rand : nat → nat) (fuel : nat)
    (difficulty : string) (maxAttempts k k' : nat) (data : puzzleData)
    (mn mx : nat) :
  clueRange difficulty = Some (mn, mx) →
  generatePuzzle rand fuel difficulty maxAttempts k = Some (data, k') →
  (mn ≤ clueCount (puzzle data))%nat.
Proof.
  intros Hrange (fuel' & k1 & k2 & Hattempt)%generatePuzzle_attempt.
  assert ((mn ≤ mx)%nat ∧ (mx ≤ 81)%nat) as [Hmn Hmx].
  { unfold clueRange in Hrange.
    repeat (destruct (String.eqb difficulty _);
            [injection Hrange as <- <-; lia|]).
    destruct (existsb _ _); [done|]. injection Hrange as <- <-. lia. }
  unfold generatePuzzleAttempt in Hattempt. rewrite Hrange in Hattempt.
  apply randBind_Some in Hattempt as (s & k3 & Hsol & Hattempt).
  apply randBind_Some in Hattempt as (r & k4 & Hdraw & Hattempt).
  apply randBind_Some in Hattempt as (positions & k5 & _ & Hattempt).
  destruct (removeCells _ _ _ _ _) as [p|] eqn:Hrem; [|done].
  destruct (isValidGrid p false); [|done].
  injection Hattempt as <- _. cbn [puzzle].
  injection Hdraw as <- _.
  apply generateSolution_valid, isValidGrid_spec in Hsol as [_ Hfull].
  specialize (Hfull eq_refl).
  rewrite copyGrid_id in Hrem. apply removeCells_at_most in Hrem.
  assert (emptyCount s = 0%nat) as Hzero.
  { unfold emptyCount. apply length_zero_iff_nil.
    apply filter_has_nil. intros [r c] [Hr Hc]%elem_of_allCells. simpl.
    apply Z.eqb_neq. by apply Hfull. }
  pose proof (clueCount_emptyCount p).
  pose proof (Nat.mod_upper_bound (rand k3) (mx - mn + 1)). lia.
Qed.

Lemma generatePuzzle_min_clues_witness :
  ∃ data k',
    generatePuzzle zeroRandom 2 "medium" 10 0%nat = Some (data, k') ∧
    (28 ≤ clueCount (puzzle data))%nat.
Proof.
  eexists _, _.
  assert (generatePuzzle zeroRandom 2 "medium" 10 0%nat = Some (_, _)) as Hrun
    by (vm_compute; reflexivity).
  split; [exact Hrun|].
  exact (generatePuzzle_min_clues zeroRandom 2 "medium" 10 0 _ _ 28 32
           eq_refl Hrun).
Defined.

(** ** Clues are spread evenly over the boxes *)

Lemma boxClues_boxEmpties (g : grid) (b : nat) :
  (boxClues g b + boxEmpties g b = 9)%nat.
Proof.
  unfold boxClues, boxEmpties.
  pose proof (filter_length_split
                (fun rc : nat * nat => get g rc.1 rc.2 =? 0)
                (boxCells (b / 3 * 3) (b mod 3 * 3))) as Hsplit.
  change (length (boxCells _ _)) with 9%nat in Hsplit. lia.
Qed.

Lemma elem_of_boxCells_index (b : nat) (rc : nat * nat) :
  (b < 9)%nat →
  rc ∈ boxCells (b / 3 * 3) (b mod 3 * 3) ↔
  rc ∈ allCells ∧ boxIndexOf rc = b.
Proof.
  intros Hb. destruct rc as [r c].
  rewrite elem_of_boxCells, elem_of_allCells. unfold boxIndexOf.
  cbn [fst snd].
  pose proof (Nat.div_mod_eq r 3). pose proof (Nat.mod_upper_bound r 3).
  pose proof (Nat.div_mod_eq c 3). pose proof (Nat.mod_upper_bound c 3).
  pose proof (Nat.div_mod_eq b 3). pose proof (Nat.mod_upper_bound b 3).
  lia.
Qed.

(** Clearing a filled cell adds one empty cell to the box of the cell and
    none to the other boxes. *)
Lemma boxEmpties_clear (g : grid) (r c b : nat) :
  wfGrid g → (r < 9)%nat → (c < 9)%nat → (b < 9)%nat → get g r c ≠ 0 →
  boxEmpties (set g r c 0) b =
  (boxEmpties g b + if (boxIndexOf (r, c) =? b)%nat then 1 else 0)%nat.
Proof.
  intros Hwf Hr Hc Hb Hnz. unfold boxEmpties.
  destruct (boxIndexOf (r, c) =? b)%nat eqn:Hbox.
  - apply Nat.eqb_eq in Hbox. rewrite Nat.add_1_r.
    apply (filter_length_S _ _ _ (r, c)).
    + apply NoDup_boxCells.
    + apply elem_of_boxCells_index; [done|]. split; [|done].
      by apply elem_of_allCells.
    + simpl. by apply Z.eqb_neq.
    + simpl. by rewrite get_set_eq.
    + intros [r' c'] Hne. simpl. by rewrite get_set_ne.
  - apply Nat.eqb_neq in Hbox. rewrite Nat.add_0_r. f_equal.
    apply List.filter_ext_in. intros [r' c'] Hin%list_elem_of_In.
    apply elem_of_boxCells_index in Hin as [_ Hin]; [|done].
    simpl. rewrite get_set_ne; [done|]. intros [= -> ->]. done.
Qed.

(** Without the uniqueness check, the empty cells that the loop adds to a
    box are the positions of that box among the first positions of the
    queue, up to the target. *)
Lemma removeCells_box_count (difficulty : string) (n b : nat)
    (positions : list (nat * nat)) (p p' : grid) (removed : nat) :
  String.eqb difficulty "hard" || String.eqb difficulty "superhard" = false →
  (b < 9)%nat → wfGrid p → NoDup positions →
  (∀ rc, rc ∈ positions → rc ∈ allCells ∧ get p rc.1 rc.2 ≠ 0) →
  removeCells difficulty (Some n) positions p removed = Some p' →
  boxEmpties p' b =
  (boxEmpties p b + inBoxCount b (take (n - removed) positions))%nat.
Proof.
  intros Heasy Hb. revert p removed.
  induction positions as [|[row col] rest IH];
    intros p removed Hwf Hnd Hcells.
  { intros [= <-]. rewrite take_nil. unfold inBoxCount. simpl. lia. }
  cbn [removeCells reached]. destruct (n <=? removed)%nat eqn:Hreached.
  { intros [= <-]. apply Nat.leb_le in Hreached.
    replace (n - removed)%nat with 0%nat by lia.
    unfold inBoxCount. simpl. lia. }
  apply Nat.leb_gt in Hreached. rewrite Heasy. intros Hrun.
  apply NoDup_cons in Hnd as [Hnotin Hnd].
  destruct (Hcells (row, col)) as [[Hr Hc]%elem_of_allCells Hnz]; [by left|].
  apply IH in Hrun; [| by apply wfGrid_set | done |].
  - rewrite Hrun, boxEmpties_clear by done.
    replace (n - removed)%nat with (S (n - S removed)) by lia.
    unfold inBoxCount. cbn [take List.filter].
    destruct (boxIndexOf (row, col) =? b)%nat; simpl; lia.
  - intros [r c] Hin. destruct (Hcells (r, c)) as [Hall Hnz']; [by right|].
    split; [done|]. simpl. rewrite get_set_ne; [done|].
    intros [= -> ->]. done.
Qed.

(** Each round of the interleaving takes one position from each box, in
    the order of the boxes. *)
Lemma interleave_box_indices (boxOrder : list nat) :
  boxOrder ≡ₚ idx9 →
  map boxIndexOf (interleave groupedBoxes boxOrder)
  = idx9 ≫= fun _ => boxOrder.
Proof.
  intros Hperm. unfold interleave.
  assert (∀ i l, (i < 9)%nat → (∀ b, b ∈ l → b < 9)%nat →
            map boxIndexOf (l ≫= fun b => boxCell groupedBoxes b i) = l)
    as Hround.
  { intros i l Hi. induction l as [|b l IH]; intros Hl; [done|].
    rewrite bind_cons, map_app, IH by (intros b' Hb'; apply Hl; by right).
    assert (b < 9)%nat as Hb by (apply Hl; by left).
    unfold boxCell.
    destruct (default [] (groupedBoxes !! b) !! i) as [p|] eqn:Hp.
    - apply groupedBoxes_boxIndex in Hp. simpl. by rewrite Hp.
    - exfalso. revert Hp. clear -Hi Hb.
      each_below_9 b ltac:(each_below_9 i ltac:(by vm_compute)). }
  assert (∀ l : list nat, (∀ i, i ∈ l → i < 9)%nat →
            map boxIndexOf
              (l ≫= fun i => boxOrder ≫= fun b => boxCell groupedBoxes b i)
            = l ≫= fun _ => boxOrder) as Hall.
  { induction l as [|i l IH]; intros Hl; [done|].
    rewrite !bind_cons, map_app, IH by (intros i' Hi'; apply Hl; by right).
    f_equal. apply Hround; [apply Hl; by left|].
    intros b Hb. rewrite Hperm in Hb. by apply elem_of_idx9 in Hb. }
  apply Hall. intros i Hi. by apply elem_of_idx9 in Hi.
Qed.

Lemma filter_take_length_le {A} (f : A → bool) (m : nat) (l : list A) :
  (length (List.filter f (take m l)) ≤ length (List.filter f l))%nat.
Proof.
  rewrite <- (take_drop m l) at 2. rewrite List.filter_app, length_app. lia.
Qed.

(** Among the first [m] elements of [k] repetitions of a list of nine
    distinct boxes, a box occurs [m / 9] times, rounded down or up. *)
Lemma count_in_rounds (o : list nat) (b a k m : nat) :
  NoDup o → length o = 9%nat → b ∈ o → (m ≤ 9 * k)%nat →
  (m / 9 ≤ length (List.filter (fun x => x =? b)%nat
                     (take m (seq a k ≫= fun _ => o)))
        ≤ (m + 8) / 9)%nat.
Proof.
  intros Hnd Hlen Hin.
  assert (length (List.filter (fun x => x =? b)%nat o) = 1%nat) as Hone.
  { clear Hlen. induction Hnd as [|x o Hnotin Hnd IH];
      [by apply elem_of_nil in Hin|].
    simpl. apply elem_of_cons in Hin as [<-|Hin].
    - rewrite Nat.eqb_refl. simpl. f_equal. apply length_zero_iff_nil.
      apply filter_has_nil. intros y Hy. apply Nat.eqb_neq. intros ->. done.
    - assert (x ≠ b) as Hne%Nat.eqb_neq by (intros ->; done).
      rewrite Hne. by apply IH. }
  revert a m. induction k as [|k IH]; intros a m Hm.
  { replace m with 0%nat by lia. rewrite take_0.
    cbn [List.filter length]. by vm_compute. }
  cbn [seq]. rewrite bind_cons, take_app, List.filter_app, length_app, Hlen.
  destruct (decide (m < 9)%nat) as [Hlt|Hge].
  - replace (m - 9)%nat with 0%nat by lia. rewrite take_0.
    cbn [List.filter length]. rewrite Nat.add_0_r.
    pose proof (filter_take_length_le (fun x => x =? b)%nat m o) as Hle.
    rewrite Hone in Hle.
    replace (m / 9)%nat with 0%nat by (symmetry; apply Nat.div_small; lia).
    destruct (decide (m = 0)%nat) as [->|Hpos].
    + rewrite take_0. cbn [List.filter length]. by vm_compute.
    + assert ((m + 8) / 9 = 1)%nat as ->; [|lia].
      pose proof (Nat.div_mod_eq (m + 8) 9).
      pose proof (Nat.mod_upper_bound (m + 8) 9). lia.
  - rewrite take_ge by lia. rewrite Hone.
    specialize (IH (S a) (m - 9)%nat ltac:(lia)).
    pose proof (Nat.div_mod_eq m 9). pose proof (Nat.mod_upper_bound m 9).
    pose proof (Nat.div_mod_eq (m - 9) 9).
    pose proof (Nat.mod_upper_bound (m - 9) 9).
    pose proof (Nat.div_mod_eq (m + 8) 9).
    pose proof (Nat.mod_upper_bound (m + 8) 9).
    pose proof (Nat.div_mod_eq (m - 9 + 8) 9).
    pose proof (Nat.mod_upper_bound (m - 9 + 8) 9).
    lia.
Qed.

Lemma inBoxCount_map (b : nat) (l : list (nat * nat)) :
  inBoxCount b l
  = length (List.filter (fun x => x =? b)%nat (map boxIndexOf l)).
Proof.
  unfold inBoxCount. induction l as [|rc l IH]; [done|]. simpl.
  destruct (boxIndexOf rc =? b)%nat; simpl; by rewrite IH.
Qed.

(** The first [m] positions of the queue hold [m / 9] positions of each
    box, rounded down or up. *)
Lemma removalQueue_box_share (rand : nat → nat) (k k' b m : nat)
    (positions : list (nat * nat)) :
  removalQueue rand k = Some (positions, k') → (b < 9)%nat → (m ≤ 81)%nat →
  (m / 9 ≤ inBoxCount b (take m positions) ≤ (m + 8) / 9)%nat.
Proof.
  intros Hrun Hb Hm.
  destruct (removalQueue_run rand k) as (boxOrder & k1 & Hrun' & Hperm).
  rewrite Hrun' in Hrun. injection Hrun as <- _.
  rewrite inBoxCount_map.
  change (map boxIndexOf (take m ?l)) with (boxIndexOf <$> take m l).
  rewrite fmap_take.
  change (boxIndexOf <$> ?l) with (map boxIndexOf l).
  rewrite interleave_box_indices by done.
  apply count_in_rounds.
  - rewrite Hperm. apply NoDup_seq.
  - by rewrite Hperm.
  - rewrite Hperm. by apply elem_of_idx9.
  - lia.
Qed.

(** On every level other than ['hard'] and ['superhard'] whose range
    [min..max] is in the table, the clues of the puzzle that
    [generatePuzzle] returns are spread evenly: every 3x3 box holds between
    [min / 9] (rounded down) and [max / 9] (rounded up) clues, and the
    numbers of clues of two boxes differ by one at most. *)
Theorem generatePuzzle_boxes_balanced (rand : nat → nat) (fuel : nat)
    (difficulty : string) (maxAttempts k k' : nat) (data : puzzleData)
    (mn mx : nat) :
  String.eqb difficulty "hard" || String.eqb difficulty "superhard" = false →
  clueRange difficulty = Some (mn, mx) →
  generatePuzzle rand fuel difficulty maxAttempts k = Some (data, k') →
  (∀ b, (b < 9)%nat →
     (mn / 9 ≤ boxClues (puzzle data) b ≤ (mx + 8) / 9)%nat) ∧
  (∀ b b', (b < 9)%nat → (b' < 9)%nat →
     (boxClues (puzzle data) b ≤ boxClues (puzzle data) b' + 1)%nat).
Proof.
  intros Heasy Hrange (fuel' & k1 & k2 & Hattempt)%generatePuzzle_attempt.
  assert ((mn ≤ mx)%nat ∧ (mx ≤ 81)%nat) as [Hmn Hmx].
  { unfold clueRange in Hrange.
    destruct (String.eqb difficulty "easy");
      [injection Hrange as <- <-; lia|].
    destruct (String.eqb difficulty "medium");
      [injection Hrange as <- <-; lia|].
    destruct (String.eqb difficulty "hard"); [done|].
    destruct (String.eqb difficulty "superhard"); [done|].
    destruct (existsb _ _); [done|]. injection Hrange as <- <-. lia. }
  unfold generatePuzzleAttempt in Hattempt. rewrite Hrange in Hattempt.
  apply randBind_Some in Hattempt as (s & k3 & Hsol & Hattempt).
  apply randBind_Some in Hattempt as (r & k4 & Hdraw & Hattempt).
  apply randBind_Some in Hattempt as (positions & k5 & Hqueue & Hattempt).
  destruct (removeCells _ _ _ _ _) as [p|] eqn:Hrem; [|done].
  destruct (isValidGrid p false); [|done].
  injection Hattempt as <- _. cbn [puzzle].
  injection Hdraw as <- _.
  apply generateSolution_valid, isValidGrid_spec in Hsol as [Hcons Hfull].
  specialize (Hfull eq_refl).
  pose proof (removalQueue_all_cells _ _ _ _ Hqueue) as Hall.
  rewrite copyGrid_id in Hrem.
  pose proof (Nat.mod_upper_bound (rand k3) (mx - mn + 1) ltac:(lia)) as Hr.
  set (t := (rand k3 mod (mx - mn + 1) + mn)%nat) in *.
  assert (∀ b, (b < 9)%nat →
            ((81 - t) / 9 ≤ boxEmpties p b ≤ (81 - t + 8) / 9)%nat) as Hshare.
  { intros b Hb.
    assert (NoDup positions) as Hnd
      by (rewrite Hall; apply NoDup_allCells).
    assert (∀ rc, rc ∈ positions → rc ∈ allCells ∧ get s rc.1 rc.2 ≠ 0)
      as Hcells.
    { intros [r c] Hin. rewrite Hall in Hin. split; [done|].
      apply elem_of_allCells in Hin as [? ?]. by apply Hfull. }
    rewrite (removeCells_box_count _ _ b _ _ _ _ Heasy Hb
               (Consistent_wf _ Hcons) Hnd Hcells Hrem).
    assert (boxEmpties s b = 0%nat) as ->.
    { unfold boxEmpties. apply length_zero_iff_nil. apply filter_has_nil.
      intros [r c] [[Hr' Hc']%elem_of_allCells _]%elem_of_boxCells_index;
        [|done].
      simpl. apply Z.eqb_neq. by apply Hfull. }
    rewrite Nat.sub_0_r. simpl.
    apply (removalQueue_box_share rand k4 k5); [done..|lia]. }
  assert (t ≤ 81 ∧ mn ≤ t ≤ mx)%nat as Ht by (unfold t; lia).
  clearbody t. split.
  - intros b Hb. specialize (Hshare b Hb).
    pose proof (boxClues_boxEmpties p b).
    pose proof (Nat.div_mod_eq (81 - t) 9).
    pose proof (Nat.mod_upper_bound (81 - t) 9).
    pose proof (Nat.div_mod_eq (81 - t + 8) 9).
    pose proof (Nat.mod_upper_bound (81 - t + 8) 9).
    pose proof (Nat.div_mod_eq mn 9). pose proof (Nat.mod_upper_bound mn 9).
    pose proof (Nat.div_mod_eq (mx + 8) 9).
    pose proof (Nat.mod_upper_bound (mx + 8) 9).
    lia.
  - intros b b' Hb Hb'.
    pose proof (Hshare b Hb). pose proof (Hshare b' Hb').
    pose proof (boxClues_boxEmpties p b).
    pose proof (boxClues_boxEmpties p b').
    pose proof (Nat.div_mod_eq (81 - t) 9).
    pose proof (Nat.mod_upper_bound (81 - t) 9).
    pose proof (Nat.div_mod_eq (81 - t + 8) 9).
    pose proof (Nat.mod_upper_bound (81 - t + 8) 9).
    lia.
Qed.

Lemma generatePuzzle_boxes_balanced_witness :
  ∃ data k',
    generatePuzzle zeroRandom 2 "easy" 10 0%nat = Some (data, k') ∧
    (∀ b, (b < 9)%nat →
       (45 / 9 ≤ boxClues (puzzle data) b ≤ (50 + 8) / 9)%nat) ∧
    (∀ b b', (b < 9)%nat → (b' < 9)%nat →
       (boxClues (puzzle data) b ≤ boxClues (puzzle data) b' + 1)%nat).
Proof.
  eexists _, _.
  assert (generatePuzzle zeroRandom 2 "easy" 10 0%nat = Some (_, _)) as Hrun
    by (vm_compute; reflexivity).
  split; [exact Hrun|].
  exact (generatePuzzle_boxes_balanced zeroRandom 2 "easy" 10 0 _ _ 45 50
           eq_refl eq_refl Hrun).
Defined.

(** ** The candidates of the hint search and the placement test *)

Lemma elem_of_setDelete (x v : Z) (cs : list Z) :
  x ∈ setDelete v cs ↔ x ∈ cs ∧ x ≠ v.
Proof. unfold setDelete. rewrite list_elem_of_filter. tauto. Qed.

Lemma elem_of_foldl_setDelete {A} (f : A → Z) (l : list A) (cs : list Z)
    (x : Z) :
  x ∈ foldl (fun cs i => setDelete (f i) cs) cs l ↔
  x ∈ cs ∧ ∀ i, i ∈ l → f i ≠ x.
Proof.
  revert cs. induction l as [|i l IH]; intros cs; cbn [foldl].
  { split; [|tauto]. intros Hx. split; [done|]. by intros ? ?%elem_of_nil. }
  rewrite IH, elem_of_setDelete. split.
  - intros [[Hx Hne] Hall]. split; [done|].
    intros j [->|Hj]%elem_of_cons; [done|by apply Hall].
  - intros [Hx Hall]. split; [split; [done|]|].
    + intros ->. by apply (Hall i); [left|].
    + intros j Hj. apply Hall. by right.
Qed.

Lemma elem_of_foldl2_setDelete {A B} (f : A → B → Z) (la : list A)
    (lb : list B) (cs : list Z) (x : Z) :
  x ∈ foldl (fun cs a => foldl (fun cs b => setDelete (f a b) cs) cs lb)
        cs la ↔
  x ∈ cs ∧ ∀ a b, a ∈ la → b ∈ lb → f a b ≠ x.
Proof.
  revert cs. induction la as [|a la IH]; intros cs; cbn [foldl].
  { split; [|tauto]. intros Hx. split; [done|].
    by intros ? ? ?%elem_of_nil. }
  rewrite IH, (elem_of_foldl_setDelete (f a)). split.
  - intros [[Hx Ha] Hall]. split; [done|].
    intros a' b [->|Ha']%elem_of_cons Hb; [by apply Ha|by apply Hall].
  - intros [Hx Hall]. split; [split; [done|]|].
    + intros b Hb. apply Hall; [by left|done].
    + intros a' b Ha' Hb. apply Hall; [by right|done].
Qed.

(** The candidates of a cell are the numbers 1..9 that stand in no cell
    of its row, column and box. *)
Lemma getCandidatesForCell_peers (g : grid) (row col : nat) (num : Z) :
  (row < 9)%nat → (col < 9)%nat →
  num ∈ getCandidatesForCell g row col ↔
  1 ≤ num ≤ 9 ∧
  ∀ r' c', (r' < 9)%nat → (c' < 9)%nat → peer row col r' c' →
           get g r' c' ≠ num.
Proof.
  intros Hrow Hcol. unfold getCandidatesForCell. cbv zeta.
  rewrite (elem_of_foldl2_setDelete (get g)),
    (elem_of_foldl_setDelete (fun r => get g r col)),
    (elem_of_foldl_setDelete (get g row)), nums19_range.
  split.
  - intros [[[Hrange Hr] Hc] Hb]. split; [done|].
    intros r' c' Hr' Hc' [<-|[<-|[Hbr Hbc]]].
    + apply Hr. by apply elem_of_idx9.
    + apply Hc. by apply elem_of_idx9.
    + apply Hb; apply elem_of_seq; by apply in_box_iff.
  - intros [Hrange Hpeer]. split; [split; [split; [done|]|]|].
    + intros c Hc%elem_of_idx9. apply Hpeer; [done..|by left].
    + intros r Hr%elem_of_idx9. apply Hpeer; [done..|by right; left].
    + intros r c Hr%elem_of_seq%in_box_iff Hc%elem_of_seq%in_box_iff.
      apply Hpeer; [by apply (box_lt_9 row)|by apply (box_lt_9 col)|].
      by right; right.
Qed.

(** The candidates are the numbers that may be placed. *)
Lemma candidate_iff_placement (g : grid) (row col : nat) (num : Z) :
  wfGrid g → (row < 9)%nat → (col < 9)%nat →
  num ∈ getCandidatesForCell g row col ↔
  1 ≤ num ≤ 9 ∧ isValidPlacement g row col num = true.
Proof.
  intros Hwf Hrow Hcol.
  by rewrite getCandidatesForCell_peers, isValidPlacement_spec.
Qed.

(** A number is among [getCandidatesForCell(grid, row, col)] exactly when
    it is one of 1..9 and [isValidPlacement] of the generator accepts it
    in that cell. *)
Theorem getCandidatesForCell_isValidPlacement (g : grid) (row col : nat)
    (num : Z) :
  wfGrid g → (row < 9)%nat → (col < 9)%nat →
  num ∈ getCandidatesForCell g row col ↔
  1 ≤ num ≤ 9 ∧ isValidPlacement g row col num = true.
Proof. apply candidate_iff_placement. Qed.

Lemma getCandidatesForCell_isValidPlacement_witness :
  2 ∈ getCandidatesForCell (set firstSolution 8 8 0) 8 8 ↔
  1 ≤ 2 ≤ 9 ∧ isValidPlacement (set firstSolution 8 8 0) 8 8 2 = true.
Proof.
  apply getCandidatesForCell_isValidPlacement; [|lia..].
  split; [done|]. by repeat constructor.
Defined.

Lemma elem_of_setAdd (x v : Z) (s : list Z) :
  x ∈ setAdd v s ↔ x = v ∨ x ∈ s.
Proof.
  unfold setAdd. destruct (existsb (Z.eqb v) s) eqn:Hin.
  - split; [by right|]. intros [->|Hx]; [|done].
    apply existsb_exists in Hin as (y & Hy & ->%Z.eqb_eq).
    by apply list_elem_of_In.
  - rewrite elem_of_app, list_elem_of_singleton. tauto.
Qed.

Lemma elem_of_foldl_setAdd {A} (f : A → Z) (l : list A) (s : list Z)
    (x : Z) :
  x ∈ foldl (fun s i => if negb (f i =? 0) then setAdd (f i) s else s) s l
  ↔ x ∈ s ∨ x ≠ 0 ∧ ∃ i, i ∈ l ∧ f i = x.
Proof.
  revert s. induction l as [|i l IH]; intros s; cbn [foldl].
  { split; [by left|]. intros [Hx|[_ (i & Hi%elem_of_nil & _)]]; done. }
  rewrite IH. destruct (f i =? 0) eqn:Hzero; cbn [negb].
  - apply Z.eqb_eq in Hzero. split.
    + intros [Hx|[Hnz (j & Hj & Hf)]]; [by left|].
      right. split; [done|]. exists j. split; [by right|done].
    + intros [Hx|[Hnz (j & [->|Hj]%elem_of_cons & Hf)]]; [by left|lia|].
      right. split; [done|]. by exists j.
  - apply Z.eqb_neq in Hzero. rewrite elem_of_setAdd. split.
    + intros [[->|Hx]|[Hnz (j & Hj & Hf)]]; [|by left|].
      * right. split; [done|]. exists i. split; [by left|done].
      * right. split; [done|]. exists j. split; [by right|done].
    + intros [Hx|[Hnz (j & [->|Hj]%elem_of_cons & Hf)]].
      * by left; right.
      * by left; left.
      * right. split; [done|]. by exists j.
Qed.

Lemma elem_of_foldl2_setAdd {A B} (f : A → B → Z) (la : list A)
    (lb : list B) (s : list Z) (x : Z) :
  x ∈ foldl (fun s a =>
               foldl (fun s b =>
                        if negb (f a b =? 0) then setAdd (f a b) s else s)
                 s lb)
        s la
  ↔ x ∈ s ∨ x ≠ 0 ∧ ∃ a b, a ∈ la ∧ b ∈ lb ∧ f a b = x.
Proof.
  revert s. induction la as [|a la IH]; intros s; cbn [foldl].
  { split; [by left|]. intros [Hx|[_ (a & b & Ha%elem_of_nil & _)]]; done. }
  rewrite IH, (elem_of_foldl_setAdd (f a)). split.
  - intros [[Hx|[Hnz (b & Hb & Hf)]]|[Hnz (a' & b & Ha' & Hb & Hf)]].
    + by left.
    + right. split; [done|]. exists a, b. split; [by left|done].
    + right. split; [done|]. exists a', b. split; [by right|done].
  - intros [Hx|[Hnz (a' & b & [->|Ha']%elem_of_cons & Hb & Hf)]].
    + by left; left.
    + left; right. split; [done|]. by exists b.
    + right. split; [done|]. by exists a', b.
Qed.

(** The numbers that [getEliminationDetails] reports for a cell are the
    numbers that [getCandidatesForCell] removes: a number of 1..9 is a
    candidate exactly when it is in none of [byRow], [byCol] and [byBox];
    and the three sets never hold 0. *)
Theorem getEliminationDetails_candidates (g : grid) (row col : nat)
    (num : Z) :
  (row < 9)%nat → (col < 9)%nat →
  (num ∈ getCandidatesForCell g row col ↔
   1 ≤ num ≤ 9 ∧
   (num ∉ byRow (getEliminationDetails g row col)) ∧
   (num ∉ byCol (getEliminationDetails g row col)) ∧
   (num ∉ byBox (getEliminationDetails g row col))) ∧
  (0 ∉ byRow (getEliminationDetails g row col)) ∧
  (0 ∉ byCol (getEliminationDetails g row col)) ∧
  (0 ∉ byBox (getEliminationDetails g row col)).
Proof.
  intros Hrow Hcol. unfold getEliminationDetails, getCandidatesForCell.
  cbv zeta. cbn [byRow byCol byBox].
  rewrite (elem_of_foldl2_setDelete (get g)),
    (elem_of_foldl_setDelete (fun r => get g r col)),
    (elem_of_foldl_setDelete (get g row)), nums19_range.
  rewrite !(elem_of_foldl2_setAdd (get g)),
    !(elem_of_foldl_setAdd (fun r => get g r col)),
    !(elem_of_foldl_setAdd (get g row)).
  split; [split|].
  - intros [[[Hrange Hr] Hc] Hb]. split; [done|]. split_and!.
    + intros [[]%elem_of_nil|[_ (c & Hin & Heq)]]. by apply (Hr c).
    + intros [[]%elem_of_nil|[_ (r & Hin & Heq)]]. by apply (Hc r).
    + intros [[]%elem_of_nil|[_ (r & c & Hinr & Hinc & Heq)]].
      by apply (Hb r c).
  - intros (Hrange & Hr & Hc & Hb). split; [split; [split; [done|]|]|].
    + intros c Hin Heq. apply Hr. right. split; [lia|]. by exists c.
    + intros r Hin Heq. apply Hc. right. split; [lia|]. by exists r.
    + intros r c Hinr Hinc Heq. apply Hb. right. split; [lia|].
      by exists r, c.
  - split_and!; intros [[]%elem_of_nil|[Hnz _]]; done.
Qed.

Lemma getEliminationDetails_candidates_witness :
  (2 ∈ getCandidatesForCell (set firstSolution 8 8 0) 8 8 ↔
   1 ≤ 2 ≤ 9 ∧
   (2 ∉ byRow (getEliminationDetails (set firstSolution 8 8 0) 8 8)) ∧
   (2 ∉ byCol (getEliminationDetails (set firstSolution 8 8 0) 8 8)) ∧
   (2 ∉ byBox (getEliminationDetails (set firstSolution 8 8 0) 8 8))) ∧
  (0 ∉ byRow (getEliminationDetails (set firstSolution 8 8 0) 8 8)) ∧
  (0 ∉ byCol (getEliminationDetails (set firstSolution 8 8 0) 8 8)) ∧
  (0 ∉ byBox (getEliminationDetails (set firstSolution 8 8 0) 8 8)).
Proof. apply getEliminationDetails_candidates; lia. Defined.

(** ** What a hint says about the grid *)

Lemma wfGrid_buildCurrentGrid (st : gameState) : wfGrid (buildCurrentGrid st).
Proof.
  unfold buildCurrentGrid. split; [by rewrite length_map|].
  apply Forall_forall. intros row (r & -> & _)%list_elem_of_fmap.
  by rewrite length_map.
Qed.

Lemma candidatesAt_calculateCandidates (g : grid) (r c : nat) :
  (r < 9)%nat → (c < 9)%nat →
  candidatesAt (calculateCandidates g) r c
  = if negb (get g r c =? 0) then [] else getCandidatesForCell g r c.
Proof.
  intros Hr Hc. unfold candidatesAt, calculateCandidates.
  rewrite lookup_map_idx9 by done. by rewrite lookup_map_idx9.
Qed.

Lemma has_elem_of (cands : list (list (list Z))) (r c : nat) (num : Z) :
  has cands r c num = true ↔ num ∈ candidatesAt cands r c.
Proof.
  unfold has. rewrite existsb_exists. split.
  - intros (x & Hx & ->%Z.eqb_eq). by apply list_elem_of_In.
  - intros Hin. exists num. split; [by apply list_elem_of_In|].
    apply Z.eqb_refl.
Qed.

(** [candidates[r][c].has(num)], for the candidates of a grid: the cell is
    empty and the number may be placed there. *)
Lemma has_calculateCandidates (g : grid) (r c : nat) (num : Z) :
  wfGrid g → (r < 9)%nat → (c < 9)%nat →
  has (calculateCandidates g) r c num = true ↔
  get g r c = 0 ∧ 1 ≤ num ≤ 9 ∧ isValidPlacement g r c num = true.
Proof.
  intros Hwf Hr Hc.
  rewrite has_elem_of, candidatesAt_calculateCandidates by done.
  destruct (get g r c =? 0) eqn:Hzero; cbn [negb].
  - apply Z.eqb_eq in Hzero.
    rewrite candidate_iff_placement by done. tauto.
  - apply Z.eqb_neq in Hzero. split; [by intros ?%elem_of_nil|tauto].
Qed.

Lemma filter_singleton {A} (f : A → bool) (l : list A) (x : A) :
  List.filter f l = [x] →
  x ∈ l ∧ f x = true ∧ ∀ y, y ∈ l → f y = true → y = x.
Proof.
  intros Hfilter.
  assert (∀ y, y ∈ l ∧ f y = true ↔ y = x) as Hiff.
  { intros y. rewrite list_elem_of_In, <- filter_In, Hfilter.
    rewrite <- list_elem_of_In, list_elem_of_singleton. done. }
  destruct (Hiff x) as [_ [Hin Hf]]; [done|]. split_and!; [done..|].
  intros y Hy Hfy. by apply Hiff.
Qed.

(** What [findNakedSingle] has checked when it returns a hint. *)
Lemma findNakedSingle_Some (g : grid) (cands : list (list (list Z)))
    (st : gameState) (h : hint) :
  findNakedSingle g cands st = Some h →
  (hintRow h < 9)%nat ∧ (hintCol h < 9)%nat ∧
  get g (hintRow h) (hintCol h) = 0 ∧
  candidatesAt cands (hintRow h) (hintCol h) = [hintNumber h] ∧
  technique h = "Naked Single".
Proof.
  unfold findNakedSingle.
  intros ([row col] & [Hr Hc]%elem_of_allCells & Hbody)%firstSome_Some.
  destruct (get g row col =? 0) eqn:Hzero; [|done].
  destruct (length _ =? 1)%nat eqn:Hone; [|done]. cbn [andb] in Hbody.
  destruct (negb _); [done|]. injection Hbody as <-.
  cbn [hintRow hintCol hintNumber technique].
  apply Z.eqb_eq in Hzero. apply Nat.eqb_eq in Hone.
  destruct (candidatesAt cands row col) as [|x [|]]; done.
Qed.

(** What [hiddenSingleAt] has checked when it returns a hint. *)
Lemma hiddenSingleAt_Some (cands : list (list (list Z))) (st : gameState)
    (row col : nat) (num : Z) (name : string) (h : hint) :
  hiddenSingleAt cands st row col num name = Some h →
  h = Hint row col num name ∧ length (candidatesAt cands row col) ≠ 1%nat.
Proof.
  unfold hiddenSingleAt. destruct (_ =? 1)%nat eqn:Hone; [done|].
  apply Nat.eqb_neq in Hone. destruct (negb _); [done|]. by intros [= <-].
Qed.

(** What [findHiddenSingleInRow] has checked when it returns a hint. *)
Lemma findHiddenSingleInRow_Some (g : grid) (cands : list (list (list Z)))
    (st : gameState) (h : hint) :
  findHiddenSingleInRow g cands st = Some h →
  (hintRow h < 9)%nat ∧ (hintCol h < 9)%nat ∧ 1 ≤ hintNumber h ≤ 9 ∧
  has cands (hintRow h) (hintCol h) (hintNumber h) = true ∧
  (∀ c, (c < 9)%nat → has cands (hintRow h) c (hintNumber h) = true →
        c = hintCol h) ∧
  length (candidatesAt cands (hintRow h) (hintCol h)) ≠ 1%nat ∧
  technique h = "Hidden Single (Row)".
Proof.
  unfold findHiddenSingleInRow.
  intros (row & Hrow%elem_of_idx9 &
          (num & Hnum%nums19_range & Hbody)%firstSome_Some)%firstSome_Some.
  destruct (existsb _ _); [done|].
  destruct (List.filter _ _) as [|col [|]] eqn:Hfilter; [done| |done].
  apply hiddenSingleAt_Some in Hbody as [-> Hsize].
  cbn [hintRow hintCol hintNumber technique].
  apply filter_singleton in Hfilter as (Hcol%elem_of_idx9 & Hhas & Hothers).
  split_and!; try done; try lia.
  intros c Hc. apply Hothers. by apply elem_of_idx9.
Qed.

(** What [findHiddenSingleInColumn] has checked when it returns a hint. *)
Lemma findHiddenSingleInColumn_Some (g : grid)
    (cands : list (list (list Z))) (st : gameState) (h : hint) :
  findHiddenSingleInColumn g cands st = Some h →
  (hintRow h < 9)%nat ∧ (hintCol h < 9)%nat ∧ 1 ≤ hintNumber h ≤ 9 ∧
  has cands (hintRow h) (hintCol h) (hintNumber h) = true ∧
  (∀ r, (r < 9)%nat → has cands r (hintCol h) (hintNumber h) = true →
        r = hintRow h) ∧
  length (candidatesAt cands (hintRow h) (hintCol h)) ≠ 1%nat ∧
  technique h = "Hidden Single (Column)".
Proof.
  unfold findHiddenSingleInColumn.
  intros (col & Hcol%elem_of_idx9 &
          (num & Hnum%nums19_range & Hbody)%firstSome_Some)%firstSome_Some.
  destruct (existsb _ _); [done|].
  destruct (List.filter _ _) as [|row [|]] eqn:Hfilter; [done| |done].
  apply hiddenSingleAt_Some in Hbody as [-> Hsize].
  cbn [hintRow hintCol hintNumber technique].
  apply filter_singleton in Hfilter as (Hrow%elem_of_idx9 & Hhas & Hothers).
  split_and!; try done; try lia.
  intros r Hr. apply Hothers. by apply elem_of_idx9.
Qed.

(** What [findHiddenSingleInBox] has checked when it returns a hint. *)
Lemma findHiddenSingleInBox_Some (g : grid) (cands : list (list (list Z)))
    (st : gameState) (h : hint) :
  findHiddenSingleInBox g cands st = Some h →
  (hintRow h < 9)%nat ∧ (hintCol h < 9)%nat ∧ 1 ≤ hintNumber h ≤ 9 ∧
  has cands (hintRow h) (hintCol h) (hintNumber h) = true ∧
  (∀ r c, (r / 3 = hintRow h / 3)%nat → (c / 3 = hintCol h / 3)%nat →
          has cands r c (hintNumber h) = true →
          r = hintRow h ∧ c = hintCol h) ∧
  length (candidatesAt cands (hintRow h) (hintCol h)) ≠ 1%nat ∧
  technique h = "Hidden Single (Box)".
Proof.
  unfold findHiddenSingleInBox.
  intros (boxRow & HboxRow%elem_of_seq &
          (boxCol & HboxCol%elem_of_seq &
           (num & Hnum%nums19_range & Hbody)%firstSome_Some)
            %firstSome_Some)%firstSome_Some.
  cbv zeta in Hbody. destruct (existsb _ _); [done|].
  destruct (List.filter _ _) as [|[row col] [|]] eqn:Hfilter;
    [done| |done].
  apply hiddenSingleAt_Some in Hbody as [-> Hsize].
  cbn [hintRow hintCol hintNumber technique].
  apply filter_singleton in Hfilter
    as ([Hrow Hcol]%elem_of_boxCells & Hhas & Hothers).
  cbn [fst snd] in *.
  assert (row / 3 = boxRow)%nat as Hbr
    by (pose proof (Nat.div_mod_eq row 3);
        pose proof (Nat.mod_upper_bound row 3); lia).
  assert (col / 3 = boxCol)%nat as Hbc
    by (pose proof (Nat.div_mod_eq col 3);
        pose proof (Nat.mod_upper_bound col 3); lia).
  split_and!; try done; try lia.
  intros r c Hr Hc Hrc.
  assert ((r, c) = (row, col)) as [= -> ->]; [|done].
  apply Hothers; [|done]. apply elem_of_boxCells. cbn [fst snd].
  pose proof (Nat.div_mod_eq r 3). pose proof (Nat.mod_upper_bound r 3).
  pose proof (Nat.div_mod_eq c 3). pose proof (Nat.mod_upper_bound c 3).
  lia.
Qed.

(** What [findFallbackHint] has checked when it returns a hint. *)
Lemma findFallbackHint_Some (st : gameState) (h : hint) :
  findFallbackHint st = Some h →
  (hintRow h < 9)%nat ∧ (hintCol h < 9)%nat ∧
  openCell st (hintRow h) (hintCol h) ∧
  technique h = "Process of Elimination".
Proof.
  unfold findFallbackHint.
  intros ([row col] & [Hr Hc]%elem_of_allCells & Hbody)%firstSome_Some.
  destruct (isOfficial st row col) eqn:Hoff; [done|].
  destruct (get (userEntries st) row col =? 0) eqn:Huser; [|done].
  injection Hbody as <-.
  cbn [hintRow hintCol hintNumber technique]. by apply Z.eqb_eq in Huser.
Qed.

(** The five ways in which [findHint] returns a hint. *)
Lemma findHint_cases (st : gameState) (h : hint) :
  findHint st = Some h →
  findNakedSingle (buildCurrentGrid st)
    (calculateCandidates (buildCurrentGrid st)) st = Some h ∨
  findHiddenSingleInRow (buildCurrentGrid st)
    (calculateCandidates (buildCurrentGrid st)) st = Some h ∨
  findHiddenSingleInColumn (buildCurrentGrid st)
    (calculateCandidates (buildCurrentGrid st)) st = Some h ∨
  findHiddenSingleInBox (buildCurrentGrid st)
    (calculateCandidates (buildCurrentGrid st)) st = Some h ∨
  findFallbackHint st = Some h.
Proof.
  unfold findHint. cbv zeta.
  destruct (findNakedSingle _ _ st) as [h1|]; [by left|].
  destruct (findHiddenSingleInRow _ _ st) as [h2|]; [by right; left|].
  destruct (findHiddenSingleInColumn _ _ st) as [h3|];
    [by right; right; left|].
  destruct (findHiddenSingleInBox _ _ st) as [h4|];
    [by right; right; right; left|].
  by right; right; right; right.
Qed.

(** Whatever technique finds it, the hint that [findHint] returns points
    at a cell of the board that is empty in the current grid. *)
Theorem findHint_targets_empty_cell (st : gameState) (h : hint) :
  findHint st = Some h →
  (hintRow h < 9)%nat ∧ (hintCol h < 9)%nat ∧
  get (buildCurrentGrid st) (hintRow h) (hintCol h) = 0.
Proof.
  pose proof (wfGrid_buildCurrentGrid st) as Hwf.
  intros [H|[H|[H|[H|H]]]]%findHint_cases.
  - apply findNakedSingle_Some in H. tauto.
  - apply findHiddenSingleInRow_Some in H as (Hr & Hc & _ & Hhas & _).
    apply has_calculateCandidates in Hhas; tauto.
  - apply findHiddenSingleInColumn_Some in H as (Hr & Hc & _ & Hhas & _).
    apply has_calculateCandidates in Hhas; tauto.
  - apply findHiddenSingleInBox_Some in H as (Hr & Hc & _ & Hhas & _).
    apply has_calculateCandidates in Hhas; tauto.
  - apply findFallbackHint_Some in H as (Hr & Hc & [Hoff Huser] & _).
    split_and!; [done..|]. rewrite get_buildCurrentGrid by done.
    by rewrite Hoff, Huser.
Qed.

Lemma findHint_targets_empty_cell_witness :
  findHint hiddenSingleGame = Some (Hint 2 8 6 "Hidden Single (Row)") ∧
  (2 < 9)%nat ∧ (8 < 9)%nat ∧
  get (buildCurrentGrid hiddenSingleGame) 2 8 = 0.
Proof.
  assert (findHint hiddenSingleGame
          = Some (Hint 2 8 6 "Hidden Single (Row)")) as Hrun
    by (vm_compute; reflexivity).
  split; [exact Hrun|].
  exact (findHint_targets_empty_cell hiddenSingleGame _ Hrun).
Defined.

(** A hint found by a technique (not by the fallback) gives a number of
    1..9 that no cell of the row, column and box of its cell holds in the
    current grid: [isValidPlacement] accepts it there. *)
Theorem findHint_technique_valid_placement (st : gameState) (h : hint) :
  findHint st = Some h →
  technique h ≠ "Process of Elimination" →
  1 ≤ hintNumber h ≤ 9 ∧
  isValidPlacement (buildCurrentGrid st) (hintRow h) (hintCol h)
    (hintNumber h) = true.
Proof.
  pose proof (wfGrid_buildCurrentGrid st) as Hwf.
  intros [H|[H|[H|[H|H]]]]%findHint_cases Htech.
  - apply findNakedSingle_Some in H as (Hr & Hc & Hzero & Hcands & _).
    rewrite candidatesAt_calculateCandidates in Hcands by done.
    rewrite Hzero in Hcands. cbn [Z.eqb negb] in Hcands.
    apply candidate_iff_placement; [done..|].
    rewrite Hcands. by left.
  - apply findHiddenSingleInRow_Some in H as (Hr & Hc & _ & Hhas & _).
    apply has_calculateCandidates in Hhas; tauto.
  - apply findHiddenSingleInColumn_Some in H as (Hr & Hc & _ & Hhas & _).
    apply has_calculateCandidates in Hhas; tauto.
  - apply findHiddenSingleInBox_Some in H as (Hr & Hc & _ & Hhas & _).
    apply has_calculateCandidates in Hhas; tauto.
  - apply findFallbackHint_Some in H as (_ & _ & _ & Hname). done.
Qed.

Lemma findHint_technique_valid_placement_witness :
  findHint oneCellLeft = Some (Hint 0 0 1 "Naked Single") ∧
  1 ≤ 1 ≤ 9 ∧ isValidPlacement (buildCurrentGrid oneCellLeft) 0 0 1 = true.
Proof.
  assert (findHint oneCellLeft = Some (Hint 0 0 1 "Naked Single")) as Hrun
    by (vm_compute; reflexivity).
  split; [exact Hrun|].
  exact (findHint_technique_valid_placement oneCellLeft _ Hrun
           ltac:(discriminate)).
Defined.

(** A hint named 'Naked Single' tells the truth: every other number of
    1..9 already stands in the row, column or box of the cell, so that
    [isValidPlacement] rejects it there. *)
Theorem findHint_naked_single_only_candidate (st : gameState) (h : hint)
    (num : Z) :
  findHint st = Some h →
  technique h = "Naked Single" →
  1 ≤ num ≤ 9 → num ≠ hintNumber h →
  isValidPlacement (buildCurrentGrid st) (hintRow h) (hintCol h) num
  = false.
Proof.
  pose proof (wfGrid_buildCurrentGrid st) as Hwf.
  intros Hhint Htech Hrange Hne.
  assert (findNakedSingle (buildCurrentGrid st)
            (calculateCandidates (buildCurrentGrid st)) st = Some h) as H.
  { apply findHint_cases in Hhint as [H|[H|[H|[H|H]]]]; [done|..].
    - apply findHiddenSingleInRow_Some in H as (_&_&_&_&_&_&Hname).
      rewrite Hname in Htech. discriminate.
    - apply findHiddenSingleInColumn_Some in H as (_&_&_&_&_&_&Hname).
      rewrite Hname in Htech. discriminate.
    - apply findHiddenSingleInBox_Some in H as (_&_&_&_&_&_&Hname).
      rewrite Hname in Htech. discriminate.
    - apply findFallbackHint_Some in H as (_&_&_&Hname).
      rewrite Hname in Htech. discriminate. }
  apply findNakedSingle_Some in H as (Hr & Hc & Hzero & Hcands & _).
  rewrite candidatesAt_calculateCandidates in Hcands by done.
  rewrite Hzero in Hcands. cbn [Z.eqb negb] in Hcands.
  apply not_true_is_false. intros Hvalid.
  assert (num ∈ getCandidatesForCell (buildCurrentGrid st) (hintRow h)
                  (hintCol h)) as Hin
    by by apply candidate_iff_placement.
  rewrite Hcands in Hin. by apply list_elem_of_singleton in Hin.
Qed.

Lemma findHint_naked_single_only_candidate_witness :
  findHint oneCellLeft = Some (Hint 0 0 1 "Naked Single") ∧
  isValidPlacement (buildCurrentGrid oneCellLeft) 0 0 5 = false.
Proof.
  assert (findHint oneCellLeft = Some (Hint 0 0 1 "Naked Single")) as Hrun
    by (vm_compute; reflexivity).
  split; [exact Hrun|].
  exact (findHint_naked_single_only_candidate oneCellLeft _ 5 Hrun eq_refl
           ltac:(lia) ltac:(discriminate)).
Defined.

(** A hint named 'Hidden Single' tells the truth: in the row (column, box)
    of its cell, no other cell is empty and may take the number; and the
    cell itself has more candidates than this one. *)
Theorem findHint_hidden_single_only_place (st : gameState) (h : hint) :
  findHint st = Some h →
  (technique h = "Hidden Single (Row)" →
   ∀ c, (c < 9)%nat → c ≠ hintCol h →
     ¬ (get (buildCurrentGrid st) (hintRow h) c = 0 ∧
        isValidPlacement (buildCurrentGrid st) (hintRow h) c (hintNumber h)
        = true)) ∧
  (technique h = "Hidden Single (Column)" →
   ∀ r, (r < 9)%nat → r ≠ hintRow h →
     ¬ (get (buildCurrentGrid st) r (hintCol h) = 0 ∧
        isValidPlacement (buildCurrentGrid st) r (hintCol h) (hintNumber h)
        = true)) ∧
  (technique h = "Hidden Single (Box)" →
   ∀ r c, (r / 3 = hintRow h / 3)%nat → (c / 3 = hintCol h / 3)%nat →
     (r, c) ≠ (hintRow h, hintCol h) →
     ¬ (get (buildCurrentGrid st) r c = 0 ∧
        isValidPlacement (buildCurrentGrid st) r c (hintNumber h) = true)) ∧
  (technique h = "Hidden Single (Row)" ∨
   technique h = "Hidden Single (Column)" ∨
   technique h = "Hidden Single (Box)" →
   length (getCandidatesForCell (buildCurrentGrid st) (hintRow h)
             (hintCol h)) ≠ 1%nat).
Proof.
  pose proof (wfGrid_buildCurrentGrid st) as Hwf.
  intros [H|[H|[H|[H|H]]]]%findHint_cases.
  - apply findNakedSingle_Some in H as (_&_&_&_&Hname). rewrite Hname.
    split_and!; [done..|]. by intros [|[|]].
  - apply findHiddenSingleInRow_Some in H
      as (Hr & Hc & Hnum & Hhas & Hothers & Hsize & Hname).
    rewrite Hname. split_and!; [|done|done|].
    + intros _ c Hlt Hne [Hzero Hvalid]. apply Hne, Hothers; [done|].
      by apply has_calculateCandidates.
    + intros _. rewrite candidatesAt_calculateCandidates in Hsize by done.
      apply has_calculateCandidates in Hhas as [Hzero _]; [|done..].
      by rewrite Hzero in Hsize.
  - apply findHiddenSingleInColumn_Some in H
      as (Hr & Hc & Hnum & Hhas & Hothers & Hsize & Hname).
    rewrite Hname. split_and!; [done| |done|].
    + intros _ r Hlt Hne [Hzero Hvalid]. apply Hne, Hothers; [done|].
      by apply has_calculateCandidates.
    + intros _. rewrite candidatesAt_calculateCandidates in Hsize by done.
      apply has_calculateCandidates in Hhas as [Hzero _]; [|done..].
      by rewrite Hzero in Hsize.
  - apply findHiddenSingleInBox_Some in H
      as (Hr & Hc & Hnum & Hhas & Hothers & Hsize & Hname).
    rewrite Hname. split_and!; [done|done| |].
    + intros _ r c Hbr Hbc Hne [Hzero Hvalid]. apply Hne.
      destruct (Hothers r c Hbr Hbc) as [-> ->]; [|done].
      apply has_calculateCandidates;
        [done|by apply (box_lt_9 (hintRow h))
         |by apply (box_lt_9 (hintCol h))|done].
    + intros _. rewrite candidatesAt_calculateCandidates in Hsize by done.
      apply has_calculateCandidates in Hhas as [Hzero _]; [|done..].
      by rewrite Hzero in Hsize.
  - apply findFallbackHint_Some in H as (_&_&_&Hname). rewrite Hname.
    split_and!; [done..|]. by intros [|[|]].
Qed.

Lemma findHint_hidden_single_only_place_witness :
  ∃ h,
    findHint hiddenSingleGame = Some h ∧
    technique h = "Hidden Single (Row)" ∧
    (technique h = "Hidden Single (Row)" →
     ∀ c, (c < 9)%nat → c ≠ hintCol h →
       ¬ (get (buildCurrentGrid hiddenSingleGame) (hintRow h) c = 0 ∧
          isValidPlacement (buildCurrentGrid hiddenSingleGame) (hintRow h) c
            (hintNumber h) = true)) ∧
    (technique h = "Hidden Single (Column)" →
     ∀ r, (r < 9)%nat → r ≠ hintRow h →
       ¬ (get (buildCurrentGrid hiddenSingleGame) r (hintCol h) = 0 ∧
          isValidPlacement (buildCurrentGrid hiddenSingleGame) r (hintCol h)
            (hintNumber h) = true)) ∧
    (technique h = "Hidden Single (Box)" →
     ∀ r c, (r / 3 = hintRow h / 3)%nat → (c / 3 = hintCol h / 3)%nat →
       (r, c) ≠ (hintRow h, hintCol h) →
       ¬ (get (buildCurrentGrid hiddenSingleGame) r c = 0 ∧
          isValidPlacement (buildCurrentGrid hiddenSingleGame) r c
            (hintNumber h) = true)) ∧
    (technique h = "Hidden Single (Row)" ∨
     technique h = "Hidden Single (Column)" ∨
     technique h = "Hidden Single (Box)" →
     length (getCandidatesForCell (buildCurrentGrid hiddenSingleGame)
               (hintRow h) (hintCol h)) ≠ 1%nat).
Proof.
  exists (Hint 2 8 6 "Hidden Single (Row)").
  assert (findHint hiddenSingleGame
          = Some (Hint 2 8 6 "Hidden Single (Row)")) as Hrun
    by (vm_compute; reflexivity).
  split; [exact Hrun|]. split; [reflexivity|].
  exact (findHint_hidden_single_only_place hiddenSingleGame _ Hrun).
Defined.

(** ** When the solution completes the current grid *)

Lemma firstSome_found {A B} (body : A → option B) (l : list A) (x : A)
    (b : B) :
  x ∈ l → body x = Some b → ∃ b', firstSome body l = Some b'.
Proof.
  induction l as [|y l IH]; [by intros ?%elem_of_nil|].
  intros [->|Hx]%elem_of_cons Hb; cbn [firstSome].
  - rewrite Hb. by eexists.
  - destruct (body y); [by eexists|by apply IH].
Qed.

(** The number of the solution is a candidate of every empty cell. *)
Lemma Completion_candidate (g s : grid) (r c : nat) :
  Completion g s → (r < 9)%nat → (c < 9)%nat → get g r c = 0 →
  get s r c ∈ getCandidatesForCell g r c.
Proof.
  intros [[(_ & Hrange & Hclash) Hfull] Hagree] Hr Hc Hzero.
  apply getCandidatesForCell_peers; [done..|]. split.
  - specialize (Hrange r c Hr Hc). specialize (Hfull r c Hr Hc). lia.
  - intros r' c' Hr' Hc' Hpeer Heq.
    assert (get g r' c' ≠ 0) as Hnz
      by (rewrite Heq; by apply Hfull).
    rewrite <- (Hagree r' c') in Heq by done.
    apply (Hclash r c r' c'); [done..| |done|by apply Hfull|done].
    intros [= <- <-]. done.
Qed.

(** While the solution of the game is a valid completion of the current
    grid, the check of a naked single against the solution never rejects
    it: as soon as some empty cell has one candidate only, [findHint]
    returns a hint by the technique 'Naked Single'. *)
Theorem findHint_naked_single_found (st : gameState) (r c : nat) :
  Completion (buildCurrentGrid st) (stateSolution st) →
  (r < 9)%nat → (c < 9)%nat →
  get (buildCurrentGrid st) r c = 0 →
  length (getCandidatesForCell (buildCurrentGrid st) r c) = 1%nat →
  ∃ h, findHint st = Some h ∧ technique h = "Naked Single".
Proof.
  intros Hcompl Hr Hc Hzero Hone.
  pose proof (Completion_candidate _ _ r c Hcompl Hr Hc Hzero) as Hin.
  assert (∃ h, findNakedSingle (buildCurrentGrid st)
                 (calculateCandidates (buildCurrentGrid st)) st = Some h)
    as [h Hfound].
  { unfold findNakedSingle.
    apply (firstSome_found _ _ (r, c)
             (Hint r c (get (stateSolution st) r c) "Naked Single"));
      [by apply elem_of_allCells|].
    rewrite candidatesAt_calculateCandidates, Hzero by done.
    cbn [Z.eqb negb andb].
    destruct (getCandidatesForCell (buildCurrentGrid st) r c)
      as [|x [|]]; [done| |done].
    apply list_elem_of_singleton in Hin as <-.
    cbn [length Nat.eqb head default]. by rewrite Z.eqb_refl. }
  exists h. split.
  - unfold findHint. cbv zeta. by rewrite Hfound.
  - by apply findNakedSingle_Some in Hfound as (_&_&_&_&Hname).
Qed.

Lemma findHint_naked_single_found_witness :
  ∃ h, findHint oneCellLeft = Some h ∧ technique h = "Naked Single".
Proof.
  apply (findHint_naked_single_found oneCellLeft 0 0);
    [|lia|lia|by vm_compute|by vm_compute].
  split.
  - assert (isValidGrid firstSolution true = true) as Hvalid
      by (vm_compute; reflexivity).
    apply isValidGrid_spec in Hvalid as [Hcons Hfull].
    split; [exact Hcons|exact (Hfull eq_refl)].
  - intros r c Hr Hc. each_cell r c ltac:(by vm_compute).
Defined.

(** ** SudokuHistory: the two stacks *)

Lemma pop_snoc {A} (a : list A) (x : A) : pop (a ++ [x]) = (Some x, a).
Proof. unfold pop. by rewrite last_snoc, removelast_last. Qed.

Lemma pop_nonempty {A} (a : list A) :
  a ≠ [] → ∃ x a', a = a' ++ [x] ∧ pop a = (Some x, a').
Proof.
  intros Hne. destruct (exists_last Hne) as (a' & x & ->).
  exists x, a'. by rewrite pop_snoc.
Qed.

(** A copy made by [cloneState] is copied to itself. *)
Lemma cloneState_idemp (state : savedState) :
  SudokuHistory.cloneState (SudokuHistory.cloneState state)
  = SudokuHistory.cloneState state.
Proof.
  unfold SudokuHistory.cloneState. cbn [savedEntries savedCandidates].
  f_equal; [by rewrite map_id|].
  rewrite map_map. apply map_ext. intros row. rewrite map_map.
  apply map_ext. by intros [s|].
Qed.

(** What every sequence of calls keeps: the capacity is 100, the two
    stacks hold at most 100 states together, and all of them are copies. *)
Lemma afterCalls_invariant {W}
    (onStateChange : list savedState → list savedState → W → W) (w : W)
    (calls : list historyCall) :
  let h := (afterCalls onStateChange w calls).1 in
  maxHistory h = 100%nat ∧
  (length (undoStack h) + length (redoStack h) ≤ 100)%nat ∧
  allCopies h.
Proof.
  unfold afterCalls. induction calls as [|call calls IH] using rev_ind.
  { cbn. split_and!; [done|lia|by apply Forall_nil]. }
  rewrite foldl_app. cbn [foldl].
  destruct (foldl afterCall _ calls) as [h w']. cbn [fst] in IH.
  destruct IH as (Hmax & Hlen & Hcopies). unfold allCopies in *.
  apply Forall_app in Hcopies as [Hundo Hredo].
  destruct call as [state|cur|cur|]; cbn [afterCall fst snd].
  - unfold SudokuHistory.saveState. cbv zeta. cbn [fst].
    cbn [undoStack redoStack maxHistory]. rewrite Hmax, length_app.
    cbn [length]. rewrite app_nil_r.
    assert (Forall (fun s => SudokuHistory.cloneState s = s)
              (undoStack h ++ [SudokuHistory.cloneState state])) as Hall.
    { apply Forall_app. split; [done|].
      apply Forall_singleton, cloneState_idemp. }
    destruct (100 <? _)%nat eqn:Hfull.
    + apply Nat.ltb_lt in Hfull. split_and!; [done| |].
      * destruct (undoStack h); cbn [app tail length] in *;
          rewrite ?length_app; cbn [length]; lia.
      * destruct (undoStack h ++ _) as [|s l]; [done|].
        by apply Forall_cons in Hall as [_ Hall].
    + apply Nat.ltb_ge in Hfull.
      split_and!; [done|rewrite ?length_app; cbn [length]; lia|done].
  - unfold SudokuHistory.undo.
    destruct (length (undoStack h) =? 0)%nat eqn:Hempty.
    { cbn [fst]. split_and!; [done..|]. by apply Forall_app. }
    apply Nat.eqb_neq in Hempty.
    destruct (pop_nonempty (undoStack h)) as (x & a' & Heq & ->);
      [by destruct (undoStack h)|].
    cbn [fst]. cbn [undoStack redoStack maxHistory].
    rewrite Heq in Hlen, Hundo. rewrite length_app in *. cbn [length] in *.
    apply Forall_app in Hundo as [Hundo _].
    split_and!; [done|lia|].
    apply Forall_app. split; [done|]. apply Forall_app. split; [done|].
    apply Forall_singleton, cloneState_idemp.
  - unfold SudokuHistory.redo.
    destruct (length (redoStack h) =? 0)%nat eqn:Hempty.
    { cbn [fst]. split_and!; [done..|]. by apply Forall_app. }
    apply Nat.eqb_neq in Hempty.
    destruct (pop_nonempty (redoStack h)) as (x & a' & Heq & ->);
      [by destruct (redoStack h)|].
    cbn [fst]. cbn [undoStack redoStack maxHistory].
    rewrite Heq in Hlen, Hredo. rewrite length_app in *. cbn [length] in *.
    apply Forall_app in Hredo as [Hredo _].
    split_and!; [done|lia|].
    apply Forall_app. split; [|done]. apply Forall_app. split; [done|].
    apply Forall_singleton, cloneState_idemp.
  - cbn. split_and!; [done|lia|by apply Forall_nil].
Qed.

(** After [init] and any sequence of calls of [saveState], [undo], [redo]
    and [clear], the undo steps and the redo steps that the history holds
    are 100 together at most. *)
Theorem history_at_most_100 {W}
    (onStateChange : list savedState → list savedState → W → W) (w : W)
    (calls : list historyCall) :
  (SudokuHistory.getUndoCount (afterCalls onStateChange w calls).1 +
   SudokuHistory.getRedoCount (afterCalls onStateChange w calls).1
   ≤ 100)%nat.
Proof.
  by destruct (afterCalls_invariant onStateChange w calls) as (_ & Hlen & _).
Qed.

(** [undo] and then [redo] with the state that [undo] gave back: the
    [redo] gives back a copy of the state that was current, and the two
    stacks are as they were before the [undo]. *)
Theorem undo_redo_round_trip {W}
    (onStateChange : list savedState → list savedState → W → W) (w : W)
    (calls : list historyCall) (currentState : savedState) :
  let hw := afterCalls onStateChange w calls in
  SudokuHistory.canUndo hw.1 = true →
  ∃ previousState h1 w1 h2 w2,
    SudokuHistory.undo currentState hw.1 hw.2
    = (Some previousState, h1, w1) ∧
    SudokuHistory.redo previousState h1 w1
    = (Some (SudokuHistory.cloneState currentState), h2, w2) ∧
    undoStack h2 = undoStack hw.1 ∧ redoStack h2 = redoStack hw.1.
Proof.
  intros hw Hcan.
  destruct (afterCalls_invariant onStateChange w calls)
    as (_ & _ & Hcopies).
  fold hw in Hcopies. destruct hw as [h w0]. cbn [fst snd] in *.
  unfold SudokuHistory.canUndo in Hcan. apply Nat.ltb_lt in Hcan.
  unfold allCopies in Hcopies. apply Forall_app in Hcopies as [Hundo _].
  destruct (pop_nonempty (undoStack h)) as (x & a' & Heq & Hpop);
    [destruct (undoStack h); [cbn in Hcan; lia|done]|].
  rewrite Heq in Hundo. apply Forall_app in Hundo as [_ Hx].
  rewrite Forall_singleton in Hx.
  unfold SudokuHistory.undo, SudokuHistory.redo.
  destruct (length (undoStack h) =? 0)%nat eqn:Hempty;
    [apply Nat.eqb_eq in Hempty; lia|].
  rewrite Hpop. eexists x, _, _, _, _. split; [reflexivity|].
  cbn [redoStack undoStack maxHistory].
  rewrite length_app, Nat.add_1_r. cbn [Nat.eqb]. rewrite pop_snoc, Hx.
  split; [reflexivity|]. cbn [redoStack undoStack]. by rewrite Heq.
Qed.

Lemma undo_redo_round_trip_witness :
  ∃ previousState h1 w1 h2 w2,
    SudokuHistory.undo (plainState firstSolution)
      (afterCalls noPage () [CallSaveState (plainState emptyGrid)]).1
      (afterCalls noPage () [CallSaveState (plainState emptyGrid)]).2
    = (Some previousState, h1, w1) ∧
    SudokuHistory.redo previousState h1 w1
    = (Some (SudokuHistory.cloneState (plainState firstSolution)), h2, w2) ∧
    undoStack h2
    = undoStack
        (afterCalls noPage () [CallSaveState (plainState emptyGrid)]).1 ∧
    redoStack h2
    = redoStack
        (afterCalls noPage () [CallSaveState (plainState emptyGrid)]).1.
Proof.
  exact (undo_redo_round_trip noPage ()
           [CallSaveState (plainState emptyGrid)] (plainState firstSolution)
           eq_refl).
Defined.

(** [redo] and then [undo] with the state that [redo] gave back: the
    [undo] gives back a copy of the state that was current, and the two
    stacks are as they were before the [redo]. *)
Theorem redo_undo_round_trip {W}
    (onStateChange : list savedState → list savedState → W → W) (w : W)
    (calls : list historyCall) (currentState : savedState) :
  let hw := afterCalls onStateChange w calls in
  SudokuHistory.canRedo hw.1 = true →
  ∃ nextState h1 w1 h2 w2,
    SudokuHistory.redo currentState hw.1 hw.2 = (Some nextState, h1, w1) ∧
    SudokuHistory.undo nextState h1 w1
    = (Some (SudokuHistory.cloneState currentState), h2, w2) ∧
    undoStack h2 = undoStack hw.1 ∧ redoStack h2 = redoStack hw.1.
Proof.
  intros hw Hcan.
  destruct (afterCalls_invariant onStateChange w calls)
    as (_ & _ & Hcopies).
  fold hw in Hcopies. destruct hw as [h w0]. cbn [fst snd] in *.
  unfold SudokuHistory.canRedo in Hcan. apply Nat.ltb_lt in Hcan.
  unfold allCopies in Hcopies. apply Forall_app in Hcopies as [_ Hredo].
  destruct (pop_nonempty (redoStack h)) as (x & a' & Heq & Hpop);
    [destruct (redoStack h); [cbn in Hcan; lia|done]|].
  rewrite Heq in Hredo. apply Forall_app in Hredo as [_ Hx].
  rewrite Forall_singleton in Hx.
  unfold SudokuHistory.undo, SudokuHistory.redo.
  destruct (length (redoStack h) =? 0)%nat eqn:Hempty;
    [apply Nat.eqb_eq in Hempty; lia|].
  rewrite Hpop. eexists x, _, _, _, _. split; [reflexivity|].
  cbn [redoStack undoStack maxHistory].
  rewrite length_app, Nat.add_1_r. cbn [Nat.eqb]. rewrite pop_snoc, Hx.
  split; [reflexivity|]. cbn [redoStack undoStack]. by rewrite Heq.
Qed.

Lemma redo_undo_round_trip_witness :
  ∃ nextState h1 w1 h2 w2,
    SudokuHistory.redo (plainState emptyGrid)
      (afterCalls noPage ()
         [CallSaveState (plainState emptyGrid);
          CallUndo (plainState firstSolution)]).1
      (afterCalls noPage ()
         [CallSaveState (plainState emptyGrid);
          CallUndo (plainState firstSolution)]).2
    = (Some nextState, h1, w1) ∧
    SudokuHistory.undo nextState h1 w1
    = (Some (SudokuHistory.cloneState (plainState emptyGrid)), h2, w2) ∧
    undoStack h2
    = undoStack
        (afterCalls noPage ()
           [CallSaveState (plainState emptyGrid);
            CallUndo (plainState firstSolution)]).1 ∧
    redoStack h2
    = redoStack
        (afterCalls noPage ()
           [CallSaveState (plainState emptyGrid);
            CallUndo (plainState firstSolution)]).1.
Proof.
  exact (redo_undo_round_trip noPage ()
           [CallSaveState (plainState emptyGrid);
            CallUndo (plainState firstSolution)] (plainState emptyGrid)
           eq_refl).
Defined.

(** One [saveState]: the copy goes on top of the undo stack, the oldest
    state is dropped when the stack is over the capacity, and the redo
    stack is emptied. *)
Lemma saveState_stacks {W} (state : savedState) (h : history W) (w : W) :
  (length (undoStack h) ≤ maxHistory h)%nat →
  undoStack (SudokuHistory.saveState state h w).1
  = drop (length (undoStack h) + 1 - maxHistory h)
      (undoStack h ++ [SudokuHistory.cloneState state]) ∧
  redoStack (SudokuHistory.saveState state h w).1 = [] ∧
  maxHistory (SudokuHistory.saveState state h w).1 = maxHistory h.
Proof.
  intros Hlen. unfold SudokuHistory.saveState. cbv zeta.
  cbn [fst undoStack redoStack maxHistory]. split_and!; [|done..].
  rewrite length_app. cbn [length].
  destruct (maxHistory h <? length (undoStack h) + 1)%nat eqn:Hfull.
  - apply Nat.ltb_lt in Hfull.
    replace (_ + 1 - _)%nat with 1%nat by lia.
    by destruct (undoStack h ++ _).
  - apply Nat.ltb_ge in Hfull. by replace (_ - _)%nat with 0%nat by lia.
Qed.

(** The stacks after a run of [saveState] calls. *)
Lemma saveStates_stacks {W} (states : list savedState) (h : history W)
    (w : W) :
  (length (undoStack h) ≤ maxHistory h)%nat →
  undoStack (foldl afterCall (h, w) (map CallSaveState states)).1 =
  drop (length (undoStack h) + length states - maxHistory h)
    (undoStack h ++ map SudokuHistory.cloneState states) ∧
  redoStack (foldl afterCall (h, w) (map CallSaveState states)).1
  = (if states is [] then redoStack h else []) ∧
  maxHistory (foldl afterCall (h, w) (map CallSaveState states)).1
  = maxHistory h.
Proof.
  revert h w. induction states as [|s states IH]; intros h w Hlen.
  { cbn [map foldl fst length]. rewrite app_nil_r, Nat.add_0_r.
    by replace (_ - _)%nat with 0%nat by lia. }
  cbn [map foldl afterCall fst snd].
  destruct (saveState_stacks s h w Hlen) as (Hundo & Hredo & Hmax).
  destruct (SudokuHistory.saveState s h w) as [h1 w1]. cbn [fst] in *.
  assert (length (undoStack h1) ≤ maxHistory h1)%nat as Hlen1.
  { rewrite Hundo, Hmax, length_drop, length_app. cbn [length]. lia. }
  destruct (IH h1 w1 Hlen1) as (IH1 & IH2 & IH3).
  rewrite IH1, IH2, IH3, Hmax. split_and!; [|by destruct states|done].
  rewrite Hundo at 2. rewrite <- drop_app_le
    by (rewrite length_app; cbn [length]; lia).
  rewrite drop_drop, <- app_assoc. cbn [app length]. f_equal.
  rewrite Hundo, length_drop, length_app. cbn [length]. lia.
Qed.

(** After [clear] and [saveState] of one state after the other, the undo
    stack holds copies of the last 100 of them, the latest on top, and the
    redo stack is empty; so the steps that can be undone are the number
    of states saved, up to 100. *)
Theorem saveState_keeps_last_100 {W}
    (onStateChange : list savedState → list savedState → W → W) (w : W)
    (calls : list historyCall) (states : list savedState) :
  let h :=
    (afterCalls onStateChange w
       (calls ++ CallClear :: map CallSaveState states)).1 in
  undoStack h
  = drop (length states - 100) (map SudokuHistory.cloneState states) ∧
  SudokuHistory.getUndoCount h = (length states `min` 100)%nat ∧
  SudokuHistory.getRedoCount h = 0%nat.
Proof.
  unfold afterCalls. rewrite foldl_app. cbn [foldl].
  destruct (afterCalls_invariant onStateChange w calls) as (Hmax & _).
  unfold afterCalls in Hmax.
  destruct (foldl afterCall _ calls) as [h0 w0]. cbn [fst] in Hmax.
  cbn [afterCall fst snd]. unfold SudokuHistory.clear. cbv zeta.
  rewrite Hmax.
  match goal with
  | |- context [foldl afterCall (?h1, ?w1)] =>
      destruct (saveStates_stacks states h1 w1) as (Hundo & Hredo & _);
        [cbn; lia|]
  end.
  cbn [undoStack redoStack maxHistory app length Nat.add] in Hundo, Hredo.
  unfold SudokuHistory.getUndoCount, SudokuHistory.getRedoCount.
  rewrite Hundo, Hredo. split_and!; [done| |by destruct states].
  rewrite length_drop, length_map. lia.
Qed.

(** ** The game: conflicts and completion *)

Lemma getValue_buildCurrentGrid (g : game) (r c : nat) :
  (r < 9)%nat → (c < 9)%nat →
  getValue g r c = get (buildCurrentGrid (core g)) r c.
Proof.
  intros Hr Hc. rewrite get_buildCurrentGrid by done. unfold getValue.
  destruct (isOfficial (core g) r c); [done|].
  destruct (get (userEntries (core g)) r c =? 0) eqn:Hzero; [|done].
  by apply Z.eqb_eq in Hzero.
Qed.

Lemma wfFlags_setConflict (conflicts : list (list bool)) (r c : nat) :
  wfFlags conflicts → wfFlags (setConflict conflicts r c).
Proof.
  intros [Hlen Hrows]. unfold setConflict. split.
  - by rewrite length_alter.
  - apply Forall_alter; [done|]. intros row _ Hrow.
    by rewrite length_insert.
Qed.

Lemma conflictAt_setConflict (conflicts : list (list bool))
    (r c a b : nat) :
  wfFlags conflicts → (r < 9)%nat → (c < 9)%nat →
  conflictAt (setConflict conflicts r c) a b = true ↔
  (a, b) = (r, c) ∨ conflictAt conflicts a b = true.
Proof.
  intros [Hlen Hrows] Hr Hc. unfold conflictAt, setConflict.
  destruct (decide (a = r)) as [->|Hne].
  - rewrite list_lookup_alter_eq.
    destruct (lookup_lt_is_Some_2 conflicts r) as [row Hrow]; [lia|].
    rewrite Hrow. cbn [fmap option_fmap option_map].
    assert (length row = 9%nat) as Hrowlen.
    { rewrite Forall_forall in Hrows. apply Hrows.
      by apply list_elem_of_lookup_2 in Hrow. }
    destruct (decide (b = c)) as [->|Hne].
    + rewrite list_lookup_insert_eq by lia. cbn. split; [by left|done].
    + rewrite list_lookup_insert_ne by done. split; [by right|].
      intros [[= ?]|H]; done.
  - rewrite list_lookup_alter_ne by done. split; [by right|].
    intros [[= ? ?]|H]; done.
Qed.

(** A loop that marks the cell [(r0, c0)] and the cell of [x] whenever
    [x] passes the test. *)
Lemma marks_fold {A} (test : A → bool) (cell : A → nat * nat)
    (r0 c0 : nat) (l : list A) (conflicts : list (list bool)) :
  wfFlags conflicts → (r0 < 9)%nat → (c0 < 9)%nat →
  (∀ x, x ∈ l → ((cell x).1 < 9)%nat ∧ ((cell x).2 < 9)%nat) →
  let result :=
    foldl (fun conflicts x =>
             if test x
             then setConflict (setConflict conflicts r0 c0)
                    (cell x).1 (cell x).2
             else conflicts)
      conflicts l in
  wfFlags result ∧
  ∀ a b, conflictAt result a b = true ↔
         conflictAt conflicts a b = true ∨
         ∃ x, x ∈ l ∧ test x = true ∧
              ((a, b) = (r0, c0) ∨ (a, b) = cell x).
Proof.
  intros Hwf Hr0 Hc0. induction l as [|x l IH] using rev_ind; intros Hl.
  { cbn. split; [done|]. intros a b. split; [by left|].
    by intros [H|(x & []%elem_of_nil & _)]. }
  cbv zeta. rewrite foldl_app. cbn [foldl].
  destruct IH as [Hwf' Hspec].
  { intros y Hy. apply Hl, elem_of_app. by left. }
  destruct (Hl x) as [Hrx Hcx]; [apply elem_of_app; right; by left|].
  destruct (test x) eqn:Htest.
  - split; [by do 2 apply wfFlags_setConflict|]. intros a b.
    rewrite conflictAt_setConflict, conflictAt_setConflict, Hspec;
      [|done..|by apply wfFlags_setConflict|done|done].
    split.
    + intros [Hab|[Hab|[H|(y & Hy & Hty & Hab)]]].
      * right. exists x. split; [apply elem_of_app; right; by left|].
        split; [done|]. right. by destruct (cell x).
      * right. exists x. split; [apply elem_of_app; right; by left|].
        split; [done|]. by left.
      * by left.
      * right. exists y. split; [apply elem_of_app; by left|done].
    + intros [H|(y & [Hy|Hy%list_elem_of_singleton]%elem_of_app & Hty
                   & Hab)].
      * by right; right; left.
      * right; right; right. by exists y.
      * subst y. destruct Hab as [Hab|Hab]; [by right; left|].
        left. by destruct (cell x).
  - split; [done|]. intros a b. rewrite Hspec. split.
    + intros [H|(y & Hy & Hty & Hab)]; [by left|].
      right. exists y. split; [apply elem_of_app; by left|done].
    + intros [H|(y & [Hy|Hy%list_elem_of_singleton]%elem_of_app & Hty
                   & Hab)]; [by left| |congruence].
      right. by exists y.
Qed.

Lemma foldl_nested {A B C} (f : C → A → B → C) (la : list A) (lb : list B)
    (init : C) :
  foldl (fun acc a => foldl (fun acc b => f acc a b) acc lb) init la
  = foldl (fun acc ab => f acc ab.1 ab.2) init
      (a ← la; b ← lb; [(a, b)]).
Proof.
  revert init. induction la as [|a la IH]; intros init; [done|].
  cbn [foldl]. rewrite bind_cons, foldl_app, <- IH. f_equal.
  clear IH. revert init. induction lb as [|b lb IH]; intros init; [done|].
  cbn [foldl]. rewrite bind_cons. cbn [app foldl fst snd]. apply IH.
Qed.

(** What the loops of [updateConflicts] do for one cell. *)
Lemma conflictsOfCell_spec (g : game) (conflicts : list (list bool))
    (row col : nat) :
  wfFlags conflicts → (row < 9)%nat → (col < 9)%nat →
  wfFlags (conflictsOfCell g conflicts row col) ∧
  ∀ a b, conflictAt (conflictsOfCell g conflicts row col) a b = true ↔
         conflictAt conflicts a b = true ∨
         getValue g row col ≠ 0 ∧
         ∃ r c, duplicateOf g row col r c ∧
                ((a, b) = (row, col) ∨ (a, b) = (r, c)).
Proof.
  intros Hwf Hrow Hcol. unfold conflictsOfCell. cbv zeta.
  destruct (getValue g row col =? 0) eqn:Hzero.
  { apply Z.eqb_eq in Hzero. split; [done|]. intros a b.
    split; [by left|]. by intros [H|[H _]]. }
  apply Z.eqb_neq in Hzero.
  rewrite (foldl_nested
             (fun conflicts r c =>
                if (negb (r =? row)%nat || negb (c =? col)%nat)
                   && (getValue g r c =? getValue g row col)
                then setConflict (setConflict conflicts row col) r c
                else conflicts)).
  change (r ← seq (boxStart row) 3; c ← seq (boxStart col) 3; [(r, c)])
    with (boxCells (boxStart row) (boxStart col)).
  pose proof (marks_fold
                (fun c => negb (c =? col)%nat
                          && (getValue g row c =? getValue g row col))
                (fun c => (row, c)) row col idx9 conflicts Hwf Hrow Hcol)
    as [Hwf1 Hspec1].
  { intros c Hc%elem_of_idx9. done. }
  cbn [fst snd] in Hwf1, Hspec1.
  set (conflicts1 := foldl _ conflicts idx9) in *.
  pose proof (marks_fold
                (fun r => negb (r =? row)%nat
                          && (getValue g r col =? getValue g row col))
                (fun r => (r, col)) row col idx9 conflicts1 Hwf1 Hrow Hcol)
    as [Hwf2 Hspec2].
  { intros r Hr%elem_of_idx9. done. }
  cbn [fst snd] in Hwf2, Hspec2.
  set (conflicts2 := foldl _ conflicts1 idx9) in *.
  pose proof (marks_fold
                (fun rc : nat * nat =>
                   (negb (rc.1 =? row)%nat || negb (rc.2 =? col)%nat)
                   && (getValue g rc.1 rc.2 =? getValue g row col))
                (fun rc => rc) row col
                (boxCells (boxStart row) (boxStart col)) conflicts2
                Hwf2 Hrow Hcol)
    as [Hwf3 Hspec3].
  { intros [r c] [Hr%in_box_iff Hc%in_box_iff]%elem_of_boxCells.
    cbn [fst snd] in *.
    split; [by apply (box_lt_9 row)|by apply (box_lt_9 col)]. }
  cbn [fst snd] in Hwf3, Hspec3.
  split; [exact Hwf3|]. intros a b.
  rewrite Hspec3, Hspec2, Hspec1. clear Hspec1 Hspec2 Hspec3.
  unfold duplicateOf. split.
  - intros [[[H|(c & Hc%elem_of_idx9 & Htest & Hab)]
            |(r & Hr%elem_of_idx9 & Htest & Hab)]
           |([r c] & [Hr%in_box_iff Hc%in_box_iff]%elem_of_boxCells
             & Htest & Hab)].
    + by left.
    + apply andb_true_iff in Htest as [Hne%negb_true_iff%Nat.eqb_neq
                                         Heq%Z.eqb_eq].
      right. split; [done|]. exists row, c. split; [|done].
      split_and!; [done|done|congruence|by left|done].
    + apply andb_true_iff in Htest as [Hne%negb_true_iff%Nat.eqb_neq
                                         Heq%Z.eqb_eq].
      right. split; [done|]. exists r, col. split; [|done].
      split_and!; [done|done|congruence|by right; left|done].
    + cbn [fst snd] in *.
      apply andb_true_iff in Htest as [Hne Heq%Z.eqb_eq].
      right. split; [done|]. exists r, c. split; [|done].
      split_and!; [by apply (box_lt_9 row)|by apply (box_lt_9 col)| |
                   by right; right|done].
      intros [= -> ->]. rewrite !Nat.eqb_refl in Hne. done.
  - intros [H|[_ (r & c & (Hr & Hc & Hne & Hpeer & Heq) & Hab)]];
      [by left; left; left|].
    destruct Hpeer as [<-|[<-|[Hbr Hbc]]].
    + left; left; right. exists c. split; [by apply elem_of_idx9|].
      split; [|done]. apply andb_true_iff.
      split; [|by apply Z.eqb_eq].
      apply negb_true_iff, Nat.eqb_neq. congruence.
    + left; right. exists r. split; [by apply elem_of_idx9|].
      split; [|done]. apply andb_true_iff.
      split; [|by apply Z.eqb_eq].
      apply negb_true_iff, Nat.eqb_neq. congruence.
    + right. exists (r, c). split.
      { apply elem_of_boxCells. cbn [fst snd].
        split; by apply in_box_iff. }
      split; [|done]. cbn [fst snd]. apply andb_true_iff.
      split; [|by apply Z.eqb_eq].
      destruct (r =? row)%nat eqn:Hrr; [|done].
      destruct (c =? col)%nat eqn:Hcc; [|done].
      apply Nat.eqb_eq in Hrr, Hcc. congruence.
Qed.

Lemma wfFlags_blank : wfFlags (replicate 9 (replicate 9 false)).
Proof. split; [done|]. by repeat constructor. Qed.

(** The table of conflicts after the loops over a list of cells. *)
Lemma conflictsOfCells_spec (g : game) (cells : list (nat * nat))
    (conflicts : list (list bool)) :
  wfFlags conflicts → (∀ rc, rc ∈ cells → rc ∈ allCells) →
  let result :=
    foldl (fun conflicts rc => conflictsOfCell g conflicts rc.1 rc.2)
      conflicts cells in
  wfFlags result ∧
  ∀ a b, conflictAt result a b = true ↔
         conflictAt conflicts a b = true ∨
         ∃ row col, (row, col) ∈ cells ∧ getValue g row col ≠ 0 ∧
           ∃ r c, duplicateOf g row col r c ∧
                  ((a, b) = (row, col) ∨ (a, b) = (r, c)).
Proof.
  intros Hwf. induction cells as [|[row col] cells IH] using rev_ind;
    intros Hcells.
  { cbn. split; [done|]. intros a b. split; [by left|].
    by intros [H|(? & ? & []%elem_of_nil & _)]. }
  cbv zeta. rewrite foldl_app. cbn [foldl fst snd].
  destruct IH as [Hwf' Hspec].
  { intros rc Hrc. apply Hcells, elem_of_app. by left. }
  assert ((row, col) ∈ allCells) as [Hrow Hcol]%elem_of_allCells
    by (apply Hcells, elem_of_app; right; by left).
  destruct (conflictsOfCell_spec g _ row col Hwf' Hrow Hcol)
    as [Hwf'' Hspec'].
  split; [done|]. intros a b. rewrite Hspec', Hspec. split.
  - intros [[H|(row' & col' & Hin & H)]|H].
    + by left.
    + right. exists row', col'. split; [apply elem_of_app; by left|done].
    + right. exists row, col.
      split; [apply elem_of_app; right; by left|done].
  - intros [H|(row' & col'
               & [Hin|[= -> ->]%list_elem_of_singleton]%elem_of_app & H)].
    + by left; left.
    + left; right. by exists row', col'.
    + by right.
Qed.

(** The cells that [updateConflicts] marks. *)
Lemma updateConflicts_spec (g : game) (a b : nat) :
  conflictAt (conflicts (updateConflicts g)) a b = true ↔
  (a < 9)%nat ∧ (b < 9)%nat ∧ getValue g a b ≠ 0 ∧
  ∃ r c, (r < 9)%nat ∧ (c < 9)%nat ∧ (r, c) ≠ (a, b) ∧ peer a b r c ∧
         getValue g r c = getValue g a b.
Proof.
  unfold updateConflicts. cbv zeta. cbn [conflicts].
  destruct (conflictsOfCells_spec g allCells _ wfFlags_blank) as [_ Hspec];
    [done|].
  rewrite Hspec. clear Hspec. unfold duplicateOf. split.
  - intros [H|(row & col & [Hrow Hcol]%elem_of_allCells & Hnz & r & c
               & (Hr & Hc & Hne & Hpeer & Heq) & [[= -> ->]|[= -> ->]])].
    + exfalso. revert H. unfold conflictAt.
      destruct (decide (a < 9)%nat) as [Ha|Ha].
      * rewrite lookup_replicate_2 by done.
        destruct (decide (b < 9)%nat) as [Hb|Hb].
        -- by rewrite lookup_replicate_2.
        -- rewrite lookup_ge_None_2; [done|]. rewrite length_replicate. lia.
      * rewrite lookup_ge_None_2; [done|]. rewrite length_replicate. lia.
    + split_and!; [done..|]. by exists r, c.
    + split_and!; [done|done|congruence|]. exists row, col.
      split_and!; [done|done|congruence|by apply peer_sym|done].
  - intros (Ha & Hb & Hnz & r & c & Hdup). right. exists a, b.
    split; [by apply elem_of_allCells|]. split; [done|].
    exists r, c. split; [done|by left].
Qed.

(** After [updateConflicts], a cell is marked as a conflict exactly when
    it shows a number and some other cell of its row, column or box shows
    the same number. *)
Theorem updateConflicts_marks_duplicates (g : game) (a b : nat) :
  conflictAt (conflicts (updateConflicts g)) a b = true ↔
  (a < 9)%nat ∧ (b < 9)%nat ∧ getValue g a b ≠ 0 ∧
  ∃ r c, (r < 9)%nat ∧ (c < 9)%nat ∧ (r, c) ≠ (a, b) ∧ peer a b r c ∧
         getValue g r c = getValue g a b.
Proof. apply updateConflicts_spec. Qed.

(** The current grid has no clash exactly when [updateConflicts] marks no
    cell. *)
Lemma updateConflicts_noClash (g : game) :
  (∀ a b, conflictAt (conflicts (updateConflicts g)) a b = false) ↔
  noClash (buildCurrentGrid (core g)).
Proof.
  split.
  - intros Hnone r c r' c' Hr Hc Hr' Hc' Hne Hpeer Hnz Heq.
    rewrite <- !getValue_buildCurrentGrid in * by done.
    specialize (Hnone r c). apply not_true_iff_false in Hnone.
    apply Hnone, updateConflicts_spec.
    split_and!; [done..|]. exists r', c'.
    split_and!; [done|done|congruence|done|done].
  - intros Hclash a b. apply not_true_iff_false.
    intros (Ha & Hb & Hnz & r & c & Hr & Hc & Hne & Hpeer & Heq)
             %updateConflicts_spec.
    rewrite !getValue_buildCurrentGrid in * by done.
    apply (Hclash a b r c); [done..|congruence|done|done|done].
Qed.

Lemma existsb_allCells_false (f : nat * nat → bool) :
  existsb f allCells = false ↔
  ∀ r c, (r < 9)%nat → (c < 9)%nat → f (r, c) = false.
Proof.
  rewrite <- not_true_iff_false, existsb_exists. split.
  - intros Hno r c Hr Hc. apply not_true_iff_false. intros Hf. apply Hno.
    exists (r, c). split; [|done].
    by apply list_elem_of_In, elem_of_allCells.
  - intros Hall ([r c] & [Hr Hc]%list_elem_of_In%elem_of_allCells & Hf).
    by rewrite Hall in Hf.
Qed.

(** [checkCompletion] sets [isComplete] when every cell shows a number
    and no cell is marked as a conflict, and changes nothing else. *)
Lemma checkCompletion_spec (g : game) :
  isComplete (checkCompletion g) = true ↔
  isComplete g = true ∨
  (∀ r c, (r < 9)%nat → (c < 9)%nat → getValue g r c ≠ 0) ∧
  (∀ r c, (r < 9)%nat → (c < 9)%nat → conflictAt (conflicts g) r c = false).
Proof.
  unfold checkCompletion.
  destruct (existsb (fun rc : nat * nat => getValue g rc.1 rc.2 =? 0) _)
    eqn:Hempty.
  { split; [by left|]. intros [H|[Hfull _]]; [done|].
    apply not_false_iff_true in Hempty. destruct Hempty.
    apply existsb_allCells_false. intros r c Hr Hc. cbn [fst snd].
    by apply Z.eqb_neq, Hfull. }
  destruct (existsb (fun rc : nat * nat => conflictAt _ rc.1 rc.2) _)
    eqn:Hconf.
  { split; [by left|]. intros [H|[_ Hnone]]; [done|].
    apply not_false_iff_true in Hconf. destruct Hconf.
    apply existsb_allCells_false. intros r c Hr Hc. cbn [fst snd].
    by apply Hnone. }
  cbn [isComplete]. split; [|done]. intros _. right. split.
  - intros r c Hr Hc. apply Z.eqb_neq.
    by apply (proj1 (existsb_allCells_false _) Hempty r c).
  - intros r c Hr Hc.
    by apply (proj1 (existsb_allCells_false _) Hconf r c).
Qed.

(** The check that [handleNumberInput] and [useClue] run after a change,
    [updateConflicts] and then [checkCompletion], in terms of the rules. *)
Lemma updateConflicts_checkCompletion (g : game) :
  isComplete g = false →
  isComplete (checkCompletion (updateConflicts g)) = true ↔
  Complete (buildCurrentGrid (core g)) ∧
  noClash (buildCurrentGrid (core g)).
Proof.
  intros Hnot. rewrite checkCompletion_spec, <- updateConflicts_noClash.
  change (isComplete (updateConflicts g)) with (isComplete g).
  rewrite Hnot. split.
  - intros [?|[Hfull Hnone]]; [done|]. split.
    + intros r c Hr Hc. rewrite <- getValue_buildCurrentGrid by done.
      by apply (Hfull r c).
    + intros a b. destruct (decide (a < 9)%nat) as [Ha|Ha];
        [destruct (decide (b < 9)%nat) as [Hb|Hb]|].
      * by apply Hnone.
      * apply not_true_iff_false.
        intros (_ & ? & _)%updateConflicts_spec. done.
      * apply not_true_iff_false.
        intros (? & _)%updateConflicts_spec. done.
  - intros [Hfull Hnone]. right. split.
    + intros r c Hr Hc.
      change (getValue (updateConflicts g) r c) with (getValue g r c).
      rewrite getValue_buildCurrentGrid by done. by apply Hfull.
    + intros r c _ _. apply Hnone.
Qed.

(** The check after a change, in terms of the validator. *)
Lemma checked_iff_valid_grid (g : game) :
  (∀ r c, (r < 9)%nat → (c < 9)%nat → 0 ≤ getValue g r c ≤ 9) →
  isComplete g = false →
  isComplete (checkCompletion (updateConflicts g)) = true ↔
  isValidGrid (buildCurrentGrid (core g)) true = true.
Proof.
  intros Hrange Hnot.
  rewrite updateConflicts_checkCompletion, isValidGrid_spec by done.
  unfold Consistent. split.
  - intros [Hfull Hclash]. split; [|done].
    split; [apply wfGrid_buildCurrentGrid|]. split; [|done].
    intros r c Hr Hc. rewrite <- getValue_buildCurrentGrid by done.
    by apply Hrange.
  - intros [(_ & _ & Hclash) Hfull]. split; [by apply Hfull|done].
Qed.

(** While the numbers on the board are in 0..9, the game declares the
    puzzle complete ([updateConflicts], then [checkCompletion]) exactly
    when the generator's [isValidGrid] accepts the current grid as a
    complete grid. *)
Theorem checkCompletion_iff_valid_grid (g : game) :
  (∀ r c, (r < 9)%nat → (c < 9)%nat → 0 ≤ getValue g r c ≤ 9) →
  isComplete g = false →
  isComplete (checkCompletion (updateConflicts g)) = true ↔
  isValidGrid (buildCurrentGrid (core g)) true = true.
Proof. apply checked_iff_valid_grid. Qed.

Lemma checkCompletion_iff_valid_grid_witness :
  isComplete (checkCompletion (updateConflicts
    (withEntries
       (startNewGame "easy" (PuzzleData (set firstSolution 0 0 0)
                               firstSolution) initialState)
       (set emptyGrid 0 0 1)))) = true ↔
  isValidGrid (buildCurrentGrid (core
    (withEntries
       (startNewGame "easy" (PuzzleData (set firstSolution 0 0 0)
                               firstSolution) initialState)
       (set emptyGrid 0 0 1)))) true = true.
Proof.
  apply checkCompletion_iff_valid_grid; [|reflexivity].
  intros r c Hr Hc. each_cell r c ltac:(by vm_compute).
Defined.

(** ** A game on a generated puzzle *)

(** A puzzle that [hasUniqueSolution] accepts has one valid completion at
    most. *)
Lemma hasUniqueSolution_only (p s s' : grid) :
  hasUniqueSolution p = Some true → Consistent p →
  Completion p s → Completion p s' → s' = s.
Proof.
  intros Huniq Hcons Hs Hs'. pose proof (Consistent_wf _ Hcons) as Hwf.
  destruct (completions_spec 82 p Hcons (fuel_82 _)) as [_ Hmem].
  pose proof (countSolutions_completions 82 p 0 Hwf (fuel_82 _)
                ltac:(lia)) as Hcount.
  unfold hasUniqueSolution in Huniq. rewrite copyGrid_id in Huniq.
  apply Hmem in Hs, Hs'.
  destruct (completions 82 p) as [|x [|y sols]];
    rewrite Hcount in Huniq; cbn [length] in Huniq.
  - by apply elem_of_nil in Hs.
  - apply list_elem_of_singleton in Hs, Hs'. by subst.
  - exfalso. clear -Huniq. simpl in Huniq. discriminate.
Qed.

Lemma isOfficial_started (difficulty : string) (data : puzzleData)
    (g0 : game) (entries : grid) (r c : nat) :
  wfGrid (puzzle data) → (r < 9)%nat → (c < 9)%nat →
  isOfficial (core (withEntries (startNewGame difficulty data g0) entries))
    r c
  = negb (get (puzzle data) r c =? 0).
Proof.
  intros Hwf Hr Hc. unfold isOfficial, get. cbn [withEntries startNewGame
    core official statePuzzle stateSolution].
  change (map ?f (puzzle data)) with (f <$> puzzle data).
  rewrite list_lookup_fmap.
  destruct (wfGrid_row _ r Hwf Hr) as (row & -> & Hlen).
  cbn [fmap option_fmap option_map].
  change (map ?f row) with (f <$> row). rewrite list_lookup_fmap.
  destruct (lookup_lt_is_Some_2 row c) as [v ->]; [lia|]. done.
Qed.

(** What a cell shows in a game started on [data], after the player has
    entered [entries]: the clue of the puzzle, or else the entry. *)
Lemma getValue_started (difficulty : string) (data : puzzleData)
    (g0 : game) (entries : grid) (r c : nat) :
  wfGrid (puzzle data) → (r < 9)%nat → (c < 9)%nat →
  getValue (withEntries (startNewGame difficulty data g0) entries) r c
  = if get (puzzle data) r c =? 0 then get entries r c
    else get (puzzle data) r c.
Proof.
  intros Hwf Hr Hc. unfold getValue.
  rewrite isOfficial_started by done.
  cbn [withEntries startNewGame core statePuzzle userEntries].
  rewrite copyGrid_id. by destruct (get (puzzle data) r c =? 0).
Qed.

(** In a game started on a puzzle that [hasUniqueSolution] accepts, the
    game declares the puzzle complete exactly when every cell shows the
    number of the solution that came with the puzzle. *)
Lemma unique_game_complete (difficulty : string) (data : puzzleData)
    (g0 : game) (entries : grid) :
  isValidGrid (solution data) true = true →
  isValidGrid (puzzle data) false = true →
  cluesOf (puzzle data) (solution data) →
  hasUniqueSolution (puzzle data) = Some true →
  (∀ r c, (r < 9)%nat → (c < 9)%nat → 0 ≤ get entries r c ≤ 9) →
  isComplete (checkCompletion (updateConflicts
    (withEntries (startNewGame difficulty data g0) entries))) = true ↔
  ∀ r c, (r < 9)%nat → (c < 9)%nat →
    getValue (withEntries (startNewGame difficulty data g0) entries) r c
    = get (solution data) r c.
Proof.
  intros Hsol Hpuz Hclues Huniq Hrange.
  set (g := withEntries (startNewGame difficulty data g0) entries).
  pose proof Hsol as [Hscons Hsfull]%isValidGrid_spec.
  specialize (Hsfull eq_refl).
  pose proof Hpuz as [Hpcons _]%isValidGrid_spec.
  pose proof (Consistent_wf _ Hpcons) as Hpwf.
  pose proof (Consistent_wf _ Hscons) as Hswf.
  assert (∀ r c, (r < 9)%nat → (c < 9)%nat → 0 ≤ getValue g r c ≤ 9)
    as Hvalues.
  { intros r c Hr Hc. unfold g. rewrite getValue_started by done.
    destruct (get (puzzle data) r c =? 0); [by apply Hrange|].
    by apply Hpcons. }
  rewrite checked_iff_valid_grid by done. split.
  - intros [Hcons Hfull]%isValidGrid_spec r c Hr Hc.
    specialize (Hfull eq_refl).
    assert (buildCurrentGrid (core g) = solution data) as Heq.
    { apply (hasUniqueSolution_only (puzzle data) _ _ Huniq Hpcons
               (checked_Completion _ _ Hsol Hclues)).
      split; [split; [exact Hcons|exact Hfull]|].
      intros r' c' Hr' Hc' Hnz.
      rewrite <- getValue_buildCurrentGrid by exact Hr' || exact Hc'.
      unfold g. rewrite getValue_started by assumption.
      apply Z.eqb_neq in Hnz. rewrite Hnz. reflexivity. }
    rewrite getValue_buildCurrentGrid, Heq by assumption. reflexivity.
  - intros Hall.
    assert (buildCurrentGrid (core g) = solution data) as ->;
      [|exact Hsol].
    apply grid_ext; [apply wfGrid_buildCurrentGrid|exact Hswf|].
    intros r c Hr Hc. rewrite <- getValue_buildCurrentGrid by assumption.
    exact (Hall r c Hr Hc).
Qed.

(** On the levels 'hard' and 'superhard', in a game started on the puzzle
    that [generatePuzzle] returned, whatever numbers of 0..9 the player
    has entered: the game declares the puzzle complete exactly when every
    cell shows the number of the solution that came with the puzzle. *)
Theorem hard_game_complete_iff_solution (rand : nat → nat) (fuel : nat)
    (difficulty : string) (maxAttempts k k' : nat) (data : puzzleData)
    (g0 : game) (entries : grid) :
  difficulty = "hard"%string ∨ difficulty = "superhard"%string →
  generatePuzzle rand fuel difficulty maxAttempts k = Some (data, k') →
  (∀ r c, (r < 9)%nat → (c < 9)%nat → 0 ≤ get entries r c ≤ 9) →
  isComplete (checkCompletion (updateConflicts
    (withEntries (startNewGame difficulty data g0) entries))) = true ↔
  ∀ r c, (r < 9)%nat → (c < 9)%nat →
    getValue (withEntries (startNewGame difficulty data g0) entries) r c
    = get (solution data) r c.
Proof.
  intros Hhard (fuel' & k1 & k2 & Hattempt)%generatePuzzle_attempt Hrange.
  pose proof (generatePuzzleAttempt_unique _ _ _ _ _ _ Hhard Hattempt)
    as Huniq.
  apply generatePuzzleAttempt_checked in Hattempt as (Hsol & Hpuz & Hclues).
  exact (unique_game_complete difficulty data g0 entries Hsol Hpuz Hclues
           Huniq Hrange).
Qed.

Lemma hard_game_complete_iff_solution_witness :
  ∃ data k',
    generatePuzzle zeroRandom 2 "hard" 10 0%nat = Some (data, k') ∧
    (isComplete (checkCompletion (updateConflicts
       (withEntries (startNewGame "hard" data initialState) emptyGrid)))
     = true ↔
     ∀ r c, (r < 9)%nat → (c < 9)%nat →
       getValue (withEntries (startNewGame "hard" data initialState)
                   emptyGrid) r c
       = get (solution data) r c).
Proof.
  eexists _, _.
  assert (generatePuzzle zeroRandom 2 "hard" 10 0%nat = Some (_, _)) as Hrun
    by (vm_compute; reflexivity).
  split; [exact Hrun|].
  apply (hard_game_complete_iff_solution zeroRandom 2 "hard" 10 0 _ _
           initialState emptyGrid (or_introl eq_refl) Hrun).
  clear Hrun. intros r c Hr Hc. each_cell r c ltac:(by vm_compute).
Defined.

(** ** solvePuzzle *)

(** The entries after the loop of [solvePuzzle] over a list of cells. *)
Lemma solvePuzzle_loop (g : game) (cells : list (nat * nat)) :
  wfGrid (userEntries (core g)) →
  let result :=
    foldl (fun (ec : grid * list (list (list Z))) (rc : nat * nat) =>
             let '(row, col) := rc in
             if negb (isOfficial (core g) row col)
             then (set ec.1 row col (get (stateSolution (core g)) row col),
                   clearCandidates ec.2 row col)
             else ec)
      (userEntries (core g), candidates g) cells in
  wfGrid result.1 ∧
  ∀ r c, (r < 9)%nat → (c < 9)%nat →
    get result.1 r c =
    if bool_decide ((r, c) ∈ cells) && negb (isOfficial (core g) r c)
    then get (stateSolution (core g)) r c
    else get (userEntries (core g)) r c.
Proof.
  intros Hwf. induction cells as [|[row col] cells IH] using rev_ind.
  { cbn. split; [done|]. intros r c _ _.
    rewrite bool_decide_eq_false_2; [done|]. by intros ?%elem_of_nil. }
  cbv zeta. rewrite foldl_app. cbn [foldl].
  destruct IH as [Hwf' Hcells].
  destruct (foldl _ _ cells) as [entries cands]. cbn [fst snd] in *.
  destruct (isOfficial (core g) row col) eqn:Hoff; cbn [negb fst].
  - split; [done|]. intros r c Hr Hc. rewrite Hcells by done.
    destruct (decide ((r, c) = (row, col))) as [[= -> ->]|Hne].
    + by rewrite Hoff, !andb_false_r.
    + rewrite (bool_decide_ext ((r, c) ∈ cells ++ [(row, col)])
                 ((r, c) ∈ cells)); [done|].
      rewrite elem_of_app, list_elem_of_singleton. tauto.
  - split; [by apply wfGrid_set|]. intros r c Hr Hc.
    destruct (decide ((r, c) = (row, col))) as [[= -> ->]|Hne].
    + rewrite get_set_eq, Hoff by done.
      rewrite bool_decide_eq_true_2; [done|].
      apply elem_of_app. right. by left.
    + rewrite get_set_ne by congruence. rewrite Hcells by done.
      rewrite (bool_decide_ext ((r, c) ∈ cells ++ [(row, col)])
                 ((r, c) ∈ cells)); [done|].
      rewrite elem_of_app, list_elem_of_singleton. tauto.
Qed.

(** After [solvePuzzle], an official cell shows its clue and every other
    cell shows the number of the solution. *)
Lemma getValue_solvePuzzle (g : game) (r c : nat) :
  wfGrid (userEntries (core g)) → (r < 9)%nat → (c < 9)%nat →
  getValue (solvePuzzle g) r c =
  if isOfficial (core g) r c then get (statePuzzle (core g)) r c
  else get (stateSolution (core g)) r c.
Proof.
  intros Hwf Hr Hc. unfold solvePuzzle.
  destruct (solvePuzzle_loop g allCells Hwf) as [_ Hcells].
  destruct (foldl _ _ allCells) as [entries cands]. cbn [fst] in Hcells.
  unfold getValue. cbn [updateConflicts core official statePuzzle
    userEntries isOfficial].
  change (isOfficial (GameState ?p ?e (official (core g)) ?s) r c)
    with (isOfficial (core g) r c).
  destruct (isOfficial (core g) r c) eqn:Hoff; [done|].
  rewrite Hcells by done. rewrite Hoff.
  rewrite bool_decide_eq_true_2; [done|]. by apply elem_of_allCells.
Qed.

(** In a game started on the puzzle that [generatePuzzle] returned,
    whatever the player has entered, [solvePuzzle] leaves a board on which
    every cell shows the number of the solution and no cell is marked as a
    conflict; on that board [checkCompletion] declares the puzzle
    complete. *)
Theorem solvePuzzle_shows_solution (rand : nat → nat) (fuel : nat)
    (difficulty : string) (maxAttempts k k' : nat) (data : puzzleData)
    (g0 : game) (entries : grid) :
  generatePuzzle rand fuel difficulty maxAttempts k = Some (data, k') →
  wfGrid entries →
  let g :=
    solvePuzzle (withEntries (startNewGame difficulty data g0) entries) in
  (∀ r c, (r < 9)%nat → (c < 9)%nat →
     getValue g r c = get (solution data) r c) ∧
  (∀ r c, conflictAt (conflicts g) r c = false) ∧
  isComplete (checkCompletion g) = true.
Proof.
  intros (fuel' & k1 & k2 & Hattempt)%generatePuzzle_attempt Hwf g.
  apply generatePuzzleAttempt_checked in Hattempt as (Hsol & Hpuz & Hclues).
  pose proof Hsol as [Hscons Hsfull]%isValidGrid_spec.
  specialize (Hsfull eq_refl).
  pose proof Hpuz as [Hpcons _]%isValidGrid_spec.
  pose proof (Consistent_wf _ Hpcons) as Hpwf.
  pose proof (Consistent_wf _ Hscons) as Hswf.
  set (g1 := withEntries (startNewGame difficulty data g0) entries) in *.
  assert (∀ r c, (r < 9)%nat → (c < 9)%nat →
            getValue g r c = get (solution data) r c) as Hvalues.
  { intros r c Hr Hc. unfold g. rewrite getValue_solvePuzzle by done.
    unfold g1 at 1. rewrite isOfficial_started by done.
    cbn [g1 withEntries startNewGame core statePuzzle stateSolution].
    rewrite !copyGrid_id.
    destruct (get (puzzle data) r c =? 0) eqn:Hzero; cbn [negb]; [done|].
    apply Z.eqb_neq in Hzero. by apply Hclues. }
  assert (∀ r c, conflictAt (conflicts g) r c = false) as Hnone.
  { unfold g, solvePuzzle.
    destruct (foldl _ _ allCells) as [entries' cands'] eqn:Hloop.
    apply updateConflicts_noClash.
    match goal with
    | |- noClash (buildCurrentGrid (core ?g')) =>
        assert (buildCurrentGrid (core g') = solution data) as ->
    end; [|by destruct Hscons as (_ & _ & ?)].
    apply grid_ext; [apply wfGrid_buildCurrentGrid|done|].
    intros r c Hr Hc. rewrite <- getValue_buildCurrentGrid by done.
    rewrite <- (Hvalues r c Hr Hc). unfold g, solvePuzzle.
    rewrite Hloop. done. }
  split; [done|]. split; [done|].
  apply checkCompletion_spec. right. split.
  - intros r c Hr Hc. rewrite Hvalues by done. by apply Hsfull.
  - intros r c _ _. apply Hnone.
Qed.

Lemma solvePuzzle_shows_solution_witness :
  ∃ data k',
    generatePuzzle zeroRandom 2 "easy" 10 0%nat = Some (data, k') ∧
    (∀ r c, (r < 9)%nat → (c < 9)%nat →
       getValue
         (solvePuzzle (withEntries (startNewGame "easy" data initialState)
                         emptyGrid)) r c
       = get (solution data) r c) ∧
    (∀ r c,
       conflictAt
         (conflicts
            (solvePuzzle
               (withEntries (startNewGame "easy" data initialState)
                  emptyGrid))) r c = false) ∧
    isComplete
      (checkCompletion
         (solvePuzzle (withEntries (startNewGame "easy" data initialState)
                         emptyGrid))) = true.
Proof.
  eexists _, _.
  assert (generatePuzzle zeroRandom 2 "easy" 10 0%nat = Some (_, _)) as Hrun
    by (vm_compute; reflexivity).
  split; [exact Hrun|].
  apply (solvePuzzle_shows_solution zeroRandom 2 "easy" 10 0 _ _
           initialState emptyGrid Hrun).
  clear Hrun. split; [done|]. by repeat constructor.
Defined.

(** ** The current generator and the first version *)

Lemma randBind_unfold {A B} (m : Rand A) (f : A → Rand B) (k : nat) :
  randBind m f k
  = match m k with
    | None => None
    | Some (a, k') => f a k'
    end.
Proof. reflexivity. Qed.

Lemma fillAndValidate_unfold (rand : nat → nat) :
  fillAndValidate rand
  = randBind (fillGrid rand 82 emptyGrid)
      (fun x => let '(_, g) := x in randRet (g, isValidGrid g true)).
Proof. reflexivity. Qed.

Lemma first_generateSolution_unfold (rand : nat → nat) :
  FirstVersion.generateSolution rand
  = randBind (fillGrid rand 82 emptyGrid)
      (fun x => let '(_, g) := x in randRet g).
Proof. reflexivity. Qed.

Lemma fillAndValidate_first_version (rand : nat → nat) (k : nat) :
  ∃ g k',
    fillAndValidate rand k = Some ((g, true), k') ∧
    FirstVersion.generateSolution rand k = Some (g, k').
Proof.
  destruct (fillAndValidate_valid rand k) as (g & k' & Hrun & _).
  exists g, k'. split; [exact Hrun|].
  rewrite fillAndValidate_unfold, randBind_unfold in Hrun.
  rewrite first_generateSolution_unfold, randBind_unfold.
  generalize dependent (fillGrid rand 82 emptyGrid k).
  intros [[[ok g'] k1]|] Hrun; [|discriminate Hrun].
  injection Hrun as -> _ ->. reflexivity.
Qed.

Lemma generateSolution_S (rand : nat → nat) (fuel maxAttempts : nat) :
  generateSolution rand (S fuel) maxAttempts
  = randBind (generateSolutionLoop rand maxAttempts)
      (fun r : option grid =>
         match r with
         | Some g => randRet g
         | None =>
             randBind (fillAndValidate rand)
               (fun x => let '(g, valid) := x in
                  if negb valid then generateSolution rand fuel maxAttempts
                  else randRet g)
         end).
Proof. reflexivity. Qed.

Lemma generateSolutionLoop_S (rand : nat → nat) (attempts : nat) :
  generateSolutionLoop rand (S attempts)
  = randBind (fillAndValidate rand)
      (fun x => let '(g, valid) := x in
         if valid : bool then randRet (Some g)
         else generateSolutionLoop rand attempts).
Proof. reflexivity. Qed.

Lemma generateSolution_first_version (rand : nat → nat)
    (fuel maxAttempts k : nat) :
  (1 ≤ fuel)%nat →
  generateSolution rand fuel maxAttempts k
  = FirstVersion.generateSolution rand k.
Proof.
  intros Hfuel. destruct fuel as [|fuel]; [lia|]. clear Hfuel.
  destruct (fillAndValidate_first_version rand k) as (g & k' & Hrun & ->).
  rewrite generateSolution_S, randBind_unfold.
  destruct maxAttempts as [|attempts].
  - cbn [generateSolutionLoop randRet]. rewrite randBind_unfold, Hrun.
    reflexivity.
  - rewrite generateSolutionLoop_S, randBind_unfold, Hrun. reflexivity.
Qed.

Lemma randBind_intro {A B} (m : Rand A) (f : A → Rand B) (k k1 : nat)
    (a : A) (r : option (B * nat)) :
  m k = Some (a, k1) → f a k1 = r → randBind m f k = r.
Proof. intros Hm Hf. by rewrite randBind_unfold, Hm. Qed.

Lemma generatePuzzle_S (rand : nat → nat) (fuel : nat)
    (difficulty : string) (maxAttempts : nat) :
  generatePuzzle rand (S fuel) difficulty maxAttempts
  = randBind (generatePuzzleLoop rand fuel difficulty maxAttempts)
      (fun r : option puzzleData =>
         match r with
         | Some data => randRet data
         | None => generatePuzzle rand fuel difficulty maxAttempts
         end).
Proof. reflexivity. Qed.

Lemma generatePuzzleLoop_S (rand : nat → nat) (fuel : nat)
    (difficulty : string) (attempts : nat) :
  generatePuzzleLoop rand fuel difficulty (S attempts)
  = randBind (generatePuzzleAttempt rand fuel difficulty)
      (fun r : option puzzleData =>
         match r with
         | Some data => randRet (Some data)
         | None => generatePuzzleLoop rand fuel difficulty attempts
         end).
Proof. reflexivity. Qed.

(** An attempt of [generatePuzzle] that returns an object returns the
    object of the first version. *)
Lemma generatePuzzleAttempt_first_version (rand : nat → nat) (fuel : nat)
    (difficulty : string) (k k' : nat) (data : puzzleData) :
  (1 ≤ fuel)%nat →
  generatePuzzleAttempt rand fuel difficulty k = Some (Some data, k') →
  FirstVersion.generatePuzzle rand difficulty k = Some (data, k').
Proof.
  intros Hfuel Hsteps. unfold generatePuzzleAttempt in Hsteps.
  apply randBind_Some in Hsteps as (s & k1 & Hsol & Hsteps).
  apply randBind_Some in Hsteps as (r & k2 & Hdraw & Hsteps).
  apply randBind_Some in Hsteps as (positions & k3 & Hqueue & Hsteps).
  rewrite generateSolution_first_version in Hsol by lia.
  unfold FirstVersion.generatePuzzle.
  apply (randBind_intro _ _ k k1 s _ Hsol).
  apply (randBind_intro _ _ k1 k2 r _ Hdraw).
  apply (randBind_intro _ _ k2 k3 positions _ Hqueue).
  destruct (removeCells _ _ _ _ _) as [p|]; [|discriminate Hsteps].
  destruct (isValidGrid p false); [|discriminate Hsteps].
  injection Hsteps as <- <-. reflexivity.
Qed.

(** With one attempt at least, [generatePuzzle] returns the object that
    the first version returns, with the same draws from [Math.random]:
    the validation of the solution and of the puzzle never fails, so that
    no attempt is repeated.  Both return for every difficulty. *)
Theorem generatePuzzle_same_as_first_version (rand : nat → nat)
    (fuel : nat) (difficulty : string) (maxAttempts k : nat) :
  (2 ≤ fuel)%nat → (1 ≤ maxAttempts)%nat →
  generatePuzzle rand fuel difficulty maxAttempts k
  = FirstVersion.generatePuzzle rand difficulty k ∧
  ∃ data k', FirstVersion.generatePuzzle rand difficulty k = Some (data, k').
Proof.
  intros Hfuel Hattempts.
  destruct fuel as [|[|fuel]]; [lia..|]. clear Hfuel.
  destruct maxAttempts as [|attempts]; [lia|]. clear Hattempts.
  destruct (generatePuzzleAttempt_returns rand (S fuel) difficulty k)
    as (data & k' & Hattempt); [lia|].
  pose proof (generatePuzzleAttempt_first_version rand (S fuel) difficulty
                k k' data ltac:(lia) Hattempt) as Hfirst.
  split; [|exists data, k'; exact Hfirst]. rewrite Hfirst.
  rewrite generatePuzzle_S, randBind_unfold, generatePuzzleLoop_S,
    randBind_unfold, Hattempt.
  reflexivity.
Qed.

Lemma generatePuzzle_same_as_first_version_witness :
  generatePuzzle zeroRandom 2 "medium" 10 0%nat
  = FirstVersion.generatePuzzle zeroRandom "medium" 0%nat ∧
  ∃ data k',
    FirstVersion.generatePuzzle zeroRandom "medium" 0%nat = Some (data, k').
Proof.
  apply (generatePuzzle_same_as_first_version zeroRandom 2 "medium" 10 0);
    lia.
Defined.

(** ** The game: input, undo and lives *)

Lemma restore_historyArgument (g g' : game) :
  let g'' := restore g' (SudokuHistory.cloneState (historyArgument g)) in
  userEntries (core g'') = userEntries (core g) ∧
  candidates g'' = candidates g.
Proof.
  cbn. split; [apply map_id|].
  rewrite !map_map. rewrite <- (map_id (candidates g)) at 2.
  apply map_ext. intros row. rewrite !map_map.
  rewrite <- (map_id row) at 2. by apply map_ext.
Qed.

(** After [saveState] on a history that keeps one state at least, the
    state on top of the undo stack is the copy just made. *)
Lemma saveState_pop {W} (state : savedState) (h : history W) (w : W) :
  (1 ≤ maxHistory h)%nat →
  ∃ rest,
    pop (undoStack (SudokuHistory.saveState state h w).1)
    = (Some (SudokuHistory.cloneState state), rest) ∧
    undoStack (SudokuHistory.saveState state h w).1
    = rest ++ [SudokuHistory.cloneState state].
Proof.
  intros Hmax. unfold SudokuHistory.saveState. cbv zeta.
  cbn [fst undoStack maxHistory]. rewrite length_app. cbn [length].
  destruct (maxHistory h <? length (undoStack h) + 1)%nat eqn:Hfull.
  - apply Nat.ltb_lt in Hfull.
    destruct (undoStack h) as [|x u]; [cbn in Hfull; lia|].
    cbn [app tail]. exists u. by rewrite pop_snoc.
  - exists (undoStack h). by rewrite pop_snoc.
Qed.

Lemma updateConflicts_fields (g : game) :
  core (updateConflicts g) = core g ∧
  candidates (updateConflicts g) = candidates g ∧
  isComplete (updateConflicts g) = isComplete g ∧
  lives (updateConflicts g) = lives g ∧
  isGameOver (updateConflicts g) = isGameOver g.
Proof. done. Qed.

Lemma checkCompletion_fields (g : game) :
  core (checkCompletion g) = core g ∧
  candidates (checkCompletion g) = candidates g ∧
  conflicts (checkCompletion g) = conflicts g ∧
  lives (checkCompletion g) = lives g ∧
  isGameOver (checkCompletion g) = isGameOver g.
Proof. unfold checkCompletion. by repeat destruct (existsb _ _). Qed.

(** An input that the game accepts, and then [undo]: the entries and the
    candidates are those of before the input again.  The lives, the end
    of the game and the completion are those of after the input: a life
    lost on a wrong number is not given back. *)
Theorem input_then_undo {W} (s : settings) (candidateMode : bool)
    (row col : nat) (number : Z) (g : game) (h : history W) (w : W) :
  isGameOver g = false → isOfficial (core g) row col = false →
  (1 ≤ maxHistory h)%nat →
  ∃ g1 h1 w1 g2 h2 w2,
    handleNumberInput s candidateMode row col number g h w = (g1, h1, w1) ∧
    undo g1 h1 w1 = (g2, h2, w2) ∧
    userEntries (core g2) = userEntries (core g) ∧
    candidates g2 = candidates g ∧
    lives g2 = lives g1 ∧ isGameOver g2 = isGameOver g1 ∧
    isComplete g2 = isComplete g1 ∧
    redoStack h2 = [SudokuHistory.cloneState (historyArgument g1)].
Proof.
  intros Hover Hoff Hmax. unfold handleNumberInput. rewrite Hover, Hoff.
  destruct (saveState_pop (historyArgument g) h w Hmax)
    as (rest & Hpop & Hstack).
  assert (redoStack (SudokuHistory.saveState (historyArgument g) h w).1
          = []) as Hredo by done.
  destruct (SudokuHistory.saveState (historyArgument g) h w) as [h1 w1].
  cbn [fst] in *.
  match goal with
  | |- context [(checkCompletion ?x, h1, w1)] => set (g1 := checkCompletion x)
  end.
  exists g1, h1, w1. unfold undo, SudokuHistory.undo.
  assert ((length (undoStack h1) =? 0)%nat = false) as ->
    by (rewrite Hstack, length_app, Nat.add_1_r; done).
  rewrite Hpop, Hredo. cbn [app].
  eexists _, _, _. split; [reflexivity|]. split; [reflexivity|].
  destruct (restore_historyArgument g g1) as [Hentries Hcands].
  split_and!; [exact Hentries|exact Hcands|done..].
Qed.

Lemma input_then_undo_witness :
  ∃ g1 h1 w1 g2 h2 w2,
    handleNumberInput (Settings true true true false) false 0 0 5
      (startNewGame "easy"
         (PuzzleData (set firstSolution 0 0 0) firstSolution) initialState)
      (SudokuHistory.init noPage) () = (g1, h1, w1) ∧
    undo g1 h1 w1 = (g2, h2, w2) ∧
    userEntries (core g2)
    = userEntries
        (core (startNewGame "easy"
                 (PuzzleData (set firstSolution 0 0 0) firstSolution)
                 initialState)) ∧
    candidates g2
    = candidates
        (startNewGame "easy"
           (PuzzleData (set firstSolution 0 0 0) firstSolution)
           initialState) ∧
    lives g2 = lives g1 ∧ isGameOver g2 = isGameOver g1 ∧
    isComplete g2 = isComplete g1 ∧
    redoStack h2 = [SudokuHistory.cloneState (historyArgument g1)].
Proof.
  apply (input_then_undo (Settings true true true false) false 0 0 5
           (startNewGame "easy"
              (PuzzleData (set firstSolution 0 0 0) firstSolution)
              initialState)
           (SudokuHistory.init noPage) ()); [reflexivity|reflexivity|].
  cbn. lia.
Defined.

(** What an action keeps about the lives. *)
Lemma afterGameCall_lives {W} (g : game) (h : history W) (w : W)
    (call : gameCall) :
  0 ≤ lives g ≤ 3 ∧ (isGameOver g = true ↔ lives g = 0) →
  0 ≤ lives (afterGameCall (g, h, w) call).1.1 ≤ 3 ∧
  (isGameOver (afterGameCall (g, h, w) call).1.1 = true ↔
   lives (afterGameCall (g, h, w) call).1.1 = 0).
Proof.
  intros Hinv.
  destruct call as [s mode row col number| | |]; cbn [afterGameCall].
  - unfold handleNumberInput.
    destruct (isGameOver g) eqn:Hg; [cbn [fst]; by rewrite Hg|].
    destruct (isOfficial (core g) row col); [cbn [fst]; by rewrite Hg|].
    destruct (SudokuHistory.saveState _ h w) as [h1 w1]. cbn [fst].
    match goal with
    | |- context [checkCompletion ?x] =>
        destruct (checkCompletion_fields x) as (_ & _ & _ & -> & ->)
    end.
    cbn [updateConflicts lives isGameOver].
    destruct Hinv as [Hrange Hover].
    assert (lives g ≠ 0) as Hpos by (intros H0%Hover; done).
    destruct (mode && (0 <? number));
      [cbn [toggleCandidate lives isGameOver]; by rewrite Hg|].
    destruct (number =? 0);
      [cbn [enter lives isGameOver]; by rewrite Hg|].
    destruct (instantCheckEnabled s && _);
      [|cbn [clearCell enter lives isGameOver]; by rewrite Hg].
    destruct (livesEnabled s);
      [|cbn [clearCell enter lives isGameOver]; by rewrite Hg].
    cbn [clearCell enter loseLife lives isGameOver]. rewrite Hg.
    destruct (lives g - 1 <=? 0) eqn:Hlast.
    + apply Z.leb_le in Hlast. split; [lia|]. split; [lia|done].
    + apply Z.leb_gt in Hlast. split; [lia|]. split; [done|lia].
  - unfold undo. destruct (SudokuHistory.undo _ h w) as [[[p|] h1] w1];
      cbn [fst]; exact Hinv.
  - unfold redo. destruct (SudokuHistory.redo _ h w) as [[[p|] h1] w1];
      cbn [fst]; exact Hinv.
  - cbn [fst]. unfold solvePuzzle. destruct (foldl _ _ allCells).
    exact Hinv.
Qed.

(** From [startNewGame] on, whatever the player enters, undoes, redoes or
    has solved: the lives stay between 0 and 3, and the game is over
    exactly when no life is left. *)
Theorem lives_between_0_and_3 {W} (difficulty : string)
    (data : puzzleData) (g0 : game) (h : history W) (w : W)
    (calls : list gameCall) :
  0 ≤ lives (foldl afterGameCall
               (startNewGame difficulty data g0, h, w) calls).1.1 ≤ 3 ∧
  (isGameOver (foldl afterGameCall
                 (startNewGame difficulty data g0, h, w) calls).1.1 = true
   ↔ lives (foldl afterGameCall
              (startNewGame difficulty data g0, h, w) calls).1.1 = 0).
Proof.
  induction calls as [|call calls IH] using rev_ind.
  { cbn. unfold MAX_LIVES. split; [lia|]. by split. }
  rewrite foldl_app. cbn [foldl].
  destruct (foldl afterGameCall _ calls) as [[g1 h1] w1].
  by apply (afterGameCall_lives g1 h1 w1 call).
Qed.

(** ** fillGrid on any legal grid *)

(** On every legal grid, whatever [Math.random] draws, [fillGrid]
    returns.  It returns [true] exactly when the grid has a valid
    completion, and the grid is then one of them; when it returns [false]
    the grid is left as it was. *)
Theorem fillGrid_fills_or_restores (rand : nat → nat) (g : grid) (k : nat) :
  Consistent g →
  ∃ ok g' k',
    fillGrid rand 82 g k = Some ((ok, g'), k') ∧
    (ok = true ↔ ∃ s, Completion g s) ∧
    (ok = true → Completion g g') ∧
    (ok = false → g' = g).
Proof.
  intros Hcons. pose proof (Consistent_wf g Hcons) as Hwf.
  destruct (fillGrid_completions rand 82 g k Hwf (fuel_82 g))
    as ([ok g'] & k' & Hrun & Htrue & Hfalse).
  destruct (completions_spec 82 g Hcons (fuel_82 g)) as [_ Hmem].
  cbn [fst snd] in Htrue, Hfalse.
  exists ok, g', k'. split; [exact Hrun|]. clear Hrun.
  destruct ok.
  - specialize (Htrue eq_refl). apply Hmem in Htrue.
    split; [split; [intros _; by exists g'|done]|]. split; [done|].
    intros Hf. discriminate Hf.
  - destruct (Hfalse eq_refl) as [-> Hnil].
    split; [split; [intros Hf; discriminate Hf|]|].
    + intros [s Hs%Hmem]. rewrite Hnil in Hs. by apply elem_of_nil in Hs.
    + split; [intros Hf; discriminate Hf|done].
Qed.

Lemma fillGrid_fills_or_restores_witness :
  ∃ ok g' k',
    fillGrid zeroRandom 82 (set firstSolution 8 8 0) 0%nat = Some ((ok, g'), k') ∧
    (ok = true ↔ ∃ s, Completion (set firstSolution 8 8 0) s) ∧
    (ok = true → Completion (set firstSolution 8 8 0) g') ∧
    (ok = false → g' = (set firstSolution 8 8 0)).
Proof.
  apply (fillGrid_fills_or_restores zeroRandom (set firstSolution 8 8 0) 0).
  assert (isValidGrid (set firstSolution 8 8 0) false = true) as Hvalid
    by (vm_compute; reflexivity).
  apply isValidGrid_spec in Hvalid as [Hcons _]. exact Hcons.
Defined.

(** ** The hint search on the states of the game *)

(** Where [official] is [puzzle.map(row => row.map(cell => cell !== 0))],
    an official cell holds a non-zero puzzle value. *)
Lemma official_cell_nonzero (st : gameState) (r c : nat) :
  official st
  = map (fun row => map (fun cell => negb (cell =? 0)) row) (statePuzzle st) →
  isOfficial st r c = true → get (statePuzzle st) r c ≠ 0.
Proof.
  intros Heq. unfold isOfficial, get. rewrite Heq.
  change (map ?f (statePuzzle st)) with (f <$> statePuzzle st).
  rewrite list_lookup_fmap.
  destruct (statePuzzle st !! r) as [row|]; [|done].
  cbn [fmap option_fmap option_map].
  change (map ?f row) with (f <$> row). rewrite list_lookup_fmap.
  destruct (row !! c) as [v|]; [|done]. cbn.
  intros Hnz%negb_true_iff%Z.eqb_neq. done.
Qed.

(** No action of the player writes to [puzzle] or to [official]. *)
Lemma afterGameCall_tables {W} (g : game) (h : history W) (w : W)
    (call : gameCall) :
  statePuzzle (core (afterGameCall (g, h, w) call).1.1)
  = statePuzzle (core g) ∧
  official (core (afterGameCall (g, h, w) call).1.1) = official (core g).
Proof.
  destruct call as [s mode row col number| | |]; cbn [afterGameCall].
  - unfold handleNumberInput.
    destruct (isGameOver g); [done|].
    destruct (isOfficial (core g) row col); [done|].
    destruct (SudokuHistory.saveState _ h w) as [h1 w1]. cbn [fst].
    match goal with
    | |- context [checkCompletion ?x] =>
        destruct (checkCompletion_fields x) as (-> & _)
    end.
    cbn [updateConflicts core].
    destruct (mode && (0 <? number)); [done|].
    destruct (number =? 0); [done|].
    destruct (instantCheckEnabled s && _); [|done].
    by destruct (livesEnabled s).
  - unfold undo. by destruct (SudokuHistory.undo _ h w) as [[[p|] h1] w1].
  - unfold redo. by destruct (SudokuHistory.redo _ h w) as [[[p|] h1] w1].
  - cbn [fst]. unfold solvePuzzle. by destruct (foldl _ _ allCells).
Qed.

Lemma afterGameCalls_tables {W} (g : game) (h : history W) (w : W)
    (calls : list gameCall) :
  statePuzzle (core (foldl afterGameCall (g, h, w) calls).1.1)
  = statePuzzle (core g) ∧
  official (core (foldl afterGameCall (g, h, w) calls).1.1)
  = official (core g).
Proof.
  induction calls as [|call calls IH] using rev_ind; [done|].
  rewrite foldl_app. cbn [foldl].
  destruct (foldl afterGameCall _ calls) as [[g1 h1] w1]. cbn [fst] in IH.
  destruct (afterGameCall_tables g1 h1 w1 call) as [-> ->]. exact IH.
Qed.

(** In a game that [startNewGame] set up on 9x9 tables, after whatever
    the player has entered, undone, redone or had solved, [findHint] on
    the state of the game returns null exactly when no cell is both
    non-official and without a user entry; whenever there is such a cell
    it returns a hint.  No official cell is ever blank there: [official]
    is written by [startNewGame] only, as [puzzle !== 0]. *)
Theorem findHint_on_started_game {W} (difficulty : string)
    (data : puzzleData) (g0 : game) (h : history W) (w : W)
    (calls : list gameCall) :
  wfGrid (puzzle data) → wfGrid (solution data) →
  let st :=
    core (foldl afterGameCall
            (startNewGame difficulty data g0, h, w) calls).1.1 in
  (findHint st = None ↔
   ¬ ∃ r c, (r < 9)%nat ∧ (c < 9)%nat ∧ openCell st r c) ∧
  ((∃ r c, (r < 9)%nat ∧ (c < 9)%nat ∧ openCell st r c) →
   ∃ hint, findHint st = Some hint).
Proof.
  intros _ _ st. apply findHint_None_iff. intros r c _ _.
  apply official_cell_nonzero. unfold st.
  destruct (afterGameCalls_tables (startNewGame difficulty data g0) h w
              calls) as [-> ->].
  cbn [startNewGame core statePuzzle official]. by rewrite copyGrid_id.
Qed.

Lemma findHint_on_started_game_witness :
  (findHint
     (core (foldl afterGameCall
              (startNewGame "easy"
                 (PuzzleData (set firstSolution 0 0 0) firstSolution)
                 initialState, SudokuHistory.init noPage, ())
              [CallInput (Settings true true true false) false 0 0 5;
               CallGameUndo]).1.1) = None ↔
   ¬ ∃ r c, (r < 9)%nat ∧ (c < 9)%nat ∧
     openCell
       (core (foldl afterGameCall
                (startNewGame "easy"
                   (PuzzleData (set firstSolution 0 0 0) firstSolution)
                   initialState, SudokuHistory.init noPage, ())
                [CallInput (Settings true true true false) false 0 0 5;
                 CallGameUndo]).1.1) r c) ∧
  ((∃ r c, (r < 9)%nat ∧ (c < 9)%nat ∧
     openCell
       (core (foldl afterGameCall
                (startNewGame "easy"
                   (PuzzleData (set firstSolution 0 0 0) firstSolution)
                   initialState, SudokuHistory.init noPage, ())
                [CallInput (Settings true true true false) false 0 0 5;
                 CallGameUndo]).1.1) r c) →
   ∃ hint,
     findHint
       (core (foldl afterGameCall
                (startNewGame "easy"
                   (PuzzleData (set firstSolution 0 0 0) firstSolution)
                   initialState, SudokuHistory.init noPage, ())
                [CallInput (Settings true true true false) false 0 0 5;
                 CallGameUndo]).1.1) = Some hint).
Proof.
  apply (findHint_on_started_game "easy"
           (PuzzleData (set firstSolution 0 0 0) firstSolution)
           initialState (SudokuHistory.init noPage) ()
           [CallInput (Settings true true true false) false 0 0 5;
            CallGameUndo]).
  - split; [done|]. by repeat constructor.
  - split; [done|]. by repeat constructor.
Defined.
